(** * A shallow embedding of the Go board and of the minimax engine

    The development follows [go_game_gui.py]: the class [GoBoard] (board
    state machine: groups, liberties, captures, suicide and ko) and the
    class [MinimaxAI] (heuristic evaluation, minimax with alpha-beta
    pruning).

    Conventions of the embedding.
    - Python integers are [Z]; a stone colour is the integer the source
      uses ([0] empty, [1] Black, [2] White), and the opponent of a colour
      is [3 - colour] as in the source.
    - The grid [self.board] is a list of rows, each a list of [Z].
    - A method that mutates [self] is a function that takes the object and
      returns the result together with the new object.
    - Python [set]s of coordinates are duplicate-free lists; the source
      only takes their length, tests membership and iterates over them to
      perform commuting updates, so the iteration order is not observable.
    - The scores of the engine are Python floats.  Every value that occurs
      is a multiple of [0.5] of small magnitude, on which float arithmetic
      is exact; they are modelled as rationals [Q], and [float('inf')],
      [float('-inf')] as two extra points.
    - Indexing: [cell] and [set_cell] model [self.board[row][col]] on the
      indices [0 <= row, col < size], which are the only ones the program
      uses (loops over [range(size)], neighbours filtered by
      [is_valid_position], clicks filtered by the same test).  Python
      raises [IndexError] above that range and wraps negative indices;
      the theorems below are stated for in-range coordinates. *)

From Stdlib Require Import List ZArith QArith Lia Lra Bool Permutation Sorted.
From Stdlib Require Import Morphisms RelationClasses Orders OrdersTac.
Import ListNotations.

#[local] Open Scope Z_scope.

(** ** Coordinates and grids *)

Definition pos : Type := (Z * Z)%type.

Definition pos_eqb (p q : pos) : bool :=
  (fst p =? fst q) && (snd p =? snd q).

(** [(r, c) in s] for a Python set [s] of coordinates. *)
Definition mem (p : pos) (s : list pos) : bool := existsb (pos_eqb p) s.

(** [s.add(p)] *)
Definition set_add (p : pos) (s : list pos) : list pos :=
  if mem p s then s else p :: s.

(** [range(n)] *)
Definition range (n : Z) : list Z := map Z.of_nat (seq 0 (Z.to_nat n)).

Definition grid : Type := list (list Z).

(** [l[i] = v] on a list, for [0 <= i < len(l)]. *)
Fixpoint list_set {A : Type} (i : nat) (v : A) (l : list A) : list A :=
  match l, i with
  | [], _ => []
  | _ :: t, O => v :: t
  | h :: t, S j => h :: list_set j v t
  end.

(** [g[r][c]] *)
Definition grid_get (g : grid) (r c : Z) : Z :=
  nth (Z.to_nat c) (nth (Z.to_nat r) g []) 0.

(** [g[r][c] = v] *)
Definition grid_set (g : grid) (r c : Z) (v : Z) : grid :=
  list_set (Z.to_nat r) (list_set (Z.to_nat c) v (nth (Z.to_nat r) g [])) g.

(** ** The class [GoBoard] *)

Record GoBoard : Type := mkBoard {
  size : Z;
  board : grid;
  previous_board : option grid;
  current_player : Z;
  captured_black : Z;
  captured_white : Z;
  move_history : list (Z * Z * Z);
  ko_position : option pos
}.

(** [GoBoard(size)] *)
Definition new_board (n : Z) : GoBoard :=
  {| size := n;
     board := map (fun _ => map (fun _ => 0) (range n)) (range n);
     previous_board := None;
     current_player := 1;
     captured_black := 0;
     captured_white := 0;
     move_history := [];
     ko_position := None |}.

(** [copy]: a deep copy; values are immutable here, so the copy is the
    value itself and shares nothing with the original. *)
Definition copy (b : GoBoard) : GoBoard :=
  {| size := size b;
     board := board b;
     previous_board := previous_board b;
     current_player := current_player b;
     captured_black := captured_black b;
     captured_white := captured_white b;
     move_history := move_history b;
     ko_position := ko_position b |}.

(** The object after an assignment to [self.board]. *)
Definition with_board (b : GoBoard) (g : grid) : GoBoard :=
  {| size := size b;
     board := g;
     previous_board := previous_board b;
     current_player := current_player b;
     captured_black := captured_black b;
     captured_white := captured_white b;
     move_history := move_history b;
     ko_position := ko_position b |}.

(** [self.board[r][c]] and [self.board[r][c] = v] *)
Definition cell (b : GoBoard) (r c : Z) : Z := grid_get (board b) r c.

Definition set_cell (b : GoBoard) (r c : Z) (v : Z) : GoBoard :=
  with_board b (grid_set (board b) r c v).

Definition is_valid_position (b : GoBoard) (row col : Z) : bool :=
  (0 <=? row) && (row <? size b) && (0 <=? col) && (col <? size b).

Definition directions : list (Z * Z) := [(0, 1); (1, 0); (0, -1); (-1, 0)].

Definition get_neighbors (b : GoBoard) (row col : Z) : list pos :=
  fold_left
    (fun neighbors d =>
       let new_row := row + fst d in
       let new_col := col + snd d in
       if is_valid_position b new_row new_col
       then neighbors ++ [(new_row, new_col)]
       else neighbors)
    directions [].

(** The [for nr, nc in self.get_neighbors(r, c)] loop inside the loop of
    [get_group]: the neighbours of the stone's colour that are not in the
    group are pushed on the stack.  The head of the list is the top of
    the Python stack (the end of the Python list). *)
Definition push_neighbors (b : GoBoard) (color : Z) (group ns stack : list pos)
    : list pos :=
  fold_left
    (fun st n =>
       if (cell b (fst n) (snd n) =? color) && negb (mem n group)
       then n :: st else st)
    ns stack.

(** The [while stack:] loop of [get_group].  [fuel] bounds the number of
    iterations; [None] means that the bound was reached before the stack
    was empty ([get_group_total] shows that the bound used by [get_group]
    is never reached). *)
Fixpoint get_group_loop (fuel : nat) (b : GoBoard) (color : Z)
    (stack group : list pos) : option (list pos) :=
  match fuel with
  | O => None
  | S fuel' =>
      match stack with
      | [] => Some group
      | (r, c) :: stack' =>
          if mem (r, c) group then get_group_loop fuel' b color stack' group
          else
            let group' := (r, c) :: group in
            let stack'' :=
              push_neighbors b color group' (get_neighbors b r c) stack' in
            get_group_loop fuel' b color stack'' group'
      end
  end.

Definition group_fuel (b : GoBoard) : nat :=
  (4 * (Z.to_nat (size b) * Z.to_nat (size b)) + 6)%nat.

Definition get_group (b : GoBoard) (row col : Z) : list pos :=
  if cell b row col =? 0 then []
  else
    match get_group_loop (group_fuel b) b (cell b row col) [(row, col)] [] with
    | Some group => group
    | None => []
    end.

(** The set [liberties] that the loops of [count_liberties] build. *)
Definition liberty_set (b : GoBoard) (group : list pos) : list pos :=
  fold_left
    (fun libs p =>
       fold_left
         (fun libs n =>
            if cell b (fst n) (snd n) =? 0 then set_add n libs else libs)
         (get_neighbors b (fst p) (snd p)) libs)
    group [].

Definition count_liberties (b : GoBoard) (group : list pos) : Z :=
  Z.of_nat (length (liberty_set b group)).

(** [for r, c in group: self.board[r][c] = 0] *)
Definition remove_group (b : GoBoard) (group : list pos) : GoBoard :=
  fold_left (fun b p => set_cell b (fst p) (snd p) 0) group b.

(** The body of the double loop of [remove_captured_stones]; the state is
    the object, the set [checked] and [captured_count]. *)
Definition remove_captured_step (opponent_color row col : Z)
    (st : GoBoard * list pos * Z) : GoBoard * list pos * Z :=
  let '(b, checked, captured_count) := st in
  if (cell b row col =? opponent_color) && negb (mem (row, col) checked) then
    let group := get_group b row col in
    let checked := fold_left (fun s p => set_add p s) group checked in
    if count_liberties b group =? 0
    then (remove_group b group, checked,
          captured_count + Z.of_nat (length group))
    else (b, checked, captured_count)
  else st.

(** No method assigns [self.size]; the loops range over the size of the
    object they start from. *)
Definition remove_captured_stones (b : GoBoard) (opponent_color : Z)
    : Z * GoBoard :=
  let '(b', _, captured_count) :=
    fold_left
      (fun st row =>
         fold_left (fun st col => remove_captured_step opponent_color row col st)
           (range (size b)) st)
      (range (size b)) (b, [], 0) in
  (captured_count, b').

(** The [for ... break] loop of [would_be_suicide] over the neighbours;
    the result is the final value of [would_capture]. *)
Fixpoint capture_scan (b : GoBoard) (opponent_color : Z) (ns : list pos)
    : bool :=
  match ns with
  | [] => false
  | n :: ns' =>
      if cell b (fst n) (snd n) =? opponent_color then
        if count_liberties b (get_group b (fst n) (snd n)) =? 0 then true
        else capture_scan b opponent_color ns'
      else capture_scan b opponent_color ns'
  end.

Definition would_be_suicide (b : GoBoard) (row col color : Z)
    : bool * GoBoard :=
  let b1 := set_cell b row col color in
  let group := get_group b1 row col in
  let liberties := count_liberties b1 group in
  let opponent_color := 3 - color in
  let would_capture :=
    capture_scan b1 opponent_color (get_neighbors b1 row col) in
  let b2 := set_cell b1 row col 0 in
  ((liberties =? 0) && negb would_capture, b2).

(** [self.ko_position == (row, col)] *)
Definition ko_is (ko : option pos) (row col : Z) : bool :=
  match ko with
  | Some p => pos_eqb p (row, col)
  | None => false
  end.

Definition is_valid_move (b : GoBoard) (row col : Z) : bool * GoBoard :=
  if negb (cell b row col =? 0) then (false, b)
  else if ko_is (ko_position b) row col then (false, b)
  else
    let '(suicide, b') := would_be_suicide b row col (current_player b) in
    if suicide then (false, b') else (true, b').

(** The inner loop of the ko search of [make_move], with its [break]. *)
Fixpoint find_ko_row (prev cur : grid) (opponent_color r : Z)
    (cols : list Z) (ko : option pos) : option pos :=
  match cols with
  | [] => ko
  | c :: cols' =>
      if (grid_get prev r c =? opponent_color) && (grid_get cur r c =? 0)
      then Some (r, c)
      else find_ko_row prev cur opponent_color r cols' ko
  end.

(** The outer loop: the [break] leaves the inner loop only. *)
Definition find_ko (n : Z) (prev cur : grid) (opponent_color : Z)
    (ko : option pos) : option pos :=
  fold_left (fun ko r => find_ko_row prev cur opponent_color r (range n) ko)
    (range n) ko.

Definition make_move (b : GoBoard) (row col : Z) : bool * GoBoard :=
  let '(ok, b0) := is_valid_move b row col in
  if negb ok then (false, b0)
  else
    let prev := board b0 in
    let b1 := set_cell b0 row col (current_player b0) in
    let opponent_color := 3 - current_player b0 in
    let '(captured, b2) := remove_captured_stones b1 opponent_color in
    let cw := if current_player b0 =? 1
              then captured_white b0 + captured else captured_white b0 in
    let cb := if current_player b0 =? 1
              then captured_black b0 else captured_black b0 + captured in
    let ko := if captured =? 1
              then find_ko (size b0) prev (board b2) opponent_color
                     (ko_position b0)
              else None in
    (true,
     {| size := size b0;
        board := board b2;
        previous_board := Some prev;
        current_player := 3 - current_player b0;
        captured_black := cb;
        captured_white := cw;
        move_history := move_history b0 ++ [(row, col, current_player b0)];
        ko_position := ko |}).

Definition undo_move (b : GoBoard) : bool * GoBoard :=
  match move_history b, previous_board b with
  | [], _ => (false, b)
  | _ :: _, None => (false, b)
  | _ :: _, Some prev =>
      (true,
       {| size := size b;
          board := prev;
          previous_board := previous_board b;
          current_player := 3 - current_player b;
          captured_black := 0;
          captured_white := 0;
          move_history := removelast (move_history b);
          ko_position := None |})
  end.

(** [get_score]: the counts are Python integers; adding the komi [2.5]
    makes the white score a float. *)
Definition get_score (b : GoBoard) : Z * Q :=
  let '(black_score, white_score) :=
    fold_left
      (fun st row =>
         fold_left
           (fun st col =>
              let '(bs, ws) := st in
              if cell b row col =? 1 then (bs + 1, ws)
              else if cell b row col =? 2 then (bs, ws + 1)
              else st)
           (range (size b)) st)
      (range (size b)) (0, 0) in
  let black_score := black_score + captured_white b in
  let white_score := white_score + captured_black b in
  (black_score, (inject_Z white_score + (5 # 2))%Q).

Definition get_valid_moves (b : GoBoard) : list pos * GoBoard :=
  fold_left
    (fun st row =>
       fold_left
         (fun st col =>
            let '(valid_moves, b) := st in
            let '(ok, b') := is_valid_move b row col in
            if ok then (valid_moves ++ [(row, col)], b') else (valid_moves, b'))
         (range (size b)) st)
    (range (size b)) ([], b).

(** ** The class [MinimaxAI] *)

Record MinimaxAI : Type := mkAI {
  depth : nat;
  player : Z;
  opponent : Z;
  nodes_evaluated : Z
}.

(** [MinimaxAI(depth, player)] *)
Definition new_ai (d : nat) (p : Z) : MinimaxAI :=
  {| depth := d; player := p; opponent := 3 - p; nodes_evaluated := 0 |}.

Definition with_nodes (ai : MinimaxAI) (n : Z) : MinimaxAI :=
  {| depth := depth ai; player := player ai; opponent := opponent ai;
     nodes_evaluated := n |}.

(** [(3.5 - abs(row - 3)) + (3.5 - abs(col - 3))] *)
Definition center_bonus (row col : Z) : Q :=
  (((7 # 2) - inject_Z (Z.abs (row - 3)))
   + ((7 # 2) - inject_Z (Z.abs (col - 3))))%Q.

Definition corners (b : GoBoard) : list pos :=
  [(0, 0); (0, size b - 1); (size b - 1, 0); (size b - 1, size b - 1)].

(** [evaluate_board]: the four phases of the source, each threading
    [score]. *)
Definition evaluate_board (ai : MinimaxAI) (b : GoBoard) : Q :=
  let score : Q := 0%Q in
  (* 1. stones on the board *)
  let score :=
    fold_left
      (fun score row =>
         fold_left
           (fun score col =>
              if cell b row col =? player ai
              then (score + (10 + center_bonus row col))%Q
              else if cell b row col =? opponent ai
              then (score - (10 + center_bonus row col))%Q
              else score)
           (range (size b)) score)
      (range (size b)) score in
  (* 2. captured stones *)
  let score :=
    if player ai =? 1
    then (score + inject_Z (captured_white b * 15)
          - inject_Z (captured_black b * 15))%Q
    else (score + inject_Z (captured_black b * 15)
          - inject_Z (captured_white b * 15))%Q in
  (* 3. liberties *)
  let score :=
    fold_left
      (fun score row =>
         fold_left
           (fun score col =>
              if cell b row col =? player ai
              then (score
                    + inject_Z (count_liberties b (get_group b row col) * 2))%Q
              else if cell b row col =? opponent ai
              then (score
                    - inject_Z (count_liberties b (get_group b row col) * 2))%Q
              else score)
           (range (size b)) score)
      (range (size b)) score in
  (* 4. corners *)
  fold_left
    (fun score p =>
       if cell b (fst p) (snd p) =? player ai then (score + 5)%Q
       else if cell b (fst p) (snd p) =? opponent ai then (score - 5)%Q
       else score)
    (corners b) score.

(** Python floats with the two infinities used as initial bounds. *)
Inductive fscore : Type :=
| NegInf
| Fin (q : Q)
| PosInf.

(** [x < y] on floats *)
Definition fs_ltb (x y : fscore) : bool :=
  match x, y with
  | NegInf, NegInf => false
  | NegInf, _ => true
  | Fin _, NegInf => false
  | Fin a, Fin b => negb (Qle_bool b a)
  | Fin _, PosInf => true
  | PosInf, _ => false
  end.

(** [x <= y] on floats *)
Definition fs_leb (x y : fscore) : bool :=
  match x, y with
  | NegInf, _ => true
  | Fin _, NegInf => false
  | Fin a, Fin b => Qle_bool a b
  | Fin _, PosInf => true
  | PosInf, PosInf => true
  | PosInf, _ => false
  end.

(** Python's [max(a, b)] and [min(a, b)]: the first argument is kept
    unless the second is strictly better. *)
Definition fs_max (a b : fscore) : fscore := if fs_ltb a b then b else a.
Definition fs_min (a b : fscore) : fscore := if fs_ltb b a then b else a.

Definition search_result : Type := (fscore * option pos * MinimaxAI)%type.

Section Loops.

(** The recursive call of [minimax] at [depth - 1] with the flag
    flipped. *)
Variable search : GoBoard -> fscore -> fscore -> MinimaxAI -> search_result.

(** The [for move in valid_moves] loop of the maximizing branch. *)
Fixpoint max_loop (b : GoBoard) (moves : list pos) (max_eval : fscore)
    (best_move : option pos) (alpha beta : fscore) (ai : MinimaxAI)
    : search_result :=
  match moves with
  | [] => (max_eval, best_move, ai)
  | move :: rest =>
      let new_board := snd (make_move (copy b) (fst move) (snd move)) in
      let '(eval_score, _, ai) := search new_board alpha beta ai in
      let '(max_eval, best_move) :=
        if fs_ltb max_eval eval_score then (eval_score, Some move)
        else (max_eval, best_move) in
      let alpha := fs_max alpha eval_score in
      if fs_leb beta alpha then (max_eval, best_move, ai)
      else max_loop b rest max_eval best_move alpha beta ai
  end.

(** The loop of the minimizing branch. *)
Fixpoint min_loop (b : GoBoard) (moves : list pos) (min_eval : fscore)
    (best_move : option pos) (alpha beta : fscore) (ai : MinimaxAI)
    : search_result :=
  match moves with
  | [] => (min_eval, best_move, ai)
  | move :: rest =>
      let new_board := snd (make_move (copy b) (fst move) (snd move)) in
      let '(eval_score, _, ai) := search new_board alpha beta ai in
      let '(min_eval, best_move) :=
        if fs_ltb eval_score min_eval then (eval_score, Some move)
        else (min_eval, best_move) in
      let beta := fs_min beta eval_score in
      if fs_leb beta alpha then (min_eval, best_move, ai)
      else min_loop b rest min_eval best_move alpha beta ai
  end.

End Loops.

(** [minimax]: the depth is the non-negative ply budget ([1], [2] or [3] in
    the program), counted down to [0]. *)
Fixpoint minimax (ai : MinimaxAI) (b : GoBoard) (d : nat)
    (alpha beta : fscore) (maximizing : bool) : search_result :=
  let ai := with_nodes ai (nodes_evaluated ai + 1) in
  match d with
  | O => (Fin (evaluate_board ai b), None, ai)
  | S d' =>
      let '(valid_moves, b) := get_valid_moves b in
      match valid_moves with
      | [] => (Fin (evaluate_board ai b), None, ai)
      | _ :: _ =>
          if maximizing
          then max_loop (fun nb a be ai' => minimax ai' nb d' a be false)
                 b valid_moves NegInf None alpha beta ai
          else min_loop (fun nb a be ai' => minimax ai' nb d' a be true)
                 b valid_moves PosInf None alpha beta ai
      end
  end.

(** [get_best_move]: the wall-clock duration, third component of the
    source's result, is not part of the model. *)
Definition get_best_move (ai : MinimaxAI) (b : GoBoard)
    : option pos * Z * MinimaxAI :=
  let ai := with_nodes ai 0 in
  let '(_, best_move, ai) := minimax ai b (depth ai) NegInf PosInf true in
  (best_move, nodes_evaluated ai, ai).

(** ** The class [GoGame]: mouse positions and the end of the game *)

Definition BOARD_SIZE : Z := 7.
Definition CELL_SIZE : Z := 70.
Definition MARGIN : Z := 80.

(** [round(n / d)] for integers [n] and [d > 0].  In the source [/] gives
    a float and [round] takes it to the nearest integer, a half going to
    the even neighbour.  The operands are pixel coordinates and [d] is
    [CELL_SIZE]: a quotient that is a half-integer is a float exactly,
    and any other quotient is at least [1/d] away from a half-integer,
    far more than the error of the float division, so the result is the
    rounding of the exact quotient. *)
Definition round_div (n d : Z) : Z :=
  let q := n / d in
  let r := n mod d in
  if 2 * r <? d then q
  else if d <? 2 * r then q + 1
  else if Z.even q then q else q + 1.

Definition get_board_position (mouse_pos : Z * Z) : option pos :=
  let '(x, y) := mouse_pos in
  let col := round_div (x - MARGIN) CELL_SIZE in
  let row := round_div (y - MARGIN) CELL_SIZE in
  if (0 <=? row) && (row <? BOARD_SIZE) && (0 <=? col) && (col <? BOARD_SIZE)
  then Some (row, col)
  else None.

(** The pixel at which [draw_stones] centres the stone of a cell. *)
Definition stone_center (p : pos) : Z * Z :=
  (MARGIN + snd p * CELL_SIZE, MARGIN + fst p * CELL_SIZE).

(** [winner_text], by the side that it names. *)
Inductive winner : Type := BlackWins | WhiteWins | Draw.

(** [check_game_over]: [Some w] when [game_over] is set and the text names
    [w], [None] when nothing is assigned.  The white score is a float in
    the source; it is the exact sum while White's stones and captures stay
    below [2 ^ 51] in absolute value, which the properties of
    [check_game_over] assume. *)
Definition check_game_over (b : GoBoard) : option winner * GoBoard :=
  let '(valid_moves, b) := get_valid_moves b in
  match valid_moves with
  | [] =>
      let '(black_score, white_score) := get_score b in
      if negb (Qle_bool (inject_Z black_score) white_score)
      then (Some BlackWins, b)
      else if negb (Qle_bool white_score (inject_Z black_score))
      then (Some WhiteWins, b)
      else (Some Draw, b)
  | _ :: _ => (None, b)
  end.

(** ** Notions used in the statements *)

(** A grid of [n] rows of [n] cells. *)
Definition wf_grid (n : Z) (g : grid) : Prop :=
  length g = Z.to_nat n /\ Forall (fun row => length row = Z.to_nat n) g.

Definition in_range (n : Z) (p : pos) : Prop :=
  0 <= fst p < n /\ 0 <= snd p < n.

(** The content of the cell at a coordinate pair. *)
Definition cell_at (b : GoBoard) (p : pos) : Z := cell b (fst p) (snd p).

(** [q] is a cell of the board one step away from [p] along a row or
    along a column. *)
Definition adjacent (b : GoBoard) (p q : pos) : Prop :=
  in_range (size b) q /\
  Z.abs (fst q - fst p) + Z.abs (snd q - snd p) = 1.

(** [q] is reached from [p] by steps between adjacent cells, each step
    arriving on a cell of colour [color]. *)
Inductive connected (b : GoBoard) (color : Z) (p : pos) : pos -> Prop :=
| connected_refl : connected b color p p
| connected_step (q r : pos) :
    connected b color p q -> adjacent b q r -> cell_at b r = color ->
    connected b color p r.

(** The group of the stone at [p]: the stones of its colour connected to
    it; an empty cell has no group. *)
Definition in_group (b : GoBoard) (p q : pos) : Prop :=
  cell_at b p <> 0 /\ connected b (cell_at b p) p q.

(** A liberty of the group of [p]: an empty cell adjacent to one of its
    stones. *)
Definition liberty_of (b : GoBoard) (p n : pos) : Prop :=
  cell_at b n = 0 /\ exists q, in_group b p q /\ adjacent b q n.

Definition no_liberty (b : GoBoard) (p : pos) : Prop :=
  forall n, ~ liberty_of b p n.

(** The stone of the player to move tentatively placed at [(r, c)]. *)
Definition placed (b : GoBoard) (r c : Z) : GoBoard :=
  set_cell b r c (current_player b).

(** The placement leaves some adjacent opposing group without liberty. *)
Definition captures_at (b : GoBoard) (r c : Z) : Prop :=
  exists n, adjacent b (r, c) n /\
            cell_at (placed b r c) n = 3 - current_player b /\
            no_liberty (placed b r c) n.

(** Suicide, in the words of the specification: the group of the placed
    stone has no liberty and the placement captures nothing. *)
Definition suicide_at (b : GoBoard) (r c : Z) : Prop :=
  no_liberty (placed b r c) (r, c) /\ ~ captures_at b r c.

(** The cells of an [n] by [n] board in row-major order. *)
Definition all_cells (n : Z) : list pos :=
  flat_map (fun r => map (fun c => (r, c)) (range n)) (range n).

(** Row-major order on coordinates. *)
Definition row_major_lt (p q : pos) : Prop :=
  fst p < fst q \/ (fst p = fst q /\ snd p < snd q).

(** The number of board cells that are not yet in [group]: the measure
    that bounds the iterations of the loop of [get_group]. *)
Definition uncovered (n : Z) (group : list pos) : nat :=
  length (filter (fun p => negb (mem p group)) (all_cells n)).

(** A board object in the sense of the data model: a square grid of the
    declared size and a player to move who is Black or White. *)
Definition wf_board (b : GoBoard) : Prop :=
  wf_grid (size b) (board b) /\ (current_player b = 1 \/ current_player b = 2).

(** The number of stones of colour [v] on the board. *)
Definition stones (b : GoBoard) (v : Z) : Z :=
  Z.of_nat (length (filter (fun p => cell_at b p =? v) (all_cells (size b)))).

(** The stones captured by a move that leads from [b] to [b']: the cells
    that held a stone of the opponent of the mover and are empty
    afterwards, in row-major order. *)
Definition captured_cells (b b' : GoBoard) : list pos :=
  filter (fun p => (cell_at b p =? 3 - current_player b) && (cell_at b' p =? 0))
    (all_cells (size b)).

(** The test of the ko search of [make_move] at one cell. *)
Definition ko_test (prev cur : grid) (opponent_color r c : Z) : bool :=
  (grid_get prev r c =? opponent_color) && (grid_get cur r c =? 0).

(** The board after a sequence of calls of [make_move]. *)
Definition play_moves (b : GoBoard) (ms : list pos) : GoBoard :=
  fold_left (fun b m => snd (make_move b (fst m) (snd m))) ms b.

(** A position in which Black can capture the single white stone at
    [(0, 0)] by playing [(1, 0)]. *)
Definition ko_board : GoBoard :=
  play_moves (new_board 7) [(0, 1); (0, 0); (6, 6); (1, 1); (6, 5); (2, 0)].

(** A position in which Black can capture the single white stone at
    [(3, 3)], in the middle of the board, by playing [(3, 4)]. *)
Definition eye_board : GoBoard :=
  play_moves (new_board 7) [(2, 3); (3, 3); (4, 3); (0, 0); (3, 2); (0, 1)].

(** The boards reached from the empty board by successful calls of
    [make_move] on cells of the board. *)
Inductive reachable (n : Z) : GoBoard -> Prop :=
| reachable_init : reachable n (new_board n)
| reachable_move (b b' : GoBoard) (r c : Z) :
    reachable n b ->
    is_valid_position b r c = true ->
    make_move b r c = (true, b') ->
    reachable n b'.

(** The boards reached by successful calls of [make_move] and of
    [undo_move]. *)
Inductive reachable_undo (n : Z) : GoBoard -> Prop :=
| reachable_undo_init : reachable_undo n (new_board n)
| reachable_undo_move (b b' : GoBoard) (r c : Z) :
    reachable_undo n b ->
    is_valid_position b r c = true ->
    make_move b r c = (true, b') ->
    reachable_undo n b'
| reachable_undo_undo (b b' : GoBoard) :
    reachable_undo n b ->
    undo_move b = (true, b') ->
    reachable_undo n b'.

(** The quantity that the data model relates to the length of the move
    history: the stones on the board plus both capture counters. *)
Definition stones_and_captures (b : GoBoard) : Z :=
  stones b 1 + stones b 2 + captured_black b + captured_white b.

(** *** The evaluation, in the words of the specification *)

(** The sum of [f] over a list. *)
Definition sumQ {A : Type} (f : A -> Q) (l : list A) : Q :=
  fold_right (fun x acc => (f x + acc)%Q) 0%Q l.









(** *** Exhaustive minimax, in the words of the specification *)

Section ExhaustiveLoops.

(** The recursive call at [depth - 1] with the flag flipped, without a
    window. *)
Variable search : GoBoard -> MinimaxAI -> search_result.

(** The maximizing loop without cutoff: every legal move is examined and
    the first move that reaches the best value is kept. *)
Fixpoint max_loop_all (b : GoBoard) (moves : list pos) (max_eval : fscore)
    (best_move : option pos) (ai : MinimaxAI) : search_result :=
  match moves with
  | [] => (max_eval, best_move, ai)
  | move :: rest =>
      let new_board := snd (make_move (copy b) (fst move) (snd move)) in
      let '(eval_score, _, ai) := search new_board ai in
      let '(max_eval, best_move) :=
        if fs_ltb max_eval eval_score then (eval_score, Some move)
        else (max_eval, best_move) in
      max_loop_all b rest max_eval best_move ai
  end.

(** The minimizing loop without cutoff. *)
Fixpoint min_loop_all (b : GoBoard) (moves : list pos) (min_eval : fscore)
    (best_move : option pos) (ai : MinimaxAI) : search_result :=
  match moves with
  | [] => (min_eval, best_move, ai)
  | move :: rest =>
      let new_board := snd (make_move (copy b) (fst move) (snd move)) in
      let '(eval_score, _, ai) := search new_board ai in
      let '(min_eval, best_move) :=
        if fs_ltb eval_score min_eval then (eval_score, Some move)
        else (min_eval, best_move) in
      min_loop_all b rest min_eval best_move ai
  end.

End ExhaustiveLoops.

(** Minimax over the same positions, depth, evaluation, move order and
    tie-breaking as [minimax], without pruning. *)
Fixpoint minimax_exhaustive (ai : MinimaxAI) (b : GoBoard) (d : nat)
    (maximizing : bool) : search_result :=
  let ai := with_nodes ai (nodes_evaluated ai + 1) in
  match d with
  | O => (Fin (evaluate_board ai b), None, ai)
  | S d' =>
      let '(valid_moves, b) := get_valid_moves b in
      match valid_moves with
      | [] => (Fin (evaluate_board ai b), None, ai)
      | _ :: _ =>
          if maximizing
          then max_loop_all (fun nb ai' => minimax_exhaustive ai' nb d' false)
                 b valid_moves NegInf None ai
          else min_loop_all (fun nb ai' => minimax_exhaustive ai' nb d' true)
                 b valid_moves PosInf None ai
      end
  end.

(** The components of a search result. *)
Definition score_of (r : search_result) : fscore := fst (fst r).
Definition move_of (r : search_result) : option pos := snd (fst r).
Definition engine_of (r : search_result) : MinimaxAI := snd r.

(** The order of the floats, as propositions; [fs_eq] is their equality
    as numbers. *)
Inductive fs_eq : fscore -> fscore -> Prop :=
| fs_eq_neg : fs_eq NegInf NegInf
| fs_eq_fin (a b : Q) : (a == b)%Q -> fs_eq (Fin a) (Fin b)
| fs_eq_pos : fs_eq PosInf PosInf.

Inductive fs_lt : fscore -> fscore -> Prop :=
| fs_lt_neg_fin (a : Q) : fs_lt NegInf (Fin a)
| fs_lt_neg_pos : fs_lt NegInf PosInf
| fs_lt_fin (a b : Q) : (a < b)%Q -> fs_lt (Fin a) (Fin b)
| fs_lt_fin_pos (a : Q) : fs_lt (Fin a) PosInf.

Inductive fs_le : fscore -> fscore -> Prop :=
| fs_le_neg (x : fscore) : fs_le NegInf x
| fs_le_fin (a b : Q) : (a <= b)%Q -> fs_le (Fin a) (Fin b)
| fs_le_pos (x : fscore) : fs_le x PosInf.

Module FS.

Definition t : Type := fscore.
Definition eq : fscore -> fscore -> Prop := fs_eq.
Definition lt : fscore -> fscore -> Prop := fs_lt.
Definition le : fscore -> fscore -> Prop := fs_le.

End FS.

(** What a search with window [(alpha, beta)] guarantees about its
    result [v'] with respect to the exact minimax value [v]: at or below
    [alpha] it is an upper bound, at or above [beta] a lower bound, and
    strictly inside the window it is the exact value. *)
Definition window_sound (v' v alpha beta : fscore) : Prop :=
  (fs_le v' alpha -> fs_le v v') /\
  (fs_le beta v' -> fs_le v' v) /\
  (fs_lt alpha v' -> fs_lt v' beta -> fs_eq v' v).

(** Two engine objects that differ at most in their node counter, the
    second having counted at least as many nodes as the first. *)
Definition same_engine (ai ai' : MinimaxAI) : Prop :=
  player ai = player ai' /\ opponent ai = opponent ai' /\
  nodes_evaluated ai <= nodes_evaluated ai'.

(** The invariant of the scan of [remove_captured_stones]: the current
    board is the initial one with the distinct cells of [L] emptied, all
    of which held the opponent colour, and the tally is their number. *)
Definition removal (b0 : GoBoard) (opp : Z) (L : list pos) (b : GoBoard)
    (count : Z) : Prop :=
  NoDup L /\
  (forall p, In p L -> in_range (size b0) p /\ cell_at b0 p = opp /\ opp <> 0) /\
  size b = size b0 /\
  wf_grid (size b0) (board b) /\
  (forall p, in_range (size b0) p ->
             cell_at b p = if mem p L then 0 else cell_at b0 p) /\
  count = Z.of_nat (length L).

(** Every cell of an [n] by [n] grid holds [0], [1] or [2]. *)
Definition cells_valid (n : Z) (g : grid) : Prop :=
  forall r c, 0 <= r < n -> 0 <= c < n ->
              grid_get g r c = 0 \/ grid_get g r c = 1 \/ grid_get g r c = 2.

(** The player who moves when [k] moves are recorded: Black on even
    counts, White on odd ones. *)
Definition player_at (k : nat) : Z := if Nat.even k then 1 else 2.

(** What every board of a game satisfies. *)
Definition board_invariant (n : Z) (b : GoBoard) : Prop :=
  size b = n /\
  wf_grid n (board b) /\ cells_valid n (board b) /\
  (forall prev, previous_board b = Some prev ->
                wf_grid n prev /\ cells_valid n prev) /\
  (forall k, ko_position b = Some k -> in_range n k /\ cell_at b k = 0) /\
  (move_history b <> [] -> previous_board b <> None) /\
  current_player b = player_at (length (move_history b)) /\
  0 <= captured_black b /\ 0 <= captured_white b.

(** The value that the engine gives to a move: the evaluation of the
    position that the move leads to. *)
Definition move_value (ai : MinimaxAI) (b : GoBoard) (mv : pos) : Q :=
  evaluate_board ai (snd (make_move b (fst mv) (snd mv))).

(** [best] is the first move of [moves] with the greatest value. *)
Definition first_best (ai : MinimaxAI) (b : GoBoard) (moves : list pos)
    (best : pos) : Prop :=
  exists l1 l2,
    moves = l1 ++ best :: l2 /\
    (forall x, In x l1 -> (move_value ai b x < move_value ai b best)%Q) /\
    (forall x, In x l2 -> (move_value ai b x <= move_value ai b best)%Q).

(** * Properties *)

(** ** Lists and grids *)

Lemma pos_eqb_spec (p q : pos) : reflect (p = q) (pos_eqb p q).
Proof.
  destruct p as [a b], q as [c d]; unfold pos_eqb; simpl.
  destruct (Z.eqb_spec a c), (Z.eqb_spec b d); simpl; constructor; congruence.
Qed.

Lemma pos_eqb_refl (p : pos) : pos_eqb p p = true.
Proof. destruct (pos_eqb_spec p p); congruence. Qed.

Lemma pos_eq_dec (p q : pos) : {p = q} + {p <> q}.
Proof. destruct (pos_eqb_spec p q); [left | right]; assumption. Defined.

Lemma mem_In (p : pos) (s : list pos) : mem p s = true <-> In p s.
Proof.
  unfold mem; rewrite existsb_exists; split.
  - intros (q & Hq & E). destruct (pos_eqb_spec p q); congruence.
  - intros H; exists p; split; [assumption | apply pos_eqb_refl].
Qed.

Lemma mem_false (p : pos) (s : list pos) : mem p s = false <-> ~ In p s.
Proof.
  rewrite <- mem_In. destruct (mem p s); split; congruence.
Qed.

Lemma list_set_length {A} (i : nat) (v : A) (l : list A) :
  length (list_set i v l) = length l.
Proof.
  revert i; induction l as [|h t IH]; intros [|i]; simpl; auto.
Qed.

Lemma list_set_out {A} (i : nat) (v : A) (l : list A) :
  (length l <= i)%nat -> list_set i v l = l.
Proof.
  revert i; induction l as [|h t IH]; intros [|i] H; simpl in *; auto.
  - lia.
  - f_equal; apply IH; lia.
Qed.

Lemma list_set_twice {A} (i : nat) (v w : A) (l : list A) :
  list_set i v (list_set i w l) = list_set i v l.
Proof.
  revert i; induction l as [|h t IH]; intros [|i]; simpl; auto.
  f_equal; apply IH.
Qed.

Lemma list_set_nth_same {A} (i : nat) (d : A) (l : list A) :
  list_set i (nth i l d) l = l.
Proof.
  revert i; induction l as [|h t IH]; intros [|i]; simpl; auto.
  f_equal; apply IH.
Qed.

Lemma nth_list_set_eq {A} (i : nat) (v d : A) (l : list A) :
  (i < length l)%nat -> nth i (list_set i v l) d = v.
Proof.
  revert i; induction l as [|h t IH]; intros [|i] H; simpl in *; auto; try lia.
  apply IH; lia.
Qed.

Lemma nth_list_set_neq {A} (i j : nat) (v d : A) (l : list A) :
  i <> j -> nth j (list_set i v l) d = nth j l d.
Proof.
  revert i j; induction l as [|h t IH]; intros [|i] [|j] H; simpl; auto;
    try congruence.
Qed.

Lemma grid_set_restore (g : grid) (r c v : Z) :
  grid_get g r c = 0 -> grid_set (grid_set g r c v) r c 0 = g.
Proof.
  unfold grid_get, grid_set; intros H.
  destruct (Nat.lt_ge_cases (Z.to_nat r) (length g)) as [Hr | Hr].
  - rewrite nth_list_set_eq by assumption.
    rewrite !list_set_twice, <- H.
    rewrite list_set_nth_same. apply list_set_nth_same.
  - rewrite (list_set_out _ _ g) by assumption.
    rewrite (nth_overflow g) by assumption. simpl.
    apply list_set_out; assumption.
Qed.

Lemma is_valid_position_iff (b : GoBoard) (r c : Z) :
  is_valid_position b r c = true <-> in_range (size b) (r, c).
Proof.
  unfold is_valid_position, in_range; simpl.
  rewrite !andb_true_iff, !Z.leb_le, !Z.ltb_lt. lia.
Qed.

Lemma wf_grid_set (n : Z) (g : grid) (r c v : Z) :
  wf_grid n g -> wf_grid n (grid_set g r c v).
Proof.
  intros [Hl Hr]; unfold grid_set; split.
  - rewrite list_set_length; assumption.
  - rewrite Forall_forall in *. intros row Hin.
    apply In_nth with (d := []) in Hin. destruct Hin as (k & Hk & <-).
    rewrite list_set_length in Hk.
    destruct (Nat.eq_dec (Z.to_nat r) k) as [-> | Hne].
    + rewrite nth_list_set_eq by assumption.
      rewrite list_set_length. apply Hr, nth_In; assumption.
    + rewrite nth_list_set_neq by assumption. apply Hr, nth_In; assumption.
Qed.

Lemma grid_get_set_eq (n : Z) (g : grid) (r c v : Z) :
  wf_grid n g -> in_range n (r, c) -> grid_get (grid_set g r c v) r c = v.
Proof.
  intros [Hl Hr] [H1 H2]; simpl in *. unfold grid_get, grid_set.
  assert (Hlt : (Z.to_nat r < length g)%nat) by lia.
  rewrite nth_list_set_eq by assumption.
  apply nth_list_set_eq.
  rewrite Forall_forall in Hr. rewrite (Hr (nth (Z.to_nat r) g [])).
  - lia.
  - apply nth_In; assumption.
Qed.

Lemma grid_get_set_neq (g : grid) (r c v r' c' : Z) :
  0 <= r -> 0 <= c -> 0 <= r' -> 0 <= c' -> (r, c) <> (r', c') ->
  grid_get (grid_set g r c v) r' c' = grid_get g r' c'.
Proof.
  intros H1 H2 H3 H4 Hne. unfold grid_get, grid_set.
  destruct (Nat.eq_dec (Z.to_nat r) (Z.to_nat r')) as [E | Hr].
  - assert (r = r') by lia; subst r'.
    assert (Hc : Z.to_nat c <> Z.to_nat c') by (intro; apply Hne; f_equal; lia).
    destruct (Nat.lt_ge_cases (Z.to_nat r) (length g)) as [Hlt | Hge].
    + rewrite nth_list_set_eq by assumption.
      apply nth_list_set_neq; assumption.
    + rewrite list_set_out by assumption. reflexivity.
  - rewrite nth_list_set_neq by assumption. reflexivity.
Qed.

Lemma with_board_same (b : GoBoard) : with_board b (board b) = b.
Proof. destruct b; reflexivity. Qed.

Lemma set_cell_restore (b : GoBoard) (r c v : Z) :
  cell b r c = 0 -> set_cell (set_cell b r c v) r c 0 = b.
Proof.
  intros H. unfold set_cell, with_board; simpl.
  rewrite grid_set_restore by exact H. destruct b; reflexivity.
Qed.

(** ** The cells of the board *)

Lemma In_range (n x : Z) : In x (range n) <-> 0 <= x < n.
Proof.
  unfold range. rewrite in_map_iff. split.
  - intros (k & <- & Hk). apply in_seq in Hk. lia.
  - intros H. exists (Z.to_nat x). split; [lia | apply in_seq; lia].
Qed.

Lemma In_all_cells (n : Z) (p : pos) : In p (all_cells n) <-> in_range n p.
Proof.
  unfold all_cells, in_range. rewrite in_flat_map. split.
  - intros (r & Hr & Hp). apply in_map_iff in Hp. destruct Hp as (c & <- & Hc).
    apply In_range in Hr, Hc. simpl. lia.
  - intros [Hr Hc]. exists (fst p). split; [apply In_range; assumption |].
    apply in_map_iff. exists (snd p). split; [destruct p; reflexivity |].
    apply In_range; assumption.
Qed.

Lemma StronglySorted_app {A} (R : A -> A -> Prop) (l1 l2 : list A) :
  StronglySorted R l1 -> StronglySorted R l2 ->
  (forall x y, In x l1 -> In y l2 -> R x y) ->
  StronglySorted R (l1 ++ l2).
Proof.
  intros H1 H2 H. induction H1 as [|a l Hl IH Ha]; simpl; [assumption |].
  constructor.
  - apply IH. intros x y Hx Hy. apply H; [right |]; assumption.
  - apply Forall_app. split; [assumption |].
    apply Forall_forall. intros y Hy. apply H; [left; reflexivity | assumption].
Qed.

Lemma StronglySorted_filter {A} (R : A -> A -> Prop) (f : A -> bool)
    (l : list A) :
  StronglySorted R l -> StronglySorted R (filter f l).
Proof.
  induction 1 as [|a l Hl IH Ha]; simpl; [constructor |].
  destruct (f a); [| assumption]. constructor; [assumption |].
  rewrite Forall_forall in *. intros x Hx. apply Ha.
  apply filter_In in Hx. tauto.
Qed.

Lemma range_sorted (n : Z) : StronglySorted Z.lt (range n).
Proof.
  unfold range. generalize 0%nat as s.
  induction (Z.to_nat n) as [|k IH]; intros s; simpl; constructor.
  - apply IH.
  - apply Forall_forall. intros x Hx. apply in_map_iff in Hx.
    destruct Hx as (j & <- & Hj). apply in_seq in Hj. lia.
Qed.

Lemma range_NoDup (n : Z) : NoDup (range n).
Proof.
  unfold range. apply Finite.Injective_map_NoDup.
  - intros x y H. lia.
  - apply seq_NoDup.
Qed.

Lemma cells_sorted (rows cols : list Z) :
  StronglySorted Z.lt rows -> StronglySorted Z.lt cols ->
  StronglySorted row_major_lt
    (flat_map (fun r => map (fun c => (r, c)) cols) rows).
Proof.
  intros Hr Hcols. induction Hr as [|r rows Hrows IH Hall].
  - constructor.
  - simpl. apply StronglySorted_app.
    + clear -Hcols. induction Hcols as [|c cs Hcs IH Hc]; simpl; constructor.
      * assumption.
      * rewrite Forall_forall in *. intros q Hq. apply in_map_iff in Hq.
        destruct Hq as (c' & <- & Hc'). right. simpl. split; auto.
    + assumption.
    + intros x y Hx Hy. apply in_map_iff in Hx. destruct Hx as (c & <- & _).
      apply in_flat_map in Hy. destruct Hy as (r' & Hr' & Hy).
      apply in_map_iff in Hy. destruct Hy as (c' & <- & _).
      left. simpl. rewrite Forall_forall in Hall. auto.
Qed.

Lemma all_cells_sorted (n : Z) : StronglySorted row_major_lt (all_cells n).
Proof. apply cells_sorted; apply range_sorted. Qed.

Lemma filter_flat_map {A B} (f : B -> bool) (g : A -> list B) (l : list A) :
  filter f (flat_map g l) = flat_map (fun x => filter f (g x)) l.
Proof.
  induction l as [|a l IH]; simpl; [reflexivity |].
  rewrite filter_app, IH. reflexivity.
Qed.

Lemma filter_map_comm {A B} (f : B -> bool) (g : A -> B) (l : list A) :
  filter f (map g l) = map g (filter (fun x => f (g x)) l).
Proof.
  induction l as [|a l IH]; simpl; [reflexivity |].
  rewrite IH. destruct (f (g a)); reflexivity.
Qed.

(** ** Groups *)

Lemma get_neighbors_eq (b : GoBoard) (r c : Z) :
  get_neighbors b r c =
  filter (fun p => is_valid_position b (fst p) (snd p))
    [(r + 0, c + 1); (r + 1, c + 0); (r + 0, c + -1); (r + -1, c + 0)].
Proof.
  unfold get_neighbors, directions. cbn [fold_left filter fst snd].
  destruct (is_valid_position b (r + 0) (c + 1)),
           (is_valid_position b (r + 1) (c + 0)),
           (is_valid_position b (r + 0) (c + -1)),
           (is_valid_position b (r + -1) (c + 0)); reflexivity.
Qed.

Lemma get_neighbors_in_range (b : GoBoard) (r c : Z) (n : pos) :
  In n (get_neighbors b r c) -> in_range (size b) n.
Proof.
  rewrite get_neighbors_eq, filter_In. intros [_ H].
  apply is_valid_position_iff in H. destruct n; exact H.
Qed.

Lemma get_neighbors_iff (b : GoBoard) (r c : Z) (q : pos) :
  In q (get_neighbors b r c) <->
  in_range (size b) q /\ Z.abs (fst q - r) + Z.abs (snd q - c) = 1.
Proof.
  rewrite get_neighbors_eq. destruct q as [qr qc].
  rewrite filter_In, is_valid_position_iff. simpl. split.
  - intros [H Hr]. split; [exact Hr |].
    repeat (destruct H as [H | H]; [injection H; lia |]). contradiction.
  - intros [Hr Hd]. split; [| exact Hr].
    assert (Hc : (qr = r + 0 /\ qc = c + 1) \/ (qr = r + 1 /\ qc = c + 0) \/
                 (qr = r + 0 /\ qc = c + -1) \/ (qr = r + -1 /\ qc = c + 0))
      by lia.
    destruct Hc as [[-> ->] | [[-> ->] | [[-> ->] | [-> ->]]]]; auto.
Qed.

(** The cells that [get_neighbors] returns are the adjacent cells. *)
Lemma adjacent_iff (b : GoBoard) (p q : pos) :
  adjacent b p q <-> In q (get_neighbors b (fst p) (snd p)).
Proof.
  unfold adjacent. rewrite get_neighbors_iff. reflexivity.
Qed.

Lemma get_neighbors_length (b : GoBoard) (r c : Z) :
  (length (get_neighbors b r c) <= 4)%nat.
Proof.
  rewrite get_neighbors_eq.
  etransitivity; [apply filter_length_le | simpl; lia].
Qed.

Lemma filter_length_lt {A} (f g : A -> bool) (l : list A) (a : A) :
  (forall x, g x = true -> f x = true) ->
  In a l -> f a = true -> g a = false ->
  (length (filter g l) < length (filter f l))%nat.
Proof.
  intros Himp Hin Hf Hg.
  assert (Hle : forall l', (length (filter g l') <= length (filter f l'))%nat).
  { induction l' as [|x l' IH]; simpl; [lia |].
    destruct (g x) eqn:Eg.
    - rewrite (Himp x Eg). simpl. lia.
    - destruct (f x); simpl; lia. }
  induction l as [|x l IH]; simpl; [contradiction |].
  destruct Hin as [-> | Hin].
  - rewrite Hf, Hg. simpl. specialize (Hle l). lia.
  - specialize (IH Hin). destruct (g x) eqn:Eg.
    + rewrite (Himp x Eg). simpl. lia.
    + destruct (f x); simpl; lia.
Qed.

Lemma uncovered_add (n : Z) (p : pos) (group : list pos) :
  in_range n p -> ~ In p group ->
  (uncovered n (p :: group) < uncovered n group)%nat.
Proof.
  intros Hr Hn. unfold uncovered.
  apply filter_length_lt with (a := p).
  - intros x. rewrite !negb_true_iff, !mem_false. simpl. tauto.
  - apply In_all_cells; assumption.
  - apply negb_true_iff, mem_false; assumption.
  - apply negb_false_iff, mem_In. left; reflexivity.
Qed.

Lemma cells_length (rows cols : list Z) :
  length (flat_map (fun r => map (fun c => (r, c)) cols) rows) =
  (length rows * length cols)%nat.
Proof.
  induction rows as [|r rows IH]; simpl; [reflexivity |].
  rewrite length_app, length_map, IH. reflexivity.
Qed.

Lemma range_length (n : Z) : length (range n) = Z.to_nat n.
Proof. unfold range. rewrite length_map, length_seq. reflexivity. Qed.

Lemma all_cells_length (n : Z) :
  length (all_cells n) = (Z.to_nat n * Z.to_nat n)%nat.
Proof. unfold all_cells. rewrite cells_length, range_length. reflexivity. Qed.

Lemma uncovered_le (n : Z) (group : list pos) :
  (uncovered n group <= Z.to_nat n * Z.to_nat n)%nat.
Proof.
  unfold uncovered. rewrite <- all_cells_length. apply filter_length_le.
Qed.

(** The neighbours pushed on the stack by one iteration. *)
Lemma push_length (b : GoBoard) (color : Z) (group ns stack : list pos) :
  (length (push_neighbors b color group ns stack)
   <= length stack + length ns)%nat.
Proof.
  unfold push_neighbors.
  revert stack; induction ns as [|n ns IH]; intros stack; simpl; [lia |].
  destruct ((cell b (fst n) (snd n) =? color) && negb (mem n group)).
  - etransitivity; [apply IH |]. simpl. lia.
  - etransitivity; [apply IH |]. lia.
Qed.

Lemma push_In (b : GoBoard) (color : Z) (group ns stack : list pos)
    (p : pos) :
  In p (push_neighbors b color group ns stack) ->
  In p stack \/ (In p ns /\ cell b (fst p) (snd p) = color).
Proof.
  unfold push_neighbors.
  revert stack; induction ns as [|n ns IH]; intros stack; simpl; [auto |].
  intros H. apply IH in H.
  destruct (Z.eqb_spec (cell b (fst n) (snd n)) color) as [E | E];
    cbn [andb] in H.
  - destruct (negb (mem n group)).
    + destruct H as [[-> | H] | [H1 H2]]; auto.
    + destruct H as [H | [H1 H2]]; auto.
  - destruct H as [H | [H1 H2]]; auto.
Qed.

Lemma get_group_loop_terminates (b : GoBoard) (color : Z) (fuel : nat) :
  forall stack group,
    Forall (in_range (size b)) stack ->
    (length stack + 4 * uncovered (size b) group < fuel)%nat ->
    exists g, get_group_loop fuel b color stack group = Some g.
Proof.
  induction fuel as [|fuel IH]; intros stack group Hs Hm; [lia |].
  destruct stack as [|[r c] stack']; simpl; [eexists; reflexivity |].
  inversion Hs as [|x l Hp Hs']; subst.
  destruct (mem (r, c) group) eqn:Em.
  - apply IH; [assumption | simpl in Hm; lia].
  - apply IH.
    + apply Forall_forall. intros p Hp'. apply push_In in Hp'.
      destruct Hp' as [Hp' | [Hp' _]].
      * rewrite Forall_forall in Hs'. auto.
      * eapply get_neighbors_in_range; eassumption.
    + pose proof (push_length b color ((r, c) :: group)
                    (get_neighbors b r c) stack') as Hl.
      pose proof (get_neighbors_length b r c) as Hn.
      pose proof (uncovered_add (size b) (r, c) group Hp) as Hu.
      apply mem_false in Em. specialize (Hu Em). simpl in Hm.
      unfold pos in *. lia.
Qed.

Lemma get_group_loop_cons (fuel : nat) (b : GoBoard) (color r c : Z)
    (stack group : list pos) :
  get_group_loop (S fuel) b color ((r, c) :: stack) group =
  if mem (r, c) group then get_group_loop fuel b color stack group
  else get_group_loop fuel b color
         (push_neighbors b color ((r, c) :: group) (get_neighbors b r c) stack)
         ((r, c) :: group).
Proof. reflexivity. Qed.

(** The loop of [get_group] ends within the bound that [get_group] gives
    it, whatever the board and the seed. *)
Lemma get_group_total (b : GoBoard) (row col : Z) :
  exists g,
    get_group_loop (group_fuel b) b (cell b row col) [(row, col)] [] = Some g.
Proof.
  replace (group_fuel b)
    with (S (4 * (Z.to_nat (size b) * Z.to_nat (size b)) + 5))
    by (unfold group_fuel; lia).
  rewrite get_group_loop_cons. change (mem (row, col) []) with false.
  cbv iota. apply get_group_loop_terminates.
  - apply Forall_forall. intros p Hp. apply push_In in Hp.
    destruct Hp as [[] | [Hp _]].
    eapply get_neighbors_in_range; eassumption.
  - pose proof (push_length b (cell b row col) [(row, col)]
                  (get_neighbors b row col) []) as Hl.
    pose proof (get_neighbors_length b row col) as Hn.
    pose proof (uncovered_le (size b) [(row, col)]) as Hu.
    simpl in Hl. unfold pos in *. lia.
Qed.

Lemma get_group_loop_inv (b : GoBoard) (color : Z) (fuel : nat) :
  forall stack group g,
    (forall p, In p stack ->
               in_range (size b) p /\ cell b (fst p) (snd p) = color) ->
    NoDup group ->
    (forall p, In p group ->
               in_range (size b) p /\ cell b (fst p) (snd p) = color) ->
    get_group_loop fuel b color stack group = Some g ->
    NoDup g /\
    (forall p, In p g ->
               in_range (size b) p /\ cell b (fst p) (snd p) = color).
Proof.
  induction fuel as [|fuel IH]; intros stack group g Hs Hnd Hg; simpl;
    [discriminate |].
  destruct stack as [|[r c] stack'].
  - intros [= <-]. auto.
  - destruct (mem (r, c) group) eqn:Em.
    + apply IH; auto. intros p Hp. apply Hs. right; assumption.
    + apply IH.
      * intros p Hp. apply push_In in Hp. destruct Hp as [Hp | [Hp Hc]].
        -- apply Hs. right; assumption.
        -- split; [eapply get_neighbors_in_range; eassumption | assumption].
      * constructor; [apply mem_false; assumption | assumption].
      * intros p [<- | Hp]; [apply Hs; left; reflexivity | auto].
Qed.

(** What the later proofs use of a group: its members are distinct cells
    of the board that hold the (non-empty) colour of the seed. *)
Lemma get_group_spec (b : GoBoard) (row col : Z) :
  in_range (size b) (row, col) ->
  NoDup (get_group b row col) /\
  (forall p, In p (get_group b row col) ->
             in_range (size b) p /\
             cell b (fst p) (snd p) = cell b row col /\
             cell b row col <> 0).
Proof.
  intros Hr. unfold get_group.
  destruct (Z.eqb_spec (cell b row col) 0) as [E | E].
  - split; [constructor | intros p []].
  - destruct (get_group_loop (group_fuel b) b (cell b row col) [(row, col)] [])
      as [g|] eqn:Eg.
    + apply get_group_loop_inv in Eg.
      * destruct Eg as [Hnd Hg]. split; [assumption |].
        intros p Hp. destruct (Hg p Hp). auto.
      * intros p [<- | []]. auto.
      * constructor.
      * intros p [].
    + split; [constructor | intros p []].
Qed.

(** *** A group is the connected component of its seed *)

Lemma push_keeps (b : GoBoard) (color : Z) (group ns stack : list pos)
    (x : pos) :
  In x stack -> In x (push_neighbors b color group ns stack).
Proof.
  unfold push_neighbors.
  revert stack; induction ns as [|n ns IH]; intros stack H; simpl; [exact H |].
  apply IH. destruct ((cell b (fst n) (snd n) =? color) && negb (mem n group));
    [right |]; assumption.
Qed.

Lemma push_adds (b : GoBoard) (color : Z) (group ns stack : list pos)
    (x : pos) :
  In x ns -> cell_at b x = color -> ~ In x group ->
  In x (push_neighbors b color group ns stack).
Proof.
  intros Hin Hc Hg. unfold push_neighbors.
  revert stack; induction ns as [|n ns IH]; intros stack; simpl;
    [contradiction |].
  destruct Hin as [-> | Hin]; [| apply IH; assumption].
  apply mem_false in Hg. unfold cell_at in Hc. rewrite Hg, Hc, Z.eqb_refl.
  apply (push_keeps b color group ns). left; reflexivity.
Qed.

Lemma get_group_loop_connected (b : GoBoard) (color : Z) (seed : pos)
    (fuel : nat) :
  forall stack group g,
    (forall x, In x stack -> connected b color seed x) ->
    (forall x, In x group -> connected b color seed x) ->
    get_group_loop fuel b color stack group = Some g ->
    forall x, In x g -> connected b color seed x.
Proof.
  induction fuel as [|fuel IH]; intros stack group g Hs Hg; simpl;
    [discriminate |].
  destruct stack as [|[r c] stack'].
  - intros [= <-]. exact Hg.
  - assert (Hp : connected b color seed (r, c)) by (apply Hs; left; reflexivity).
    destruct (mem (r, c) group).
    + apply IH; [| exact Hg]. intros x Hx. apply Hs. right; assumption.
    + apply IH.
      * intros x Hx. apply push_In in Hx. destruct Hx as [Hx | [Hx Hc]].
        -- apply Hs. right; assumption.
        -- apply (connected_step b color seed (r, c) x Hp);
             [apply (adjacent_iff b (r, c) x); exact Hx | exact Hc].
      * intros x [<- | Hx]; [exact Hp | apply Hg; assumption].
Qed.

Lemma get_group_loop_closed (b : GoBoard) (color : Z) (seed : pos)
    (fuel : nat) :
  forall stack group g,
    get_group_loop fuel b color stack group = Some g ->
    In seed group \/ In seed stack ->
    (forall q n, In q group -> adjacent b q n -> cell_at b n = color ->
                 In n group \/ In n stack) ->
    In seed g /\
    (forall q n, In q g -> adjacent b q n -> cell_at b n = color -> In n g).
Proof.
  induction fuel as [|fuel IH]; intros stack group g; simpl; [discriminate |].
  destruct stack as [|[r c] stack'].
  - intros [= <-] Hseed Hcl. split.
    + destruct Hseed as [H | []]; exact H.
    + intros q n Hq Ha Hc. destruct (Hcl q n Hq Ha Hc) as [H | []]; exact H.
  - destruct (mem (r, c) group) eqn:Em.
    + apply mem_In in Em. intros Hg Hseed Hcl. apply (IH _ _ _ Hg).
      * destruct Hseed as [H | [<- | H]]; auto.
      * intros q n Hq Ha Hc. destruct (Hcl q n Hq Ha Hc) as [H | [<- | H]]; auto.
    + apply mem_false in Em. intros Hg Hseed Hcl. apply (IH _ _ _ Hg).
      * destruct Hseed as [H | [<- | H]].
        -- left; right; assumption.
        -- left; left; reflexivity.
        -- right. apply push_keeps; assumption.
      * intros q n [<- | Hq] Ha Hc.
        -- destruct (in_dec pos_eq_dec n ((r, c) :: group)) as [Hin | Hnin];
             [left; assumption | right].
           apply (adjacent_iff b (r, c) n) in Ha.
           apply push_adds; assumption.
        -- destruct (Hcl q n Hq Ha Hc) as [H | [<- | H]].
           ++ left; right; assumption.
           ++ left; left; reflexivity.
           ++ right. apply push_keeps; assumption.
Qed.

(** [get_group] returns exactly the stones of the colour of the seed that
    are connected to it, and nothing on an empty cell. *)
Lemma get_group_correct (b : GoBoard) (r c : Z) (q : pos) :
  In q (get_group b r c) <-> in_group b (r, c) q.
Proof.
  unfold get_group, in_group, cell_at. cbn [fst snd].
  destruct (Z.eqb_spec (cell b r c) 0) as [E | E].
  - split; [intros [] | intros [H _]; contradiction].
  - destruct (get_group_total b r c) as [g Hg]. rewrite Hg. split.
    + intros Hq. split; [assumption |].
      apply (get_group_loop_connected b (cell b r c) (r, c) _ _ _ g) with (x := q)
        in Hg; auto.
      * intros x [<- | []]. constructor.
      * intros x [].
    + intros [_ Hq].
      apply (get_group_loop_closed b (cell b r c) (r, c)) in Hg.
      * destruct Hg as [Hseed Hcl].
        induction Hq as [|q' n Hq' IH Ha Hc]; [assumption |].
        apply (Hcl q' n); assumption.
      * right; left; reflexivity.
      * intros q' n [].
Qed.

(** *** Liberties *)

Lemma set_add_NoDup (p : pos) (s : list pos) : NoDup s -> NoDup (set_add p s).
Proof.
  intros H. unfold set_add. destruct (mem p s) eqn:E; [assumption |].
  constructor; [apply mem_false; assumption | assumption].
Qed.

Lemma set_add_In (p x : pos) (s : list pos) :
  In x (set_add p s) <-> x = p \/ In x s.
Proof.
  unfold set_add. destruct (mem p s) eqn:E.
  - apply mem_In in E. split; [auto | intros [-> | H]; assumption].
  - simpl. split; intros [H | H]; auto.
Qed.

Lemma liberty_set_neighbors (b : GoBoard) (ns : list pos) :
  forall libs,
    NoDup libs ->
    NoDup (fold_left
             (fun libs n =>
                if cell b (fst n) (snd n) =? 0 then set_add n libs else libs)
             ns libs) /\
    (forall x,
       In x (fold_left
               (fun libs n =>
                  if cell b (fst n) (snd n) =? 0 then set_add n libs else libs)
               ns libs) <->
       In x libs \/ (In x ns /\ cell_at b x = 0)).
Proof.
  induction ns as [|n ns IH]; intros libs Hnd; simpl.
  - split; [assumption | intros x; tauto].
  - destruct (Z.eqb_spec (cell b (fst n) (snd n)) 0) as [E | E].
    + destruct (IH (set_add n libs) (set_add_NoDup n libs Hnd)) as [H1 H2].
      split; [assumption |]. intros x. rewrite H2, set_add_In.
      unfold cell_at. split.
      * intros [[-> | H] | [H H']]; auto.
      * intros [H | [[<- | H] H']]; auto.
    + destruct (IH libs Hnd) as [H1 H2].
      split; [assumption |]. intros x. rewrite H2. unfold cell_at. split.
      * intros [H | [H H']]; auto.
      * intros [H | [[<- | H] H']]; auto. contradiction.
Qed.

Lemma liberty_set_groups (b : GoBoard) (group : list pos) :
  forall libs,
    NoDup libs ->
    NoDup (fold_left
             (fun libs p =>
                fold_left
                  (fun libs n =>
                     if cell b (fst n) (snd n) =? 0 then set_add n libs
                     else libs)
                  (get_neighbors b (fst p) (snd p)) libs)
             group libs) /\
    (forall x,
       In x (fold_left
               (fun libs p =>
                  fold_left
                    (fun libs n =>
                       if cell b (fst n) (snd n) =? 0 then set_add n libs
                       else libs)
                    (get_neighbors b (fst p) (snd p)) libs)
               group libs) <->
       In x libs \/
       (cell_at b x = 0 /\ exists p, In p group /\ adjacent b p x)).
Proof.
  induction group as [|p group IH]; intros libs Hnd; simpl.
  - split; [assumption |]. intros x. split; [auto |].
    intros [H | (_ & p & [] & _)]; assumption.
  - destruct (liberty_set_neighbors b (get_neighbors b (fst p) (snd p))
                libs Hnd) as [N1 N2].
    destruct (IH _ N1) as [H1 H2]. split; [assumption |].
    intros x. rewrite H2, N2. split.
    + intros [[H | [H H']] | (H & q & Hq & Hq')].
      * left; exact H.
      * right. split; [exact H' |]. exists p.
        split; [left; reflexivity | apply adjacent_iff; exact H].
      * right. split; [exact H |]. exists q.
        split; [right; exact Hq | exact Hq'].
    + intros [H | (H & q & [<- | Hq] & Hq')].
      * left; left; exact H.
      * left; right. split; [apply adjacent_iff; exact Hq' | exact H].
      * right. split; [exact H |]. exists q. split; assumption.
Qed.

(** The set built by [count_liberties] on a group holds, once each, the
    empty cells adjacent to a stone of the group. *)
Lemma liberty_set_spec (b : GoBoard) (r c : Z) :
  NoDup (liberty_set b (get_group b r c)) /\
  (forall n, In n (liberty_set b (get_group b r c)) <->
             liberty_of b (r, c) n).
Proof.
  destruct (liberty_set_groups b (get_group b r c) [] (NoDup_nil _))
    as [H1 H2].
  split; [exact H1 |]. intros n. unfold liberty_set. rewrite H2.
  unfold liberty_of. split.
  - intros [[] | (H & p & Hp & Ha)]. split; [assumption |].
    exists p. split; [apply get_group_correct |]; assumption.
  - intros (H & p & Hp & Ha). right. split; [assumption |].
    exists p. split; [apply get_group_correct |]; assumption.
Qed.

Lemma count_liberties_zero (b : GoBoard) (r c : Z) :
  count_liberties b (get_group b r c) = 0 <-> no_liberty b (r, c).
Proof.
  destruct (liberty_set_spec b r c) as [_ H]. unfold count_liberties, no_liberty.
  split.
  - intros E n Hn. apply H in Hn.
    destruct (liberty_set b (get_group b r c)); [contradiction | discriminate].
  - intros Hno. destruct (liberty_set b (get_group b r c)) as [|n l];
      [reflexivity |].
    exfalso. apply (Hno n), H. left; reflexivity.
Qed.

(** ** Legality *)

Lemma capture_scan_true (b : GoBoard) (opp : Z) (ns : list pos) :
  capture_scan b opp ns = true <->
  exists n, In n ns /\ cell b (fst n) (snd n) = opp /\
            count_liberties b (get_group b (fst n) (snd n)) = 0.
Proof.
  induction ns as [|n ns IH]; simpl.
  - split; [discriminate | intros (n & [] & _)].
  - destruct (Z.eqb_spec (cell b (fst n) (snd n)) opp) as [E | E].
    + destruct (Z.eqb_spec (count_liberties b (get_group b (fst n) (snd n))) 0)
        as [L | L].
      * split; [intros _; exists n; auto | reflexivity].
      * rewrite IH; split.
        -- intros (m & Hm & H); exists m; auto.
        -- intros (m & [-> | Hm] & H1 & H2); [contradiction | exists m; auto].
    + rewrite IH; split.
      * intros (m & Hm & H); exists m; auto.
      * intros (m & [-> | Hm] & H1 & H2); [contradiction | exists m; auto].
Qed.

Lemma would_be_suicide_board (b : GoBoard) (r c color : Z) :
  cell b r c = 0 -> snd (would_be_suicide b r c color) = b.
Proof.
  intros H; unfold would_be_suicide; cbn [snd].
  apply set_cell_restore; assumption.
Qed.

Lemma is_valid_move_board (b : GoBoard) (r c : Z) :
  snd (is_valid_move b r c) = b.
Proof.
  unfold is_valid_move.
  destruct (Z.eqb_spec (cell b r c) 0) as [E | E]; cbn [negb]; [| reflexivity].
  destruct (ko_is (ko_position b) r c); [reflexivity |].
  pose proof (would_be_suicide_board b r c (current_player b) E) as Hs.
  destruct (would_be_suicide b r c (current_player b)) as [s b'].
  cbn [snd] in Hs; subst b'. destruct s; reflexivity.
Qed.

Lemma ko_is_true (ko : option pos) (r c : Z) :
  ko_is ko r c = true <-> ko = Some (r, c).
Proof.
  destruct ko as [p|]; cbn [ko_is].
  - destruct (pos_eqb_spec p (r, c)) as [-> | Hne].
    + split; reflexivity.
    + split; [discriminate | intros [= E]; contradiction].
  - split; discriminate.
Qed.

Lemma would_be_suicide_spec (b : GoBoard) (r c : Z) :
  fst (would_be_suicide b r c (current_player b)) = true <-> suicide_at b r c.
Proof.
  unfold would_be_suicide, suicide_at, captures_at, placed; cbn [fst].
  rewrite andb_true_iff, negb_true_iff, Z.eqb_eq.
  rewrite <- not_true_iff_false, capture_scan_true, count_liberties_zero.
  apply and_iff_compat_l, not_iff_compat.
  split; intros ([nr nc] & H1 & H2 & H3); exists (nr, nc);
    (split;
     [apply (adjacent_iff (set_cell b r c (current_player b)) (r, c) (nr, nc));
      exact H1
     | split; [exact H2 |]]);
    apply (count_liberties_zero _ nr nc); exact H3.
Qed.

Lemma captures_at_scan (b : GoBoard) (r c : Z) :
  captures_at b r c <->
  capture_scan (placed b r c) (3 - current_player b)
    (get_neighbors (placed b r c) r c) = true.
Proof.
  unfold captures_at, placed. rewrite capture_scan_true.
  split; intros ([nr nc] & H1 & H2 & H3); exists (nr, nc);
    (split;
     [apply (adjacent_iff (set_cell b r c (current_player b)) (r, c) (nr, nc));
      exact H1
     | split; [exact H2 |]]);
    apply (count_liberties_zero _ nr nc); exact H3.
Qed.

Lemma is_valid_move_true (b : GoBoard) (r c : Z) :
  fst (is_valid_move b r c) = true <->
  cell b r c = 0 /\ ko_position b <> Some (r, c) /\ ~ suicide_at b r c.
Proof.
  rewrite <- would_be_suicide_spec, <- ko_is_true. unfold is_valid_move.
  destruct (Z.eqb_spec (cell b r c) 0) as [E | E]; cbn [negb fst].
  - destruct (ko_is (ko_position b) r c); cbn [fst].
    + split; [discriminate | intros (_ & H & _); congruence].
    + destruct (would_be_suicide b r c (current_player b)) as [[|] b'];
        cbn [fst].
      * split; [discriminate | intros (_ & _ & H); congruence].
      * split; [intros _; repeat split; congruence | reflexivity].
  - split; [discriminate | intros (H & _); contradiction].
Qed.

Lemma is_valid_move_pair (b : GoBoard) (r c : Z) :
  is_valid_move b r c = (fst (is_valid_move b r c), b).
Proof.
  rewrite <- (is_valid_move_board b r c) at 3.
  destruct (is_valid_move b r c); reflexivity.
Qed.

(** C2. On an in-range cell, [is_valid_move] answers true exactly when the
    cell is empty, is not the ko point and the placement is not suicide,
    where the placement is suicide when, with the stone placed, the group
    of the placed stone (the stones of its colour connected to it) has no
    liberty (no adjacent empty cell) and no adjacent opposing stone
    belongs to a group without liberty; on an empty cell other than the
    ko point a capturing placement is legal whatever the liberties of the
    placed stone; and the test returns the board object as it received
    it. *)
Theorem is_valid_move_correct (b : GoBoard) (r c : Z) :
  is_valid_position b r c = true ->
  (fst (is_valid_move b r c) = true <->
   cell b r c = 0 /\ ko_position b <> Some (r, c) /\ ~ suicide_at b r c) /\
  (cell b r c = 0 -> ko_position b <> Some (r, c) -> captures_at b r c ->
   fst (is_valid_move b r c) = true) /\
  snd (is_valid_move b r c) = b.
Proof.
  intros _. split; [apply is_valid_move_true | split].
  - intros H0 Hko Hcap. apply is_valid_move_true.
    repeat split; try assumption. intros [_ Hn]; contradiction.
  - apply is_valid_move_board.
Qed.

Lemma is_valid_move_correct_witness :
  is_valid_position ko_board 1 0 = true /\
  no_liberty (placed ko_board 1 0) (1, 0) /\
  captures_at ko_board 1 0 /\
  fst (is_valid_move ko_board 1 0) = true /\
  snd (is_valid_move ko_board 1 0) = ko_board.
Proof.
  assert (Hr : is_valid_position ko_board 1 0 = true)
    by (vm_compute; reflexivity).
  assert (Hn : no_liberty (placed ko_board 1 0) (1, 0))
    by (apply (count_liberties_zero _ 1 0); vm_compute; reflexivity).
  assert (Hc : captures_at ko_board 1 0)
    by (apply captures_at_scan; vm_compute; reflexivity).
  destruct (is_valid_move_correct ko_board 1 0 Hr) as (_ & H2 & H3).
  split; [exact Hr | split; [exact Hn | split; [exact Hc | split]]].
  - apply H2; [vm_compute; reflexivity | vm_compute; discriminate | exact Hc].
  - exact H3.
Defined.

(** ** Applying and undoing a move *)

Lemma make_move_illegal (b : GoBoard) (r c : Z) :
  fst (is_valid_move b r c) = false -> make_move b r c = (false, b).
Proof.
  intros H. unfold make_move. rewrite is_valid_move_pair, H. reflexivity.
Qed.

(** C4. When [is_valid_move] is false on an in-range cell, [make_move]
    returns false together with the very object it was given, every field
    unchanged; trying the same coordinates again gives the same answer. *)
Theorem make_move_rejects_unchanged (b : GoBoard) (r c : Z) :
  is_valid_position b r c = true ->
  fst (is_valid_move b r c) = false ->
  make_move b r c = (false, b) /\
  make_move (snd (make_move b r c)) r c = (false, b).
Proof.
  intros _ H. rewrite (make_move_illegal b r c H). cbn [snd].
  split; [reflexivity | apply make_move_illegal; assumption].
Qed.

Lemma make_move_legal (b : GoBoard) (r c : Z) :
  fst (is_valid_move b r c) = true ->
  let opp := 3 - current_player b in
  let res := remove_captured_stones (set_cell b r c (current_player b)) opp in
  make_move b r c =
  (true,
   {| size := size b;
      board := board (snd res);
      previous_board := Some (board b);
      current_player := 3 - current_player b;
      captured_black := if current_player b =? 1 then captured_black b
                        else captured_black b + fst res;
      captured_white := if current_player b =? 1
                        then captured_white b + fst res
                        else captured_white b;
      move_history := move_history b ++ [(r, c, current_player b)];
      ko_position := if fst res =? 1
                     then find_ko (size b) (board b) (board (snd res)) opp
                            (ko_position b)
                     else None |}).
Proof.
  intros H opp res. unfold make_move. rewrite is_valid_move_pair, H.
  cbn [negb]. fold opp. fold res. destruct res as [captured b2]. reflexivity.
Qed.

(** C3. After a legal move on an in-range cell, [undo_move] succeeds and
    gives back the cells, the player to move and the history (hence its
    length) that the board had before the move. *)
Theorem make_move_undo_roundtrip (b : GoBoard) (r c : Z) :
  is_valid_position b r c = true ->
  fst (is_valid_move b r c) = true ->
  fst (make_move b r c) = true /\
  fst (undo_move (snd (make_move b r c))) = true /\
  board (snd (undo_move (snd (make_move b r c)))) = board b /\
  current_player (snd (undo_move (snd (make_move b r c)))) = current_player b /\
  move_history (snd (undo_move (snd (make_move b r c)))) = move_history b /\
  length (move_history (snd (undo_move (snd (make_move b r c))))) =
  length (move_history b).
Proof.
  intros _ H. rewrite (make_move_legal b r c H). cbn [fst snd].
  unfold undo_move. cbn [move_history previous_board].
  destruct (move_history b ++ [(r, c, current_player b)]) as [|m h] eqn:E.
  - destruct (move_history b); discriminate.
  - cbn [fst snd board current_player move_history size].
    rewrite <- E, removelast_last.
    repeat split. lia.
Qed.

Lemma make_move_rejects_unchanged_witness :
  let b := snd (make_move (new_board 7) 3 3) in
  make_move b 3 3 = (false, b) /\
  make_move (snd (make_move b 3 3)) 3 3 = (false, b).
Proof.
  intros b.
  apply (make_move_rejects_unchanged b 3 3); vm_compute; reflexivity.
Defined.

Lemma make_move_undo_roundtrip_witness :
  fst (make_move (new_board 7) 3 3) = true /\
  fst (undo_move (snd (make_move (new_board 7) 3 3))) = true /\
  board (snd (undo_move (snd (make_move (new_board 7) 3 3)))) =
  board (new_board 7).
Proof.
  pose proof (make_move_undo_roundtrip (new_board 7) 3 3) as H.
  destruct H as (H1 & H2 & H3 & _); [reflexivity | vm_compute; reflexivity |].
  repeat split; assumption.
Defined.

(** ** Enumeration of the legal moves *)

Lemma get_valid_moves_row (b : GoBoard) (row : Z) (cols : list Z)
    (vm : list pos) :
  fold_left
    (fun st col =>
       let '(valid_moves, b) := st in
       let '(ok, b') := is_valid_move b row col in
       if ok then (valid_moves ++ [(row, col)], b') else (valid_moves, b'))
    cols (vm, b) =
  (vm ++ map (fun c => (row, c))
           (filter (fun c => fst (is_valid_move b row c)) cols), b).
Proof.
  revert vm; induction cols as [|c cols IH]; intros vm; simpl.
  - rewrite app_nil_r. reflexivity.
  - rewrite (is_valid_move_pair b row c).
    destruct (fst (is_valid_move b row c)); cbn [fst]; rewrite IH.
    + simpl. rewrite <- app_assoc. reflexivity.
    + reflexivity.
Qed.

Lemma get_valid_moves_rows (b : GoBoard) (rows cols : list Z)
    (vm : list pos) :
  fold_left
    (fun st row =>
       fold_left
         (fun st col =>
            let '(valid_moves, b) := st in
            let '(ok, b') := is_valid_move b row col in
            if ok then (valid_moves ++ [(row, col)], b') else (valid_moves, b'))
         cols st)
    rows (vm, b) =
  (vm ++ flat_map
           (fun r => map (fun c => (r, c))
                       (filter (fun c => fst (is_valid_move b r c)) cols))
           rows, b).
Proof.
  revert vm; induction rows as [|r rows IH]; intros vm; simpl.
  - rewrite app_nil_r. reflexivity.
  - rewrite get_valid_moves_row, IH, app_assoc. reflexivity.
Qed.

Lemma get_valid_moves_eq (b : GoBoard) :
  get_valid_moves b =
  (filter (fun p => fst (is_valid_move b (fst p) (snd p)))
     (all_cells (size b)), b).
Proof.
  unfold get_valid_moves, all_cells.
  rewrite get_valid_moves_rows, filter_flat_map. cbn [app]. f_equal.
  apply flat_map_ext. intros r. rewrite filter_map_comm. reflexivity.
Qed.

(** C9. [get_valid_moves] returns the cells on which [is_valid_move]
    holds, in row-major order: it is the row-major enumeration of the
    board filtered by [is_valid_move]; a cell belongs to it exactly when
    it is on the board and legal; it is strictly increasing for the
    row-major order; it contains no occupied cell and not the ko point;
    and the board object is returned as it was received. *)
Theorem get_valid_moves_correct (b : GoBoard) :
  fst (get_valid_moves b) =
  filter (fun p => fst (is_valid_move b (fst p) (snd p)))
    (all_cells (size b)) /\
  (forall r c, In (r, c) (fst (get_valid_moves b)) <->
               is_valid_position b r c = true /\
               fst (is_valid_move b r c) = true) /\
  StronglySorted row_major_lt (fst (get_valid_moves b)) /\
  (forall r c, In (r, c) (fst (get_valid_moves b)) ->
               cell b r c = 0 /\ ko_position b <> Some (r, c)) /\
  snd (get_valid_moves b) = b.
Proof.
  rewrite get_valid_moves_eq. cbn [fst snd].
  assert (Hin : forall r c,
    In (r, c) (filter (fun p => fst (is_valid_move b (fst p) (snd p)))
                 (all_cells (size b))) <->
    is_valid_position b r c = true /\ fst (is_valid_move b r c) = true).
  { intros r c. rewrite filter_In, In_all_cells, is_valid_position_iff.
    reflexivity. }
  repeat split.
  - apply Hin; assumption.
  - apply Hin; assumption.
  - apply Hin; assumption.
  - apply StronglySorted_filter, all_cells_sorted.
  - apply Hin in H. destruct H as [_ H]. apply is_valid_move_true in H. tauto.
  - apply Hin in H. destruct H as [_ H]. apply is_valid_move_true in H. tauto.
Qed.

(** ** Captures *)

Lemma cell_set_cell_eq (b : GoBoard) (r c v : Z) :
  wf_grid (size b) (board b) -> in_range (size b) (r, c) ->
  cell (set_cell b r c v) r c = v.
Proof. intros Hw Hr. unfold cell, set_cell; simpl. eapply grid_get_set_eq; eauto. Qed.

Lemma cell_set_cell_neq (b : GoBoard) (r c v : Z) (p : pos) :
  in_range (size b) (r, c) -> in_range (size b) p -> p <> (r, c) ->
  cell_at (set_cell b r c v) p = cell_at b p.
Proof.
  intros [H1 H2] [H3 H4] Hne. unfold cell_at, cell, set_cell; simpl in *.
  apply grid_get_set_neq; try lia. destruct p; simpl in *; congruence.
Qed.

Lemma cell_at_set_cell (b : GoBoard) (r c v : Z) (p : pos) :
  wf_grid (size b) (board b) -> in_range (size b) (r, c) ->
  in_range (size b) p ->
  cell_at (set_cell b r c v) p = if pos_eqb p (r, c) then v else cell_at b p.
Proof.
  intros Hw Hr Hp. destruct (pos_eqb_spec p (r, c)) as [-> | Hne].
  - apply cell_set_cell_eq; assumption.
  - apply cell_set_cell_neq; assumption.
Qed.

Lemma wf_set_cell (b : GoBoard) (r c v : Z) :
  wf_grid (size b) (board b) ->
  wf_grid (size (set_cell b r c v)) (board (set_cell b r c v)).
Proof. intros H. simpl. apply wf_grid_set; assumption. Qed.

Lemma remove_group_spec (group : list pos) :
  forall b,
    wf_grid (size b) (board b) ->
    (forall p, In p group -> in_range (size b) p) ->
    size (remove_group b group) = size b /\
    wf_grid (size b) (board (remove_group b group)) /\
    (forall p, in_range (size b) p ->
               cell_at (remove_group b group) p =
               if mem p group then 0 else cell_at b p).
Proof.
  induction group as [|q group IH]; intros b Hw Hg.
  - simpl. auto.
  - unfold remove_group in *. cbn [fold_left].
    assert (Hq : in_range (size b) (fst q, snd q)).
    { destruct q. apply Hg. left; reflexivity. }
    destruct (IH (set_cell b (fst q) (snd q) 0)) as (Hs & Hw' & Hc).
    + apply wf_set_cell; assumption.
    + intros p Hp. apply Hg. right; assumption.
    + split; [exact Hs | split; [exact Hw' |]].
      intros p Hp. rewrite (Hc p Hp).
      rewrite cell_at_set_cell by assumption.
      unfold mem at 2. cbn [existsb]. fold (mem p group).
      replace (fst q, snd q) with q by (destruct q; reflexivity).
      destruct (pos_eqb p q), (mem p group); reflexivity.
Qed.

Lemma remove_captured_step_inv (b0 : GoBoard) (opp row col : Z)
    (b : GoBoard) (checked : list pos) (count : Z) :
  in_range (size b0) (row, col) ->
  (exists L, removal b0 opp L b count) ->
  exists L,
    removal b0 opp L
      (fst (fst (remove_captured_step opp row col (b, checked, count))))
      (snd (remove_captured_step opp row col (b, checked, count))).
Proof.
  intros Hr (L & Hnd & HL & Hs & Hw & Hc & Hn).
  unfold remove_captured_step.
  assert (Hsame : removal b0 opp L b count).
  { exact (conj Hnd (conj HL (conj Hs (conj Hw (conj Hc Hn))))). }
  destruct ((cell b row col =? opp) && negb (mem (row, col) checked)) eqn:E;
    [| exists L; exact Hsame].
  apply andb_true_iff in E. destruct E as [E _]. apply Z.eqb_eq in E.
  destruct (count_liberties b (get_group b row col) =? 0);
    [| exists L; exact Hsame].
  cbn [fst snd].
  assert (Hr' : in_range (size b) (row, col)) by (rewrite Hs; exact Hr).
  destruct (get_group_spec b row col Hr') as [Gnd Gm].
  assert (Gin : forall p, In p (get_group b row col) ->
                          in_range (size b0) p /\ ~ In p L /\
                          cell_at b0 p = opp /\ opp <> 0).
  { intros p Hp. destruct (Gm p Hp) as (Hp1 & Hp2 & Hp3).
    rewrite Hs in Hp1. rewrite E in Hp2, Hp3.
    fold (cell_at b p) in Hp2. rewrite (Hc p Hp1) in Hp2.
    destruct (mem p L) eqn:Em; [congruence |].
    apply mem_false in Em. auto. }
  destruct (remove_group_spec (get_group b row col) b) as (Rs & Rw & Rc).
  { rewrite Hs; assumption. }
  { intros p Hp. rewrite Hs. apply Gin; assumption. }
  exists (get_group b row col ++ L).
  split; [| split; [| split; [| split; [| split]]]].
  - apply NoDup_app; [assumption | assumption |].
    intros p Hp HpL. destruct (Gin p Hp) as (_ & Hn' & _). contradiction.
  - intros p H. apply in_app_or in H. destruct H as [H | H].
    + destruct (Gin p H) as (H1 & _ & H2 & H3). auto.
    + apply HL; assumption.
  - congruence.
  - rewrite <- Hs. exact Rw.
  - intros p Hp. rewrite Rc by (rewrite Hs; exact Hp). rewrite (Hc p Hp).
    unfold mem. rewrite existsb_app. fold (mem p (get_group b row col)).
    fold (mem p L). destruct (mem p (get_group b row col)); reflexivity.
  - rewrite length_app, Nat2Z.inj_add. lia.
Qed.

Lemma remove_captured_cols_inv (b0 : GoBoard) (opp row : Z) (cols : list Z) :
  0 <= row < size b0 ->
  (forall c, In c cols -> 0 <= c < size b0) ->
  forall st,
    (exists L, removal b0 opp L (fst (fst st)) (snd st)) ->
    exists L,
      removal b0 opp L
        (fst (fst (fold_left
                     (fun st col => remove_captured_step opp row col st)
                     cols st)))
        (snd (fold_left (fun st col => remove_captured_step opp row col st)
                cols st)).
Proof.
  intros Hrow. induction cols as [|c cols IH]; intros Hcols st Hst; simpl.
  - exact Hst.
  - apply IH; [intros c' Hc'; apply Hcols; right; assumption |].
    destruct st as [[b checked] count].
    apply remove_captured_step_inv; [| exact Hst].
    split; simpl; [assumption | apply Hcols; left; reflexivity].
Qed.

Lemma remove_captured_rows_inv (b0 : GoBoard) (opp : Z) (rows cols : list Z) :
  (forall r, In r rows -> 0 <= r < size b0) ->
  (forall c, In c cols -> 0 <= c < size b0) ->
  forall st,
    (exists L, removal b0 opp L (fst (fst st)) (snd st)) ->
    exists L,
      removal b0 opp L
        (fst (fst (fold_left
                     (fun st row =>
                        fold_left
                          (fun st col => remove_captured_step opp row col st)
                          cols st)
                     rows st)))
        (snd (fold_left
                (fun st row =>
                   fold_left
                     (fun st col => remove_captured_step opp row col st)
                     cols st)
                rows st)).
Proof.
  intros Hrows Hcols. revert Hrows.
  induction rows as [|r rows IH]; intros Hrows st Hst; simpl.
  - exact Hst.
  - apply IH; [intros r' Hr'; apply Hrows; right; assumption |].
    apply remove_captured_cols_inv; auto. apply Hrows. left; reflexivity.
Qed.

(** [remove_captured_stones] empties a duplicate-free list of cells that
    held the opponent colour, leaves every other cell as it was, and
    returns the number of emptied cells. *)
Lemma remove_captured_stones_spec (b : GoBoard) (opp : Z) :
  wf_grid (size b) (board b) ->
  exists L,
    removal b opp L (snd (remove_captured_stones b opp))
      (fst (remove_captured_stones b opp)).
Proof.
  intros Hw. unfold remove_captured_stones.
  destruct (remove_captured_rows_inv b opp (range (size b)) (range (size b)))
    with (st := (b, @nil pos, 0)) as (L & HL).
  - intros r Hr. apply In_range; assumption.
  - intros c Hc. apply In_range; assumption.
  - exists []. unfold removal. cbn [fst snd].
    split; [constructor | split; [intros p [] | auto]].
  - exists L.
    destruct (fold_left _ (range (size b)) (b, [], 0)) as [[b' checked] n].
    exact HL.
Qed.

Lemma make_move_cells (b : GoBoard) (r c : Z) :
  wf_grid (size b) (board b) ->
  in_range (size b) (r, c) ->
  fst (is_valid_move b r c) = true ->
  exists L,
    NoDup L /\
    (forall p, In p L ->
               in_range (size b) p /\ cell_at b p = 3 - current_player b /\
               3 - current_player b <> 0 /\ p <> (r, c)) /\
    wf_grid (size b) (board (snd (make_move b r c))) /\
    (forall p, in_range (size b) p ->
               cell_at (snd (make_move b r c)) p =
               if pos_eqb p (r, c) then current_player b
               else if mem p L then 0 else cell_at b p) /\
    fst (remove_captured_stones (set_cell b r c (current_player b))
           (3 - current_player b)) = Z.of_nat (length L).
Proof.
  intros Hw Hr Hv. rewrite (make_move_legal b r c Hv). cbn [snd].
  set (b1 := set_cell b r c (current_player b)).
  destruct (remove_captured_stones_spec b1 (3 - current_player b))
    as (L & Hnd & HL & Hs & Hw' & Hc & Hn).
  { apply wf_set_cell; assumption. }
  change (size b1) with (size b) in *.
  assert (HL' : forall p, In p L ->
            in_range (size b) p /\ cell_at b p = 3 - current_player b /\
            3 - current_player b <> 0 /\ p <> (r, c)).
  { intros p Hp. destruct (HL p Hp) as (H1 & H2 & H3).
    unfold b1 in H2. rewrite cell_at_set_cell in H2 by assumption.
    destruct (pos_eqb_spec p (r, c)) as [-> | Hne]; [lia | auto]. }
  exists L. split; [assumption | split; [assumption | split; [assumption |]]].
  split; [| assumption].
  intros p Hp. unfold cell_at, cell. cbn [board].
  fold (cell (snd (remove_captured_stones b1 (3 - current_player b)))
          (fst p) (snd p)).
  fold (cell_at (snd (remove_captured_stones b1 (3 - current_player b))) p).
  rewrite (Hc p Hp). unfold b1. rewrite cell_at_set_cell by assumption.
  destruct (pos_eqb_spec p (r, c)) as [-> | Hne]; [| reflexivity].
  destruct (mem (r, c) L) eqn:Em; [| reflexivity].
  apply mem_In in Em. destruct (HL' _ Em) as (_ & _ & _ & Hne). congruence.
Qed.

(** ** Ko *)

Lemma find_ko_row_miss (prev cur : grid) (opp r : Z) (cols : list Z)
    (ko : option pos) :
  (forall c, In c cols -> ko_test prev cur opp r c = false) ->
  find_ko_row prev cur opp r cols ko = ko.
Proof.
  induction cols as [|c cols IH]; intros H; simpl; [reflexivity |].
  fold (ko_test prev cur opp r c). rewrite (H c (or_introl eq_refl)).
  apply IH. intros c' Hc'. apply H. right; assumption.
Qed.

Lemma find_ko_row_hit (prev cur : grid) (opp r c0 : Z) (cols : list Z)
    (ko : option pos) :
  In c0 cols ->
  ko_test prev cur opp r c0 = true ->
  (forall c, In c cols -> ko_test prev cur opp r c = true -> c = c0) ->
  find_ko_row prev cur opp r cols ko = Some (r, c0).
Proof.
  induction cols as [|c cols IH]; intros Hin H0 Hu; simpl; [contradiction |].
  fold (ko_test prev cur opp r c).
  destruct (ko_test prev cur opp r c) eqn:E.
  - rewrite (Hu c (or_introl eq_refl) E). reflexivity.
  - destruct Hin as [-> | Hin]; [congruence |].
    apply IH; auto. intros c' Hc'. apply Hu. right; assumption.
Qed.

(** When exactly one cell of the board passes the test, the search ends
    with that cell, whatever the former ko point. *)
Lemma find_ko_unique (n : Z) (prev cur : grid) (opp : Z) (ko : option pos)
    (k : pos) :
  in_range n k ->
  ko_test prev cur opp (fst k) (snd k) = true ->
  (forall p, in_range n p -> ko_test prev cur opp (fst p) (snd p) = true ->
             p = k) ->
  find_ko n prev cur opp ko = Some k.
Proof.
  intros Hk Ht Hu. unfold find_ko.
  assert (Hgen : forall rows ko,
            (forall r, In r rows -> 0 <= r < n) ->
            In (fst k) rows \/ ko = Some k ->
            fold_left
              (fun ko r => find_ko_row prev cur opp r (range n) ko) rows ko
            = Some k).
  { induction rows as [|r rows IH]; intros ko0 Hrows Hor; simpl.
    - destruct Hor as [[] | ->]. reflexivity.
    - assert (Hrows' : forall r', In r' rows -> 0 <= r' < n).
      { intros r' Hr'. apply Hrows. right; assumption. }
      destruct (Z.eq_dec r (fst k)) as [-> | Hne].
      + rewrite (find_ko_row_hit prev cur opp (fst k) (snd k)).
        * apply IH; [assumption | right; destruct k; reflexivity].
        * apply In_range. apply Hk.
        * assumption.
        * intros c Hc Hc'. apply In_range in Hc.
          assert (E : (fst k, c) = k).
          { apply Hu; [split; simpl; [apply Hk | assumption] | assumption]. }
          rewrite <- E. reflexivity.
      + rewrite find_ko_row_miss.
        * apply IH; [assumption |]. destruct Hor as [[E | H] | H]; auto.
          contradiction.
        * intros c Hc. apply In_range in Hc.
          destruct (ko_test prev cur opp r c) eqn:E; [| reflexivity].
          assert (E' : (r, c) = k).
          { apply Hu; [split; simpl; [| assumption] | assumption].
            apply Hrows. left; reflexivity. }
          subst k. simpl in Hne. congruence. }
  apply Hgen.
  - intros r Hr. apply In_range; assumption.
  - left. apply In_range. apply Hk.
Qed.

Lemma StronglySorted_NoDup {A} (R : A -> A -> Prop) (l : list A) :
  (forall x, ~ R x x) -> StronglySorted R l -> NoDup l.
Proof.
  intros Hirr. induction 1 as [|a l Hl IH Ha]; constructor; [| assumption].
  intros Hin. rewrite Forall_forall in Ha. exact (Hirr a (Ha a Hin)).
Qed.

Lemma all_cells_NoDup (n : Z) : NoDup (all_cells n).
Proof.
  apply StronglySorted_NoDup with (R := row_major_lt).
  - intros x [H | [_ H]]; lia.
  - apply all_cells_sorted.
Qed.

Lemma In_captured_cells (b b' : GoBoard) (p : pos) :
  In p (captured_cells b b') <->
  in_range (size b) p /\ cell_at b p = 3 - current_player b /\ cell_at b' p = 0.
Proof.
  unfold captured_cells.
  rewrite filter_In, In_all_cells, andb_true_iff, !Z.eqb_eq. reflexivity.
Qed.

(** The cells emptied by a legal move are its captured stones. *)
Lemma make_move_captured (b : GoBoard) (r c : Z) (L : list pos) :
  wf_board b ->
  in_range (size b) (r, c) ->
  fst (is_valid_move b r c) = true ->
  (forall p, In p L ->
             in_range (size b) p /\ cell_at b p = 3 - current_player b /\
             3 - current_player b <> 0 /\ p <> (r, c)) ->
  (forall p, in_range (size b) p ->
             cell_at (snd (make_move b r c)) p =
             if pos_eqb p (r, c) then current_player b
             else if mem p L then 0 else cell_at b p) ->
  forall p, In p (captured_cells b (snd (make_move b r c))) <-> In p L.
Proof.
  intros [Hw Hpl] Hr Hv HL Hc p. rewrite In_captured_cells. split.
  - intros (Hp & H1 & H2). rewrite (Hc p Hp) in H2.
    destruct (pos_eqb p (r, c)); [lia |].
    destruct (mem p L) eqn:Em; [apply mem_In; assumption | lia].
  - intros Hp. destruct (HL p Hp) as (H1 & H2 & H3 & H4).
    split; [assumption | split; [assumption |]].
    rewrite (Hc p H1). destruct (pos_eqb_spec p (r, c)); [contradiction |].
    apply mem_In in Hp. rewrite Hp. reflexivity.
Qed.

Lemma captured_cells_NoDup (b b' : GoBoard) : NoDup (captured_cells b b').
Proof. apply NoDup_filter, all_cells_NoDup. Qed.

(** The tally returned by [remove_captured_stones] inside a legal
    [make_move] is the number of captured stones. *)
Lemma make_move_tally (b : GoBoard) (r c : Z) :
  wf_board b ->
  in_range (size b) (r, c) ->
  fst (is_valid_move b r c) = true ->
  fst (remove_captured_stones (set_cell b r c (current_player b))
         (3 - current_player b)) =
  Z.of_nat (length (captured_cells b (snd (make_move b r c)))).
Proof.
  intros Hwf Hr Hv.
  destruct (make_move_cells b r c (proj1 Hwf) Hr Hv)
    as (L & Hnd & HL & _ & Hc & Hn).
  rewrite Hn. f_equal. apply Permutation_length.
  apply NoDup_Permutation; [assumption | apply captured_cells_NoDup |].
  intros p. symmetry. apply make_move_captured; assumption.
Qed.

Lemma make_move_ko_position (b : GoBoard) (r c : Z) :
  wf_board b ->
  in_range (size b) (r, c) ->
  fst (is_valid_move b r c) = true ->
  ko_position (snd (make_move b r c)) =
  if Z.of_nat (length (captured_cells b (snd (make_move b r c)))) =? 1
  then find_ko (size b) (board b) (board (snd (make_move b r c)))
         (3 - current_player b) (ko_position b)
  else None.
Proof.
  intros Hwf Hr Hv. rewrite <- (make_move_tally b r c Hwf Hr Hv).
  rewrite (make_move_legal b r c Hv). reflexivity.
Qed.

(** C5 (as amended).  For a legal move on an in-range cell of a well-formed
    board: when exactly one opposing stone is captured, [ko_position]
    becomes the coordinate of that stone, which held the opponent colour
    before and is empty after; when the number of captured stones is not
    one, [ko_position] becomes [None]; playing on the ko point is illegal
    on the following move; and once a later successful move has cleared
    the ko point, playing on the former ko point is legal exactly when
    the cell is empty and the placement is not suicide. *)
Theorem make_move_ko_rule (b : GoBoard) (r c : Z) :
  wf_board b ->
  is_valid_position b r c = true ->
  fst (is_valid_move b r c) = true ->
  (forall k, captured_cells b (snd (make_move b r c)) = [k] ->
             ko_position (snd (make_move b r c)) = Some k /\
             cell_at b k = 3 - current_player b /\
             cell_at (snd (make_move b r c)) k = 0) /\
  (length (captured_cells b (snd (make_move b r c))) <> 1%nat ->
   ko_position (snd (make_move b r c)) = None) /\
  (forall k, ko_position (snd (make_move b r c)) = Some k ->
             fst (is_valid_move (snd (make_move b r c)) (fst k) (snd k))
             = false /\
             fst (make_move (snd (make_move b r c)) (fst k) (snd k)) = false) /\
  (forall k r2 c2,
     ko_position (snd (make_move b r c)) = Some k ->
     fst (make_move (snd (make_move b r c)) r2 c2) = true ->
     ko_position (snd (make_move (snd (make_move b r c)) r2 c2)) = None ->
     (fst (is_valid_move (snd (make_move (snd (make_move b r c)) r2 c2))
             (fst k) (snd k)) = true <->
      cell_at (snd (make_move (snd (make_move b r c)) r2 c2)) k = 0 /\
      ~ suicide_at (snd (make_move (snd (make_move b r c)) r2 c2))
          (fst k) (snd k))).
Proof.
  intros Hwf Hr Hv. apply is_valid_position_iff in Hr.
  pose proof (make_move_ko_position b r c Hwf Hr Hv) as Hko.
  set (b' := snd (make_move b r c)) in *.
  split; [| split; [| split]].
  - intros k Hk.
    assert (Hin : In k (captured_cells b b')) by (rewrite Hk; left; reflexivity).
    apply In_captured_cells in Hin. destruct Hin as (Hk1 & Hk2 & Hk3).
    split; [| split; assumption].
    rewrite Hko, Hk. cbn [length Z.of_nat Z.eqb Pos.eqb Pos.of_succ_nat].
    apply find_ko_unique.
    + assumption.
    + unfold ko_test. apply andb_true_iff. split; apply Z.eqb_eq; assumption.
    + intros p Hp Ht. unfold ko_test in Ht. apply andb_true_iff in Ht.
      destruct Ht as [H1 H2]. apply Z.eqb_eq in H1, H2.
      assert (Hin : In p (captured_cells b b')).
      { apply In_captured_cells. auto. }
      rewrite Hk in Hin. destruct Hin as [<- | []]. reflexivity.
  - intros Hn. rewrite Hko.
    destruct (Z.eqb_spec (Z.of_nat (length (captured_cells b b'))) 1); [lia |].
    reflexivity.
  - intros k Hk.
    assert (Hf : fst (is_valid_move b' (fst k) (snd k)) = false).
    { destruct (fst (is_valid_move b' (fst k) (snd k))) eqn:E; [| reflexivity].
      apply is_valid_move_true in E. destruct E as (_ & E & _).
      destruct k; contradiction. }
    split; [assumption |]. rewrite (make_move_illegal _ _ _ Hf). reflexivity.
  - intros k r2 c2 _ _ Hnone. rewrite is_valid_move_true, Hnone.
    unfold cell_at. split.
    + intros (H1 & _ & H3). auto.
    + intros (H1 & H3). repeat split; [assumption | discriminate | assumption].
Qed.

Lemma ko_board_wf : wf_board ko_board.
Proof.
  unfold wf_board, wf_grid. vm_compute.
  split; [split; [reflexivity | repeat constructor] | left; reflexivity].
Qed.

Lemma make_move_ko_rule_witness :
  ko_position (snd (make_move ko_board 1 0)) = Some (0, 0) /\
  cell_at ko_board (0, 0) = 3 - current_player ko_board /\
  cell_at (snd (make_move ko_board 1 0)) (0, 0) = 0.
Proof.
  pose proof (make_move_ko_rule ko_board 1 0) as H.
  destruct H as (H & _).
  - exact ko_board_wf.
  - vm_compute; reflexivity.
  - vm_compute; reflexivity.
  - apply H. vm_compute; reflexivity.
Defined.

(** C5, the claim as stated fails.  Black captures the single white stone
    at [(3, 3)] by playing [(3, 4)], which sets the ko point; White plays
    [(0, 2)] and Black [(6, 6)], after which the ko point is cleared; the
    play of White on the former ko point is still illegal, because the
    cell is surrounded by black stones that keep their liberties: it
    would be suicide. *)
Lemma ko_point_not_legal_again :
  fst (is_valid_move eye_board 3 4) = true /\
  captured_cells eye_board (play_moves eye_board [(3, 4)]) = [(3, 3)] /\
  ko_position (play_moves eye_board [(3, 4)]) = Some (3, 3) /\
  fst (make_move (play_moves eye_board [(3, 4)]) 0 2) = true /\
  ko_position (play_moves eye_board [(3, 4); (0, 2)]) = None /\
  fst (make_move (play_moves eye_board [(3, 4); (0, 2)]) 6 6) = true /\
  ko_position (play_moves eye_board [(3, 4); (0, 2); (6, 6)]) = None /\
  current_player (play_moves eye_board [(3, 4); (0, 2); (6, 6)]) = 2 /\
  cell (play_moves eye_board [(3, 4); (0, 2); (6, 6)]) 3 3 = 0 /\
  fst (is_valid_move (play_moves eye_board [(3, 4); (0, 2); (6, 6)]) 3 3)
  = false.
Proof. vm_compute. repeat split; reflexivity. Qed.

(** ** Counting stones *)

Lemma count3_pointwise {A} (f1 f2 f3 g1 g2 g3 : A -> bool) (l : list A) :
  (forall x, In x l ->
     Z.b2z (f1 x) + Z.b2z (f2 x) + Z.b2z (f3 x) =
     Z.b2z (g1 x) + Z.b2z (g2 x) + Z.b2z (g3 x)) ->
  Z.of_nat (length (filter f1 l)) + Z.of_nat (length (filter f2 l))
  + Z.of_nat (length (filter f3 l)) =
  Z.of_nat (length (filter g1 l)) + Z.of_nat (length (filter g2 l))
  + Z.of_nat (length (filter g3 l)).
Proof.
  induction l as [|x l IH]; intros H; [reflexivity |].
  specialize (IH (fun y Hy => H y (or_intror Hy))).
  specialize (H x (or_introl eq_refl)). cbn [filter].
  destruct (f1 x), (f2 x), (f3 x), (g1 x), (g2 x), (g3 x);
    cbn [length Z.b2z] in *; rewrite ?Nat2Z.inj_succ; lia.
Qed.

Lemma count_mem (L cells : list pos) :
  NoDup L -> NoDup cells -> (forall p, In p L -> In p cells) ->
  length (filter (fun p => mem p L) cells) = length L.
Proof.
  intros HL Hc Hsub. apply Permutation_length, NoDup_Permutation.
  - apply NoDup_filter; assumption.
  - assumption.
  - intros p. rewrite filter_In, mem_In. split; [tauto | auto].
Qed.

Lemma count_one (p : pos) (cells : list pos) :
  NoDup cells -> In p cells ->
  length (filter (fun q => pos_eqb q p) cells) = 1%nat.
Proof.
  intros Hc Hin.
  rewrite (filter_ext (fun q => pos_eqb q p) (fun q => mem q [p])).
  - apply (count_mem [p] cells); [repeat constructor; intros [] | assumption |].
    intros q [<- | []]. assumption.
  - intros q. unfold mem. simpl. rewrite orb_false_r. reflexivity.
Qed.

Lemma new_board_cell (n r c : Z) : cell (new_board n) r c = 0.
Proof.
  unfold cell, grid_get, new_board. cbn [board].
  destruct (nth_in_or_default (Z.to_nat r)
              (map (fun _ : Z => map (fun _ : Z => 0) (range n)) (range n)) [])
    as [Hin | ->].
  - apply in_map_iff in Hin. destruct Hin as (x & <- & _).
    destruct (nth_in_or_default (Z.to_nat c)
                (map (fun _ : Z => 0) (range n)) 0) as [Hin | ->];
      [| reflexivity].
    apply in_map_iff in Hin. destruct Hin as (y & <- & _). reflexivity.
  - destruct (Z.to_nat c); reflexivity.
Qed.

Lemma new_board_wf (n : Z) : wf_board (new_board n).
Proof.
  split; [split |]; simpl.
  - rewrite length_map. apply range_length.
  - apply Forall_forall. intros row Hin. apply in_map_iff in Hin.
    destruct Hin as (x & <- & _). rewrite length_map. apply range_length.
  - left; reflexivity.
Qed.

Lemma filter_none {A} (f : A -> bool) (l : list A) :
  (forall x, In x l -> f x = false) -> filter f l = [].
Proof.
  induction l as [|x l IH]; intros H; simpl; [reflexivity |].
  rewrite (H x (or_introl eq_refl)). apply IH.
  intros y Hy. apply H. right; assumption.
Qed.

Lemma new_board_stones (n v : Z) : v <> 0 -> stones (new_board n) v = 0.
Proof.
  intros Hv. unfold stones. rewrite filter_none; [reflexivity |].
  intros p _. unfold cell_at. rewrite new_board_cell.
  apply Z.eqb_neq. congruence.
Qed.

(** A legal move adds one to the stones on the board plus the number of
    stones it captures. *)
Lemma make_move_stones (b : GoBoard) (r c : Z) :
  wf_board b ->
  in_range (size b) (r, c) ->
  fst (is_valid_move b r c) = true ->
  stones (snd (make_move b r c)) 1 + stones (snd (make_move b r c)) 2
  + Z.of_nat (length (captured_cells b (snd (make_move b r c)))) =
  stones b 1 + stones b 2 + 1.
Proof.
  intros Hwf Hr Hv. pose proof Hwf as [Hw Hpl].
  destruct (make_move_cells b r c Hw Hr Hv) as (L & Hnd & HL & _ & Hc & Hn).
  rewrite <- (make_move_tally b r c Hwf Hr Hv), Hn.
  assert (Hsz : size (snd (make_move b r c)) = size b).
  { rewrite (make_move_legal b r c Hv). reflexivity. }
  pose proof (count3_pointwise
                (fun p => cell_at (snd (make_move b r c)) p =? 1)
                (fun p => cell_at (snd (make_move b r c)) p =? 2)
                (fun p => mem p L)
                (fun p => cell_at b p =? 1)
                (fun p => cell_at b p =? 2)
                (fun q => pos_eqb q (r, c))
                (all_cells (size b))) as Hcount.
  rewrite (count_mem L), count_one in Hcount;
    try apply all_cells_NoDup; try assumption.
  2:{ apply In_all_cells; assumption. }
  2:{ intros p Hp. apply In_all_cells. apply HL; assumption. }
  unfold stones. rewrite Hsz. apply Hcount.
  intros p Hp. apply In_all_cells in Hp.
  rewrite (Hc p Hp).
  assert (H0 : cell_at b (r, c) = 0).
  { apply is_valid_move_true in Hv. apply Hv. }
  destruct (pos_eqb_spec p (r, c)) as [-> | Hne].
  - rewrite H0. destruct (mem (r, c) L) eqn:Em.
    + apply mem_In in Em. destruct (HL _ Em) as (_ & _ & _ & Hne). congruence.
    + destruct Hpl as [-> | ->]; reflexivity.
  - destruct (mem p L) eqn:Em.
    + apply mem_In in Em. destruct (HL _ Em) as (_ & -> & _ & _).
      destruct Hpl as [-> | ->]; reflexivity.
    + simpl. lia.
Qed.

(** ** The history invariant *)

Lemma make_move_true_valid (b : GoBoard) (r c : Z) :
  fst (make_move b r c) = true -> fst (is_valid_move b r c) = true.
Proof.
  intros H. destruct (fst (is_valid_move b r c)) eqn:E; [reflexivity |].
  rewrite (make_move_illegal b r c E) in H. discriminate.
Qed.

Lemma make_move_wf (b : GoBoard) (r c : Z) :
  wf_board b ->
  in_range (size b) (r, c) ->
  fst (is_valid_move b r c) = true ->
  wf_board (snd (make_move b r c)) /\
  size (snd (make_move b r c)) = size b.
Proof.
  intros [Hw Hpl] Hr Hv.
  destruct (make_move_cells b r c Hw Hr Hv) as (L & _ & _ & Hw' & _).
  revert Hw'. rewrite (make_move_legal b r c Hv). cbn [snd board].
  intros Hw'. split; [split |]; cbn [size board current_player].
  - assumption.
  - lia.
  - reflexivity.
Qed.

Lemma make_move_counters (b : GoBoard) (r c : Z) :
  wf_board b ->
  in_range (size b) (r, c) ->
  fst (is_valid_move b r c) = true ->
  captured_black (snd (make_move b r c))
  + captured_white (snd (make_move b r c)) =
  captured_black b + captured_white b
  + Z.of_nat (length (captured_cells b (snd (make_move b r c)))) /\
  move_history (snd (make_move b r c)) =
  move_history b ++ [(r, c, current_player b)].
Proof.
  intros Hwf Hr Hv. rewrite <- (make_move_tally b r c Hwf Hr Hv).
  rewrite (make_move_legal b r c Hv).
  cbn [snd captured_black captured_white move_history].
  split; [| reflexivity].
  destruct (current_player b =? 1); lia.
Qed.

Lemma make_move_invariant (b : GoBoard) (r c : Z) :
  wf_board b ->
  in_range (size b) (r, c) ->
  fst (is_valid_move b r c) = true ->
  stones_and_captures b = Z.of_nat (length (move_history b)) ->
  stones_and_captures (snd (make_move b r c)) =
  Z.of_nat (length (move_history (snd (make_move b r c)))).
Proof.
  intros Hwf Hr Hv Hinv.
  pose proof (make_move_stones b r c Hwf Hr Hv) as Hs.
  destruct (make_move_counters b r c Hwf Hr Hv) as [Hc Hh].
  unfold stones_and_captures in *. rewrite Hh, length_app. simpl length.
  rewrite Nat2Z.inj_add. lia.
Qed.

Lemma reachable_invariant (n : Z) (b : GoBoard) :
  reachable n b ->
  wf_board b /\ stones_and_captures b = Z.of_nat (length (move_history b)).
Proof.
  induction 1 as [|b b' r c Hb [Hwf Hinv] Hpos Hmove].
  - split; [apply new_board_wf |].
    unfold stones_and_captures. rewrite !new_board_stones by lia. reflexivity.
  - apply is_valid_position_iff in Hpos.
    assert (Hv : fst (is_valid_move b r c) = true).
    { apply make_move_true_valid. rewrite Hmove. reflexivity. }
    replace b' with (snd (make_move b r c)) by (rewrite Hmove; reflexivity).
    split; [apply make_move_wf; assumption |].
    apply make_move_invariant; assumption.
Qed.

(** C6 (as amended).  In every board reached from the empty board by
    successful calls of [make_move] alone, the black stones plus the
    white stones on the board plus both capture counters equal the
    length of the move history. *)
Theorem stones_history_invariant (n : Z) (b : GoBoard) :
  reachable n b ->
  stones_and_captures b = Z.of_nat (length (move_history b)).
Proof. intros H. apply (reachable_invariant n b H). Qed.

Lemma reachable_play (n : Z) (b : GoBoard) (r c : Z) :
  reachable n b -> is_valid_position b r c = true ->
  fst (make_move b r c) = true -> reachable n (snd (make_move b r c)).
Proof.
  intros Hb Hpos Hm. apply (reachable_move n b _ r c Hb Hpos).
  rewrite <- Hm. destruct (make_move b r c); reflexivity.
Qed.

Lemma reachable_undo_play (n : Z) (b : GoBoard) (r c : Z) :
  reachable_undo n b -> is_valid_position b r c = true ->
  fst (make_move b r c) = true -> reachable_undo n (snd (make_move b r c)).
Proof.
  intros Hb Hpos Hm. apply (reachable_undo_move n b _ r c Hb Hpos).
  rewrite <- Hm. destruct (make_move b r c); reflexivity.
Qed.

Lemma reachable_undo_back (n : Z) (b : GoBoard) :
  reachable_undo n b -> fst (undo_move b) = true ->
  reachable_undo n (snd (undo_move b)).
Proof.
  intros Hb Hu. apply (reachable_undo_undo n b _ Hb).
  rewrite <- Hu. destruct (undo_move b); reflexivity.
Qed.

Ltac reach_undo :=
  lazymatch goal with
  | |- reachable_undo _ (new_board _) => apply reachable_undo_init
  | |- reachable_undo _ (snd (make_move _ _ _)) =>
      apply reachable_undo_play; [reach_undo | vm_compute; reflexivity ..]
  | |- reachable_undo _ (snd (undo_move _)) =>
      apply reachable_undo_back; [reach_undo | vm_compute; reflexivity]
  end.

Lemma stones_history_invariant_witness :
  stones_and_captures (snd (make_move (new_board 7) 3 3)) =
  Z.of_nat (length (move_history (snd (make_move (new_board 7) 3 3)))).
Proof.
  apply (stones_history_invariant 7 (snd (make_move (new_board 7) 3 3))).
  apply reachable_play;
    [apply reachable_init | vm_compute; reflexivity ..].
Defined.

(** C6, the claim as stated fails once [undo_move] is used.  First
    board: a capture, one more move, then an undo; the counters are reset
    to zero while seven moves remain in the history of a board with six
    stones.  Second board: two moves and two undos; the history is empty
    and one stone is on the board. *)
Lemma stones_history_fails_with_undo :
  reachable_undo 7
    (snd (undo_move (snd (make_move (snd (make_move ko_board 1 0)) 0 2)))) /\
  stones_and_captures
    (snd (undo_move (snd (make_move (snd (make_move ko_board 1 0)) 0 2)))) = 6 /\
  length (move_history
    (snd (undo_move (snd (make_move (snd (make_move ko_board 1 0)) 0 2)))))
  = 7%nat /\
  reachable_undo 7
    (snd (undo_move (snd (undo_move
       (snd (make_move (snd (make_move (new_board 7) 3 3)) 3 2)))))) /\
  stones_and_captures
    (snd (undo_move (snd (undo_move
       (snd (make_move (snd (make_move (new_board 7) 3 3)) 3 2)))))) = 1 /\
  length (move_history
    (snd (undo_move (snd (undo_move
       (snd (make_move (snd (make_move (new_board 7) 3 3)) 3 2)))))))
  = 0%nat.
Proof.
  split; [| split; [| split; [| split; [| split]]]].
  - unfold ko_board, play_moves. cbn [fold_left fst snd]. reach_undo.
  - vm_compute; reflexivity.
  - vm_compute; reflexivity.
  - reach_undo.
  - vm_compute; reflexivity.
  - vm_compute; reflexivity.
Qed.

(** ** Two undos in a row *)

Lemma undo_move_after (b : GoBoard) (h : list (Z * Z * Z)) (m : Z * Z * Z)
    (prev : grid) :
  move_history b = h ++ [m] ->
  previous_board b = Some prev ->
  undo_move b =
  (true,
   {| size := size b;
      board := prev;
      previous_board := Some prev;
      current_player := 3 - current_player b;
      captured_black := 0;
      captured_white := 0;
      move_history := h;
      ko_position := None |}).
Proof.
  intros Hh Hp. unfold undo_move. rewrite Hp, Hh.
  rewrite removelast_last. destruct (h ++ [m]) eqn:E; [| reflexivity].
  destruct h; discriminate.
Qed.

Lemma make_move_places (b : GoBoard) (r c : Z) :
  wf_board b ->
  in_range (size b) (r, c) ->
  fst (is_valid_move b r c) = true ->
  board (snd (make_move b r c)) <> board b.
Proof.
  intros Hwf Hr Hv Heq. pose proof Hwf as [Hw Hpl].
  destruct (make_move_cells b r c Hw Hr Hv) as (L & _ & _ & _ & Hc & _).
  specialize (Hc (r, c) Hr). rewrite pos_eqb_refl in Hc.
  assert (H0 : cell_at b (r, c) = 0).
  { apply is_valid_move_true in Hv. apply Hv. }
  unfold cell_at, cell in Hc, H0. rewrite Heq in Hc. lia.
Qed.

(** C10. After two successful moves and one successful undo, a second
    undo in a row also succeeds; it leaves the cells at the position
    reached after the first move, which is not the position from two
    moves back; the snapshot [previous_board] is neither cleared nor
    taken further back; the history loses one more entry and the player
    to move is flipped once more. *)
Theorem second_undo_keeps_cells (b0 b1 b2 : GoBoard) (r1 c1 r2 c2 : Z) :
  wf_board b0 ->
  is_valid_position b0 r1 c1 = true ->
  make_move b0 r1 c1 = (true, b1) ->
  is_valid_position b1 r2 c2 = true ->
  make_move b1 r2 c2 = (true, b2) ->
  fst (undo_move b2) = true /\
  board (snd (undo_move b2)) = board b1 /\
  move_history (snd (undo_move b2)) <> [] /\
  fst (undo_move (snd (undo_move b2))) = true /\
  board (snd (undo_move (snd (undo_move b2)))) = board b1 /\
  board (snd (undo_move (snd (undo_move b2)))) <> board b0 /\
  previous_board (snd (undo_move b2)) = previous_board b2 /\
  previous_board (snd (undo_move (snd (undo_move b2)))) = previous_board b2 /\
  previous_board b2 = Some (board b1) /\
  move_history (snd (undo_move b2)) = move_history b1 /\
  move_history (snd (undo_move (snd (undo_move b2)))) = move_history b0 /\
  current_player (snd (undo_move (snd (undo_move b2)))) =
  3 - current_player (snd (undo_move b2)) /\
  current_player (snd (undo_move (snd (undo_move b2)))) = current_player b0.
Proof.
  intros Hwf Hp1 Hm1 Hp2 Hm2.
  assert (Hv1 : fst (is_valid_move b0 r1 c1) = true).
  { apply make_move_true_valid. rewrite Hm1. reflexivity. }
  assert (Hv2 : fst (is_valid_move b1 r2 c2) = true).
  { apply make_move_true_valid. rewrite Hm2. reflexivity. }
  apply is_valid_position_iff in Hp1.
  pose proof (make_move_places b0 r1 c1 Hwf Hp1 Hv1) as Hne.
  rewrite Hm1 in Hne. cbn [snd] in Hne.
  pose proof (make_move_legal b0 r1 c1 Hv1) as E1. rewrite Hm1 in E1.
  pose proof (make_move_legal b1 r2 c2 Hv2) as E2. rewrite Hm2 in E2.
  cbv zeta in E1, E2.
  assert (Hh1 : move_history b1 = move_history b0 ++ [(r1, c1, current_player b0)]).
  { injection E1 as ->. reflexivity. }
  assert (Hc1 : current_player b1 = 3 - current_player b0).
  { injection E1 as ->. reflexivity. }
  assert (Hh2 : move_history b2 = move_history b1 ++ [(r2, c2, current_player b1)]).
  { injection E2 as ->. reflexivity. }
  assert (Hq2 : previous_board b2 = Some (board b1)).
  { injection E2 as ->. reflexivity. }
  assert (Hc2 : current_player b2 = 3 - current_player b1).
  { injection E2 as ->. reflexivity. }
  rewrite (undo_move_after b2 _ _ _ Hh2 Hq2). cbn [fst snd].
  rewrite (undo_move_after _ (move_history b0) (r1, c1, current_player b0)
             (board b1)); [| exact Hh1 | reflexivity].
  cbn [fst snd board previous_board move_history current_player].
  rewrite Hh1, Hq2, Hc2, Hc1.
  repeat split; try reflexivity; try assumption; try lia.
  destruct (move_history b0); discriminate.
Qed.

Lemma second_undo_keeps_cells_witness :
  board (snd (undo_move (snd (undo_move
     (snd (make_move (snd (make_move (new_board 7) 3 3)) 3 2)))))) =
  board (snd (make_move (new_board 7) 3 3)) /\
  move_history (snd (undo_move (snd (undo_move
     (snd (make_move (snd (make_move (new_board 7) 3 3)) 3 2)))))) = [].
Proof.
  pose proof (second_undo_keeps_cells (new_board 7)
                (snd (make_move (new_board 7) 3 3))
                (snd (make_move (snd (make_move (new_board 7) 3 3)) 3 2))
                3 3 3 2) as H.
  destruct H as (_ & _ & _ & _ & H1 & _ & _ & _ & _ & _ & H2 & _).
  - apply new_board_wf.
  - reflexivity.
  - vm_compute; reflexivity.
  - vm_compute; reflexivity.
  - vm_compute; reflexivity.
  - split; [exact H1 | exact H2].
Defined.

(** ** Score *)

Lemma get_score_row (b : GoBoard) (row : Z) (cols : list Z) (bs ws : Z) :
  fold_left
    (fun st col =>
       let '(bs, ws) := st in
       if cell b row col =? 1 then (bs + 1, ws)
       else if cell b row col =? 2 then (bs, ws + 1)
       else st)
    cols (bs, ws) =
  (bs + Z.of_nat (length (filter (fun c => cell b row c =? 1) cols)),
   ws + Z.of_nat (length (filter (fun c => cell b row c =? 2) cols))).
Proof.
  revert bs ws. induction cols as [|c cols IH]; intros bs ws;
    cbn [fold_left filter].
  - cbn [length Z.of_nat]. f_equal; lia.
  - destruct (Z.eqb_spec (cell b row c) 1) as [E | E].
    + rewrite IH. replace (cell b row c =? 2) with false
        by (rewrite E; reflexivity).
      cbn [length]. rewrite Nat2Z.inj_succ. f_equal; lia.
    + destruct (Z.eqb_spec (cell b row c) 2) as [E' | E'].
      * rewrite IH. cbn [length]. rewrite Nat2Z.inj_succ. f_equal; lia.
      * apply IH.
Qed.

Lemma get_score_rows (b : GoBoard) (rows cols : list Z) (bs ws : Z) :
  fold_left
    (fun st row =>
       fold_left
         (fun st col =>
            let '(bs, ws) := st in
            if cell b row col =? 1 then (bs + 1, ws)
            else if cell b row col =? 2 then (bs, ws + 1)
            else st)
         cols st)
    rows (bs, ws) =
  (bs + Z.of_nat
          (length (filter (fun p => cell_at b p =? 1)
                     (flat_map (fun r => map (fun c => (r, c)) cols) rows))),
   ws + Z.of_nat
          (length (filter (fun p => cell_at b p =? 2)
                     (flat_map (fun r => map (fun c => (r, c)) cols) rows)))).
Proof.
  revert bs ws. induction rows as [|r rows IH]; intros bs ws;
    cbn [fold_left flat_map].
  - cbn [filter length Z.of_nat]. f_equal; lia.
  - rewrite get_score_row, IH, !filter_app, !length_app, !filter_map_comm,
      !length_map, !Nat2Z.inj_add.
    rewrite !Z.add_assoc. reflexivity.
Qed.

Lemma get_score_eq (b : GoBoard) :
  get_score b =
  (stones b 1 + captured_white b,
   (inject_Z (stones b 2 + captured_black b) + (5 # 2))%Q).
Proof.
  unfold get_score. rewrite get_score_rows. reflexivity.
Qed.

(** C8. [get_score] returns the number of black stones plus the white
    stones captured by Black, and the number of white stones plus the
    black stones captured by White plus the komi [2.5]; on an empty new
    board the result is [(0, 2.5)]. *)
Theorem get_score_correct (b : GoBoard) :
  fst (get_score b) = stones b 1 + captured_white b /\
  snd (get_score b) =
  (inject_Z (stones b 2 + captured_black b) + (5 # 2))%Q /\
  get_score (new_board 7) = (0, 5 # 2) /\
  (forall n, fst (get_score (new_board n)) = 0 /\
             (snd (get_score (new_board n)) == 5 # 2)%Q).
Proof.
  rewrite get_score_eq. cbn [fst snd].
  split; [reflexivity | split; [reflexivity | split; [reflexivity |]]].
  intros n. rewrite get_score_eq. cbn [fst snd].
  rewrite !new_board_stones by lia. simpl. split; reflexivity.
Qed.

(** ** Evaluation *)


Lemma sumQ_ext {A} (f g : A -> Q) (l : list A) :
  (forall x, In x l -> (f x == g x)%Q) -> (sumQ f l == sumQ g l)%Q.
Proof.
  induction l as [|a l IH]; intros H; simpl; [reflexivity |].
  rewrite IH by (intros x Hx; apply H; right; assumption).
  rewrite H by (left; reflexivity). reflexivity.
Qed.









(** ** Alpha-beta pruning *)

(** The floats with their numeric equality form a total order. *)
Module FSP <: IsTotalOrder FS.

#[global] Instance eq_equiv : Equivalence FS.eq.
Proof.
  split.
  - intros [|a|]; constructor. reflexivity.
  - intros x y H; destruct H; constructor. symmetry; assumption.
  - intros x y z H1 H2; destruct H1; inversion H2; subst; constructor.
    etransitivity; eassumption.
Qed.

#[global] Instance lt_strorder : StrictOrder FS.lt.
Proof.
  split.
  - intros x H; inversion H; subst. eapply Qlt_irrefl; eassumption.
  - intros x y z H1 H2; destruct H1; inversion H2; subst; constructor.
    eapply Qlt_trans; eassumption.
Qed.

#[global] Instance lt_compat : Proper (FS.eq ==> FS.eq ==> iff) FS.lt.
Proof.
  intros x x' Hx y y' Hy.
  destruct Hx as [|a a' Ha|], Hy as [|c c' Hc|]; split; intros Hlt;
    inversion Hlt; subst; constructor.
  - rewrite <- Ha, <- Hc. assumption.
  - rewrite Ha, Hc. assumption.
Qed.

Lemma le_lteq (x y : fscore) : FS.le x y <-> FS.lt x y \/ FS.eq x y.
Proof.
  split.
  - intros H; destruct H as [[|a|] | a b H | [|a|]];
      try (left; constructor; fail); try (right; constructor; fail).
    apply Qle_lteq in H. destruct H; [left | right]; constructor; assumption.
  - intros [H | H]; destruct H; constructor.
    + apply Qlt_le_weak; assumption.
    + apply Qle_lteq; right; assumption.
Qed.

Lemma lt_total (x y : fscore) : FS.lt x y \/ FS.eq x y \/ FS.lt y x.
Proof.
  destruct x as [|a|], y as [|b|];
    try (left; constructor; fail); try (right; left; constructor; fail);
    try (right; right; constructor; fail).
  destruct (Q_dec a b) as [[H | H] | H];
    [left | right; right | right; left]; constructor; assumption.
Qed.

End FSP.

Module FSTac := MakeOrderTac FS FSP.

Lemma fs_ltb_true (x y : fscore) : fs_ltb x y = true <-> fs_lt x y.
Proof.
  destruct x as [|a|], y as [|b|]; simpl; split; intros H;
    try discriminate; try (inversion H; fail); try constructor;
    try reflexivity.
  - apply Qnot_le_lt. rewrite <- Qle_bool_iff.
    destruct (Qle_bool b a); [discriminate | congruence].
  - inversion H; subst. apply negb_true_iff, not_true_iff_false.
    rewrite Qle_bool_iff. apply Qlt_not_le. assumption.
Qed.

Lemma fs_leb_true (x y : fscore) : fs_leb x y = true <-> fs_le x y.
Proof.
  destruct x as [|a|], y as [|b|]; simpl; split; intros H;
    try discriminate; try (inversion H; fail); try constructor;
    try reflexivity.
  - apply Qle_bool_iff; assumption.
  - inversion H; subst. apply Qle_bool_iff; assumption.
Qed.

Lemma fs_ltb_false (x y : fscore) : fs_ltb x y = false <-> fs_le y x.
Proof.
  rewrite <- not_true_iff_false, fs_ltb_true. split.
  - intros H. FSTac.order.
  - intros H H'. FSTac.order.
Qed.

Lemma fs_leb_false (x y : fscore) : fs_leb x y = false <-> fs_lt y x.
Proof.
  rewrite <- not_true_iff_false, fs_leb_true. split.
  - intros H. FSTac.order.
  - intros H H'. FSTac.order.
Qed.

Lemma NegInf_least (x : fscore) : fs_le NegInf x.
Proof. constructor. Qed.

Lemma PosInf_greatest (x : fscore) : fs_le x PosInf.
Proof. constructor. Qed.

Ltac fs_prop :=
  repeat match goal with
  | H : fs_ltb _ _ = true |- _ => apply fs_ltb_true in H
  | H : fs_ltb _ _ = false |- _ => apply fs_ltb_false in H
  | H : fs_leb _ _ = true |- _ => apply fs_leb_true in H
  | H : fs_leb _ _ = false |- _ => apply fs_leb_false in H
  end.

Ltac fs_order := fs_prop; FSTac.order.

Lemma same_engine_refl (ai : MinimaxAI) : same_engine ai ai.
Proof. unfold same_engine. repeat split; lia. Qed.

Lemma same_engine_trans (a b c : MinimaxAI) :
  same_engine a b -> same_engine b c -> same_engine a c.
Proof.
  unfold same_engine. intros (H1 & H2 & H3) (H4 & H5 & H6).
  repeat split; try congruence; lia.
Qed.

Lemma evaluate_board_engine (ai ai' : MinimaxAI) (b : GoBoard) :
  same_engine ai ai' -> evaluate_board ai b = evaluate_board ai' b.
Proof.
  intros (H1 & H2 & _). unfold evaluate_board. rewrite H1, H2. reflexivity.
Qed.

Lemma window_sound_exact (v v' alpha beta : fscore) :
  fs_eq v' v -> window_sound v' v alpha beta.
Proof. intros H. unfold window_sound. repeat split; intros; fs_order. Qed.

Section Pruning.

Variable search_ab : GoBoard -> fscore -> fscore -> MinimaxAI -> search_result.
Variable search_ex : GoBoard -> MinimaxAI -> search_result.

(** What the loops assume of the searches of the children: the pruned
    search is sound for its window, and the engines stay related. *)
Hypothesis child_sound :
  forall nb alpha beta ai ai',
    same_engine ai ai' -> fs_lt alpha beta ->
    window_sound (score_of (search_ab nb alpha beta ai))
      (score_of (search_ex nb ai')) alpha beta /\
    same_engine (engine_of (search_ab nb alpha beta ai))
      (engine_of (search_ex nb ai')).

Hypothesis child_engine :
  forall nb ai', same_engine ai' (engine_of (search_ex nb ai')).

Variable b : GoBoard.

Lemma max_loop_all_ge (moves : list pos) :
  forall M bM ai',
    fs_le M (score_of (max_loop_all search_ex b moves M bM ai')) /\
    same_engine ai' (engine_of (max_loop_all search_ex b moves M bM ai')).
Proof.
  induction moves as [|mv moves IH]; intros M bM ai'; cbn [max_loop_all].
  - split; [unfold score_of; cbn [fst]; FSTac.order | apply same_engine_refl].
  - pose proof (child_engine (snd (make_move (copy b) (fst mv) (snd mv))) ai')
      as He.
    destruct (search_ex _ ai') as [[v mv'] ai1'].
    unfold engine_of in He; cbn [snd] in He.
    destruct (fs_ltb M v) eqn:E.
    + destruct (IH v (Some mv) ai1') as [H1 H2].
      split; [fs_order | eapply same_engine_trans; eassumption].
    + destruct (IH M bM ai1') as [H1 H2].
      split; [assumption | eapply same_engine_trans; eassumption].
Qed.

Lemma max_loop_all_top (moves : list pos) :
  forall M bM ai',
    fs_le PosInf M ->
    score_of (max_loop_all search_ex b moves M bM ai') = M /\
    move_of (max_loop_all search_ex b moves M bM ai') = bM.
Proof.
  induction moves as [|mv moves IH]; intros M bM ai' HM; cbn [max_loop_all].
  - split; reflexivity.
  - destruct (search_ex _ ai') as [[v mv'] ai1'].
    inversion HM; subst. cbn [fs_ltb]. apply IH. constructor.
Qed.

(** From the soundness of a child's search for its window, the facts
    that the case at hand makes available. *)
Ltac window_facts W1 W2 W3 :=
  try (let H := fresh "Hup" in assert (H := W1 ltac:(FSTac.order)));
  try (let H := fresh "Hlow" in assert (H := W2 ltac:(FSTac.order)));
  try (let H := fresh "Hexact" in
       assert (H := W3 ltac:(FSTac.order) ltac:(FSTac.order))).

Ltac use_bound Heq :=
  try (let H := fresh "Hsame" in assert (H := Heq ltac:(FSTac.order))).

(** The maximizing loop with pruning, run side by side with the loop
    without pruning.  [alpha0] is the bound the node was entered with,
    [alpha] the current one; [m] and [M] are the running maxima of the
    two loops. *)
Lemma max_loop_sound (alpha0 beta : fscore) (moves : list pos) :
  forall m bm alpha ai M bM ai',
    same_engine ai ai' ->
    fs_le alpha0 alpha -> fs_le m alpha ->
    fs_le alpha alpha0 \/ fs_le alpha m ->
    fs_lt alpha beta ->
    fs_le M m -> (fs_lt alpha0 m -> fs_eq M m) ->
    window_sound
      (score_of (max_loop search_ab b moves m bm alpha beta ai))
      (score_of (max_loop_all search_ex b moves M bM ai')) alpha0 beta /\
    same_engine
      (engine_of (max_loop search_ab b moves m bm alpha beta ai))
      (engine_of (max_loop_all search_ex b moves M bM ai')).
Proof.
  induction moves as [|mv moves IH];
    intros m bm alpha ai M bM ai' Hse Ha0 Hma Hdisj Hab HMm Heq.
  - cbn [max_loop max_loop_all]. split; [| exact Hse].
    unfold window_sound, score_of; cbn [fst].
    split; [| split]; intros; use_bound Heq; FSTac.order.
  - cbn [max_loop max_loop_all].
    set (nb := snd (make_move (copy b) (fst mv) (snd mv))).
    destruct (child_sound nb alpha beta ai ai' Hse Hab)
      as [(W1 & W2 & W3) Hse1].
    destruct (search_ab nb alpha beta ai) as [[v' mv'] ai1].
    destruct (search_ex nb ai') as [[v mvx] ai1'].
    unfold score_of, engine_of in W1, W2, W3, Hse1;
      cbn [fst snd] in W1, W2, W3, Hse1.
    unfold fs_max.
    destruct (fs_ltb m v') eqn:E1; destruct (fs_ltb M v) eqn:E2;
      destruct (fs_ltb alpha v') eqn:E3;
      match goal with
      | |- context [fs_leb beta ?a] => destruct (fs_leb beta a) eqn:E4
      end;
      fs_prop; window_facts W1 W2 W3; use_bound Heq;
      try (exfalso; destruct Hdisj; FSTac.order);
      lazymatch goal with
      | |- context [max_loop search_ab] =>
          apply IH;
            [ assumption | FSTac.order | FSTac.order
            | destruct Hdisj; first [left; FSTac.order | right; FSTac.order]
            | FSTac.order | FSTac.order
            | intros; use_bound Heq; destruct Hdisj; FSTac.order ]
      | |- context [max_loop_all search_ex b moves ?M' ?bM' ?ai''] =>
          destruct (max_loop_all_ge moves M' bM' ai'') as [G1 G2];
            split; [| eapply same_engine_trans; eassumption];
            unfold window_sound, score_of in *; cbn [fst] in *;
            split; [| split]; intros; FSTac.order
      end.
Qed.

Lemma min_loop_all_le (moves : list pos) :
  forall M bM ai',
    fs_le (score_of (min_loop_all search_ex b moves M bM ai')) M /\
    same_engine ai' (engine_of (min_loop_all search_ex b moves M bM ai')).
Proof.
  induction moves as [|mv moves IH]; intros M bM ai'; cbn [min_loop_all].
  - split; [unfold score_of; cbn [fst]; FSTac.order | apply same_engine_refl].
  - pose proof (child_engine (snd (make_move (copy b) (fst mv) (snd mv))) ai')
      as He.
    destruct (search_ex _ ai') as [[v mv'] ai1'].
    unfold engine_of in He; cbn [snd] in He.
    destruct (fs_ltb v M) eqn:E.
    + destruct (IH v (Some mv) ai1') as [H1 H2].
      split; [fs_order | eapply same_engine_trans; eassumption].
    + destruct (IH M bM ai1') as [H1 H2].
      split; [assumption | eapply same_engine_trans; eassumption].
Qed.

(** The minimizing loop with pruning, side by side with the loop without
    pruning; [beta0] is the bound the node was entered with. *)
Lemma min_loop_sound (alpha beta0 : fscore) (moves : list pos) :
  forall m bm beta ai M bM ai',
    same_engine ai ai' ->
    fs_le beta beta0 -> fs_le beta m ->
    fs_le beta0 beta \/ fs_le m beta ->
    fs_lt alpha beta ->
    fs_le m M -> (fs_lt m beta0 -> fs_eq M m) ->
    window_sound
      (score_of (min_loop search_ab b moves m bm alpha beta ai))
      (score_of (min_loop_all search_ex b moves M bM ai')) alpha beta0 /\
    same_engine
      (engine_of (min_loop search_ab b moves m bm alpha beta ai))
      (engine_of (min_loop_all search_ex b moves M bM ai')).
Proof.
  induction moves as [|mv moves IH];
    intros m bm beta ai M bM ai' Hse Hb0 Hmb Hdisj Hab HMm Heq.
  - cbn [min_loop min_loop_all]. split; [| exact Hse].
    unfold window_sound, score_of; cbn [fst].
    split; [| split]; intros; use_bound Heq; FSTac.order.
  - cbn [min_loop min_loop_all].
    set (nb := snd (make_move (copy b) (fst mv) (snd mv))).
    destruct (child_sound nb alpha beta ai ai' Hse Hab)
      as [(W1 & W2 & W3) Hse1].
    destruct (search_ab nb alpha beta ai) as [[v' mv'] ai1].
    destruct (search_ex nb ai') as [[v mvx] ai1'].
    unfold score_of, engine_of in W1, W2, W3, Hse1;
      cbn [fst snd] in W1, W2, W3, Hse1.
    unfold fs_min.
    destruct (fs_ltb v' m) eqn:E1; destruct (fs_ltb v M) eqn:E2;
      destruct (fs_ltb v' beta) eqn:E3;
      match goal with
      | |- context [fs_leb ?a alpha] => destruct (fs_leb a alpha) eqn:E4
      end;
      fs_prop; window_facts W1 W2 W3; use_bound Heq;
      try (exfalso; destruct Hdisj; FSTac.order);
      lazymatch goal with
      | |- context [min_loop search_ab] =>
          apply IH;
            [ assumption | FSTac.order | FSTac.order
            | destruct Hdisj; first [left; FSTac.order | right; FSTac.order]
            | FSTac.order | FSTac.order
            | intros; use_bound Heq; destruct Hdisj; FSTac.order ]
      | |- context [min_loop_all search_ex b moves ?M' ?bM' ?ai''] =>
          destruct (min_loop_all_le moves M' bM' ai'') as [G1 G2];
            split; [| eapply same_engine_trans; eassumption];
            unfold window_sound, score_of in *; cbn [fst] in *;
            split; [| split]; intros; FSTac.order
      end.
Qed.

(** At the root the window is the whole line: the two maximizing loops
    keep equal running maxima and the same best move. *)
Lemma max_loop_root (moves : list pos) :
  forall m bm alpha ai M bM ai',
    same_engine ai ai' ->
    fs_eq alpha m -> fs_eq M m -> bm = bM -> fs_lt alpha PosInf ->
    fs_eq (score_of (max_loop search_ab b moves m bm alpha PosInf ai))
      (score_of (max_loop_all search_ex b moves M bM ai')) /\
    move_of (max_loop search_ab b moves m bm alpha PosInf ai) =
    move_of (max_loop_all search_ex b moves M bM ai') /\
    same_engine
      (engine_of (max_loop search_ab b moves m bm alpha PosInf ai))
      (engine_of (max_loop_all search_ex b moves M bM ai')).
Proof.
  induction moves as [|mv moves IH];
    intros m bm alpha ai M bM ai' Hse Ham HMm Hbm Hab.
  - cbn [max_loop max_loop_all]. unfold score_of, move_of, engine_of.
    cbn [fst snd]. split; [FSTac.order | split; assumption].
  - cbn [max_loop max_loop_all].
    set (nb := snd (make_move (copy b) (fst mv) (snd mv))).
    destruct (child_sound nb alpha PosInf ai ai' Hse Hab)
      as [(W1 & W2 & W3) Hse1].
    destruct (search_ab nb alpha PosInf ai) as [[v' mv'] ai1].
    destruct (search_ex nb ai') as [[v mvx] ai1'].
    unfold score_of, engine_of in W1, W2, W3, Hse1;
      cbn [fst snd] in W1, W2, W3, Hse1.
    pose proof (PosInf_greatest v) as Hv.
    unfold fs_max.
    destruct (fs_ltb m v') eqn:E1; destruct (fs_ltb M v) eqn:E2;
      destruct (fs_ltb alpha v') eqn:E3;
      match goal with
      | |- context [fs_leb PosInf ?a] => destruct (fs_leb PosInf a) eqn:E4
      end;
      fs_prop; window_facts W1 W2 W3;
      try (exfalso; FSTac.order);
      lazymatch goal with
      | |- context [max_loop search_ab] =>
          apply IH; [assumption | FSTac.order | FSTac.order | congruence
                    | FSTac.order]
      | |- context [max_loop_all search_ex b moves ?M' ?bM' ?ai''] =>
          destruct (max_loop_all_top moves M' bM' ai'') as [G1 G2];
            [FSTac.order |];
            destruct (max_loop_all_ge moves M' bM' ai'') as [_ G3];
            rewrite G1, G2; unfold score_of, move_of, engine_of;
            cbn [fst snd];
            split; [FSTac.order
                   | split; [congruence
                            | eapply same_engine_trans; eassumption]]
      end.
Qed.

Lemma min_loop_all_bottom (moves : list pos) :
  forall M bM ai',
    fs_le M NegInf ->
    score_of (min_loop_all search_ex b moves M bM ai') = M /\
    move_of (min_loop_all search_ex b moves M bM ai') = bM.
Proof.
  induction moves as [|mv moves IH]; intros M bM ai' HM; cbn [min_loop_all].
  - split; reflexivity.
  - destruct (search_ex _ ai') as [[v mv'] ai1'].
    inversion HM; subst. destruct v; cbn [fs_ltb]; apply IH; constructor.
Qed.

(** The same at a minimizing root. *)
Lemma min_loop_root (moves : list pos) :
  forall m bm beta ai M bM ai',
    same_engine ai ai' ->
    fs_eq beta m -> fs_eq M m -> bm = bM -> fs_lt NegInf beta ->
    fs_eq (score_of (min_loop search_ab b moves m bm NegInf beta ai))
      (score_of (min_loop_all search_ex b moves M bM ai')) /\
    move_of (min_loop search_ab b moves m bm NegInf beta ai) =
    move_of (min_loop_all search_ex b moves M bM ai') /\
    same_engine
      (engine_of (min_loop search_ab b moves m bm NegInf beta ai))
      (engine_of (min_loop_all search_ex b moves M bM ai')).
Proof.
  induction moves as [|mv moves IH];
    intros m bm beta ai M bM ai' Hse Hbm' HMm Hbm Hab.
  - cbn [min_loop min_loop_all]. unfold score_of, move_of, engine_of.
    cbn [fst snd]. split; [FSTac.order | split; assumption].
  - cbn [min_loop min_loop_all].
    set (nb := snd (make_move (copy b) (fst mv) (snd mv))).
    destruct (child_sound nb NegInf beta ai ai' Hse Hab)
      as [(W1 & W2 & W3) Hse1].
    destruct (search_ab nb NegInf beta ai) as [[v' mv'] ai1].
    destruct (search_ex nb ai') as [[v mvx] ai1'].
    unfold score_of, engine_of in W1, W2, W3, Hse1;
      cbn [fst snd] in W1, W2, W3, Hse1.
    pose proof (NegInf_least v) as Hv.
    unfold fs_min.
    destruct (fs_ltb v' m) eqn:E1; destruct (fs_ltb v M) eqn:E2;
      destruct (fs_ltb v' beta) eqn:E3;
      match goal with
      | |- context [fs_leb ?a NegInf] => destruct (fs_leb a NegInf) eqn:E4
      end;
      fs_prop; window_facts W1 W2 W3;
      try (exfalso; FSTac.order);
      lazymatch goal with
      | |- context [min_loop search_ab] =>
          apply IH; [assumption | FSTac.order | FSTac.order | congruence
                    | FSTac.order]
      | |- context [min_loop_all search_ex b moves ?M' ?bM' ?ai''] =>
          destruct (min_loop_all_bottom moves M' bM' ai'') as [G1 G2];
            [FSTac.order |];
            destruct (min_loop_all_le moves M' bM' ai'') as [_ G3];
            rewrite G1, G2; unfold score_of, move_of, engine_of;
            cbn [fst snd];
            split; [FSTac.order
                   | split; [congruence
                            | eapply same_engine_trans; eassumption]]
      end.
Qed.

End Pruning.

Lemma same_engine_step (ai ai' : MinimaxAI) :
  same_engine ai ai' ->
  same_engine (with_nodes ai (nodes_evaluated ai + 1))
    (with_nodes ai' (nodes_evaluated ai' + 1)).
Proof.
  intros (H1 & H2 & H3). unfold same_engine, with_nodes. simpl.
  repeat split; try assumption. lia.
Qed.

Lemma same_engine_count (ai : MinimaxAI) :
  same_engine ai (with_nodes ai (nodes_evaluated ai + 1)).
Proof. unfold same_engine, with_nodes. simpl. repeat split; lia. Qed.

(** The exhaustive search only advances the node counter. *)
Lemma minimax_exhaustive_engine (d : nat) :
  forall ai b mx, same_engine ai (engine_of (minimax_exhaustive ai b d mx)).
Proof.
  induction d as [|d IH]; intros ai b mx; cbn [minimax_exhaustive].
  - apply same_engine_count.
  - rewrite get_valid_moves_eq. cbv beta iota zeta.
    destruct (filter _ _) as [|mv moves].
    + apply same_engine_count.
    + eapply same_engine_trans; [apply same_engine_count |].
      destruct mx.
      * apply max_loop_all_ge. intros nb ai'. apply IH.
      * apply min_loop_all_le. intros nb ai'. apply IH.
Qed.

(** The pruned search is sound for its window at every depth. *)
Lemma minimax_sound (d : nat) :
  forall ai ai' b alpha beta mx,
    same_engine ai ai' -> fs_lt alpha beta ->
    window_sound (score_of (minimax ai b d alpha beta mx))
      (score_of (minimax_exhaustive ai' b d mx)) alpha beta /\
    same_engine (engine_of (minimax ai b d alpha beta mx))
      (engine_of (minimax_exhaustive ai' b d mx)).
Proof.
  induction d as [|d IH]; intros ai ai' b alpha beta mx Hse Hlt;
    cbn [minimax minimax_exhaustive];
    pose proof (same_engine_step ai ai' Hse) as Hse'.
  - unfold score_of, engine_of; cbn [fst snd]. split; [| exact Hse'].
    apply window_sound_exact. constructor.
    rewrite (evaluate_board_engine _ _ b Hse'). reflexivity.
  - rewrite get_valid_moves_eq. cbv beta iota zeta.
    destruct (filter _ _) as [|mv moves].
    + unfold score_of, engine_of; cbn [fst snd]. split; [| exact Hse'].
      apply window_sound_exact. constructor.
      rewrite (evaluate_board_engine _ _ b Hse'). reflexivity.
    + destruct mx.
      * apply (max_loop_sound
                 (fun nb a be ai0 => minimax ai0 nb d a be false)
                 (fun nb ai0 => minimax_exhaustive ai0 nb d false)).
        -- intros nb a be x x' Hx Hab. apply IH; assumption.
        -- intros nb x. apply minimax_exhaustive_engine.
        -- exact Hse'.
        -- FSTac.order.
        -- constructor.
        -- left. FSTac.order.
        -- exact Hlt.
        -- constructor.
        -- intros H. inversion H.
      * apply (min_loop_sound
                 (fun nb a be ai0 => minimax ai0 nb d a be true)
                 (fun nb ai0 => minimax_exhaustive ai0 nb d true)).
        -- intros nb a be x x' Hx Hab. apply IH; assumption.
        -- intros nb x. apply minimax_exhaustive_engine.
        -- exact Hse'.
        -- FSTac.order.
        -- constructor.
        -- left. FSTac.order.
        -- exact Hlt.
        -- constructor.
        -- intros H. inversion H.
Qed.

(** With the whole line as window the pruned search returns the score and
    the move of the exhaustive search, and counts no more nodes. *)
Lemma minimax_root (d : nat) (ai ai' : MinimaxAI) (b : GoBoard) (mx : bool) :
  same_engine ai ai' ->
  fs_eq (score_of (minimax ai b d NegInf PosInf mx))
    (score_of (minimax_exhaustive ai' b d mx)) /\
  move_of (minimax ai b d NegInf PosInf mx) =
  move_of (minimax_exhaustive ai' b d mx) /\
  same_engine (engine_of (minimax ai b d NegInf PosInf mx))
    (engine_of (minimax_exhaustive ai' b d mx)).
Proof.
  intros Hse. pose proof (same_engine_step ai ai' Hse) as Hse'.
  assert (Hleaf :
    fs_eq (Fin (evaluate_board (with_nodes ai (nodes_evaluated ai + 1)) b))
      (Fin (evaluate_board (with_nodes ai' (nodes_evaluated ai' + 1)) b))).
  { constructor. rewrite (evaluate_board_engine _ _ b Hse'). reflexivity. }
  destruct d as [|d]; cbn [minimax minimax_exhaustive].
  - unfold score_of, move_of, engine_of; cbn [fst snd]. auto.
  - rewrite get_valid_moves_eq. cbv beta iota zeta.
    destruct (filter _ _) as [|mv moves].
    + unfold score_of, move_of, engine_of; cbn [fst snd]. auto.
    + destruct mx.
      * apply (max_loop_root
                 (fun nb a be ai0 => minimax ai0 nb d a be false)
                 (fun nb ai0 => minimax_exhaustive ai0 nb d false)).
        -- intros nb a be x x' Hx Hab. apply minimax_sound; assumption.
        -- intros nb x. apply minimax_exhaustive_engine.
        -- exact Hse'.
        -- constructor.
        -- constructor.
        -- reflexivity.
        -- constructor.
      * apply (min_loop_root
                 (fun nb a be ai0 => minimax ai0 nb d a be true)
                 (fun nb ai0 => minimax_exhaustive ai0 nb d true)).
        -- intros nb a be x x' Hx Hab. apply minimax_sound; assumption.
        -- intros nb x. apply minimax_exhaustive_engine.
        -- exact Hse'.
        -- constructor.
        -- constructor.
        -- reflexivity.
        -- constructor.
Qed.

(** C1. For every board, depth and root flag, the search with alpha-beta
    pruning started with the window from minus infinity to plus infinity
    returns a score equal, as a number, to the score of the exhaustive
    minimax search over the same position and depth, and the same move
    under the same first-best-wins tie-breaking; it never visits more
    nodes; in particular [get_best_move] returns the move of the
    exhaustive search. *)
Theorem alpha_beta_equals_exhaustive (ai : MinimaxAI) (b : GoBoard) (d : nat)
    (mx : bool) :
  fs_eq (score_of (minimax ai b d NegInf PosInf mx))
    (score_of (minimax_exhaustive ai b d mx)) /\
  move_of (minimax ai b d NegInf PosInf mx) =
  move_of (minimax_exhaustive ai b d mx) /\
  nodes_evaluated (engine_of (minimax ai b d NegInf PosInf mx)) <=
  nodes_evaluated (engine_of (minimax_exhaustive ai b d mx)) /\
  fst (fst (get_best_move ai b)) =
  move_of (minimax_exhaustive (with_nodes ai 0) b (depth ai) true).
Proof.
  destruct (minimax_root d ai ai b mx (same_engine_refl ai))
    as (H1 & H2 & H3).
  split; [exact H1 | split; [exact H2 | split; [apply H3 |]]].
  unfold get_best_move.
  destruct (minimax_root (depth (with_nodes ai 0)) (with_nodes ai 0)
              (with_nodes ai 0) b true (same_engine_refl _)) as (_ & H & _).
  change (depth (with_nodes ai 0)) with (depth ai) in *.
  rewrite <- H. unfold move_of.
  destruct (minimax (with_nodes ai 0) b (depth ai) NegInf PosInf true)
    as [[s m] ai1].
  reflexivity.
Qed.

(** * Further properties of the board *)

(** ** Neighbours *)

Lemma get_neighbors_NoDup (b : GoBoard) (r c : Z) :
  NoDup (get_neighbors b r c).
Proof.
  rewrite get_neighbors_eq.
  apply NoDup_filter. repeat constructor; simpl; intros H;
    repeat (destruct H as [H | H]; [injection H; lia |]); exact H.
Qed.

Lemma get_neighbors_sym (b : GoBoard) (r c : Z) (q : pos) :
  in_range (size b) (r, c) ->
  In q (get_neighbors b r c) ->
  In (r, c) (get_neighbors b (fst q) (snd q)).
Proof.
  intros Hr Hq. apply get_neighbors_iff in Hq. apply get_neighbors_iff.
  split; [exact Hr |]. simpl. lia.
Qed.

(** X1. [get_neighbors] returns, without repetition, exactly the cells of
    the board at distance one from [(r, c)] along a row or a column; it
    never returns a cell outside the board. *)
Theorem get_neighbors_exact (b : GoBoard) (r c : Z) :
  NoDup (get_neighbors b r c) /\
  (forall q, In q (get_neighbors b r c) <->
             in_range (size b) q /\
             Z.abs (fst q - r) + Z.abs (snd q - c) = 1).
Proof.
  split; [apply get_neighbors_NoDup | intros q; apply get_neighbors_iff].
Qed.

(** X2. Adjacency is symmetric on the board: a cell of the board is a
    neighbour of each of its neighbours. *)
Theorem get_neighbors_symmetric (b : GoBoard) (r c : Z) (q : pos) :
  is_valid_position b r c = true ->
  In q (get_neighbors b r c) ->
  In (r, c) (get_neighbors b (fst q) (snd q)).
Proof.
  intros Hr Hq. apply is_valid_position_iff in Hr.
  apply get_neighbors_sym; assumption.
Qed.

Lemma get_neighbors_symmetric_witness :
  In (3, 3) (get_neighbors (new_board 7) (fst (3, 4)) (snd (3, 4))).
Proof.
  refine (get_neighbors_symmetric (new_board 7) 3 3 (3, 4) _ _).
  - reflexivity.
  - vm_compute. auto.
Defined.

(** ** Groups and liberties *)

Lemma get_group_loop_more_fuel (b : GoBoard) (color : Z) (fuel : nat) :
  forall stack group g k,
    get_group_loop fuel b color stack group = Some g ->
    get_group_loop (fuel + k) b color stack group = Some g.
Proof.
  induction fuel as [|fuel IH]; intros stack group g k; simpl;
    [discriminate |].
  destruct stack as [|[r c] stack']; [auto |].
  destruct (mem (r, c) group); apply IH.
Qed.

(** X3. The flood fill of [get_group] terminates: for every board and
    every seed the loop ends within the bound of [4 * size * size + 6]
    iterations, and a larger bound gives the same group. *)
Theorem get_group_terminates (b : GoBoard) (row col : Z) :
  exists g,
    get_group_loop (group_fuel b) b (cell b row col) [(row, col)] [] = Some g /\
    forall k,
      get_group_loop (group_fuel b + k) b (cell b row col) [(row, col)] []
      = Some g.
Proof.
  destruct (get_group_total b row col) as [g Hg]. exists g.
  split; [exact Hg |]. intros k. apply get_group_loop_more_fuel. exact Hg.
Qed.

Lemma get_group_loop_NoDup (b : GoBoard) (color : Z) (fuel : nat) :
  forall stack group g,
    NoDup group ->
    get_group_loop fuel b color stack group = Some g -> NoDup g.
Proof.
  induction fuel as [|fuel IH]; intros stack group g Hnd; simpl;
    [discriminate |].
  destruct stack as [|[r c] stack']; [intros [= <-]; exact Hnd |].
  destruct (mem (r, c) group) eqn:Em; [apply IH; exact Hnd |].
  apply IH. constructor; [apply mem_false; exact Em | exact Hnd].
Qed.

(** X4. [get_group] returns, without repetition, exactly the stones of
    the colour of the seed that are connected to the seed through stones
    of that colour; the group of a stone contains the stone, and the
    group of an empty cell is empty. *)
Theorem get_group_component (b : GoBoard) (r c : Z) :
  NoDup (get_group b r c) /\
  (forall q, In q (get_group b r c) <->
             cell b r c <> 0 /\ connected b (cell b r c) (r, c) q) /\
  (cell b r c <> 0 -> In (r, c) (get_group b r c)) /\
  (cell b r c = 0 -> get_group b r c = []).
Proof.
  split; [| split; [| split]].
  - unfold get_group. destruct (cell b r c =? 0); [constructor |].
    destruct (get_group_loop _ _ _ _ _) as [g|] eqn:E; [| constructor].
    apply (get_group_loop_NoDup _ _ _ _ _ _ (NoDup_nil _) E).
  - intros q. apply get_group_correct.
  - intros H. apply get_group_correct. split; [exact H | constructor].
  - intros H. unfold get_group. rewrite H. reflexivity.
Qed.

Lemma connected_trans (b : GoBoard) (color : Z) (p q r : pos) :
  connected b color p q -> connected b color q r -> connected b color p r.
Proof.
  intros Hpq Hqr. induction Hqr as [|x y Hx IH Ha Hc]; [exact Hpq |].
  apply (connected_step b color p x y IH Ha Hc).
Qed.

Lemma connected_on_board (b : GoBoard) (color : Z) (p q : pos) :
  in_range (size b) p -> cell_at b p = color ->
  connected b color p q ->
  in_range (size b) q /\ cell_at b q = color.
Proof.
  intros Hr Hc H. destruct H as [|x y Hx Ha Hy]; [auto |].
  split; [| exact Hy]. destruct Ha as [Ha _]. exact Ha.
Qed.

Lemma connected_sym (b : GoBoard) (color : Z) (p q : pos) :
  in_range (size b) p -> cell_at b p = color ->
  connected b color p q -> connected b color q p.
Proof.
  intros Hr Hc H. induction H as [|x y Hx IH Ha Hy]; [constructor |].
  destruct (connected_on_board b color p x Hr Hc Hx) as [Hxr Hxc].
  apply connected_trans with (q := x); [| exact IH].
  apply (connected_step b color y y x (connected_refl b color y)); [| exact Hxc].
  unfold adjacent in *. split; [exact Hxr | lia].
Qed.

(** X5. The stones of a group all have the same group: the group
    computed from any member of the group of an on-board seed has the
    same elements. *)
Theorem get_group_same (b : GoBoard) (r c : Z) (q : pos) :
  is_valid_position b r c = true ->
  In q (get_group b r c) ->
  forall x, In x (get_group b (fst q) (snd q)) <-> In x (get_group b r c).
Proof.
  intros Hr Hq x. apply is_valid_position_iff in Hr.
  apply get_group_correct in Hq. destruct Hq as [Hne Hq].
  destruct (connected_on_board b _ (r, c) q Hr eq_refl Hq) as [Hqr Hqc].
  rewrite !get_group_correct. unfold in_group.
  replace (fst q, snd q) with q by (destruct q; reflexivity).
  rewrite Hqc. split; intros [_ H]; (split; [exact Hne |]).
  - exact (connected_trans b _ (r, c) q x Hq H).
  - refine (connected_trans b _ q (r, c) x _ H).
    apply connected_sym; [exact Hr | reflexivity | exact Hq].
Qed.

Lemma get_group_same_witness :
  In (6, 6) (get_group ko_board (fst (6, 5)) (snd (6, 5))) <->
  In (6, 6) (get_group ko_board 6 6).
Proof.
  refine (get_group_same ko_board 6 6 (6, 5) _ _ (6, 6)).
  - vm_compute; reflexivity.
  - vm_compute. auto.
Defined.

(** X6. [count_liberties] depends on the set of cells it is given only,
    not on their order or multiplicity: it counts, once each, the empty
    cells adjacent to a listed cell. *)
Theorem count_liberties_set (b : GoBoard) (g g' : list pos) :
  (forall p, In p g <-> In p g') ->
  count_liberties b g = count_liberties b g' /\
  NoDup (liberty_set b g) /\
  (forall n, In n (liberty_set b g) <->
             cell_at b n = 0 /\ exists p, In p g /\ adjacent b p n).
Proof.
  intros Hgg.
  destruct (liberty_set_groups b g [] (NoDup_nil _)) as [H1 H2].
  destruct (liberty_set_groups b g' [] (NoDup_nil _)) as [H1' H2'].
  fold (liberty_set b g) in H1, H2. fold (liberty_set b g') in H1', H2'.
  split; [| split; [exact H1 |]].
  - unfold count_liberties. f_equal. apply Permutation_length.
    apply NoDup_Permutation; [exact H1 | exact H1' |].
    intros n. rewrite H2, H2'. split.
    + intros [[] | (H & p & Hp & Ha)]. right. split; [exact H |].
      exists p. split; [apply Hgg |]; assumption.
    + intros [[] | (H & p & Hp & Ha)]. right. split; [exact H |].
      exists p. split; [apply Hgg |]; assumption.
  - intros n. rewrite H2. split; [intros [[] | H]; exact H | auto].
Qed.

Lemma count_liberties_set_witness :
  count_liberties ko_board [(6, 5); (6, 6)] =
  count_liberties ko_board [(6, 6); (6, 5); (6, 6)].
Proof.
  refine (proj1 (count_liberties_set ko_board [(6, 5); (6, 6)]
                   [(6, 6); (6, 5); (6, 6)] _)).
  intros p. simpl. tauto.
Defined.

(** ** Captures and moves *)

(** X7. On a well-formed grid [remove_captured_stones] keeps the grid
    well-formed, changes a cell only by emptying a cell that held the
    opponent colour, and returns the number of cells it changed. *)
Theorem remove_captured_stones_effect (b : GoBoard) (opp : Z) :
  wf_grid (size b) (board b) ->
  wf_grid (size b) (board (snd (remove_captured_stones b opp))) /\
  size (snd (remove_captured_stones b opp)) = size b /\
  (forall p, in_range (size b) p ->
             cell_at (snd (remove_captured_stones b opp)) p = cell_at b p \/
             (cell_at b p = opp /\ opp <> 0 /\
              cell_at (snd (remove_captured_stones b opp)) p = 0)) /\
  fst (remove_captured_stones b opp) =
  Z.of_nat (length (filter
                      (fun p => negb (cell_at (snd (remove_captured_stones b opp)) p
                                      =? cell_at b p))
                      (all_cells (size b)))).
Proof.
  intros Hw.
  destruct (remove_captured_stones_spec b opp Hw)
    as (L & Hnd & HL & Hs & Hw' & Hc & Hn).
  split; [exact Hw' | split; [exact Hs | split]].
  - intros p Hp. rewrite (Hc p Hp). destruct (mem p L) eqn:Em; [| auto].
    apply mem_In in Em. destruct (HL p Em) as (_ & H1 & H2). auto.
  - rewrite Hn. f_equal. apply Permutation_length.
    apply NoDup_Permutation;
      [exact Hnd | apply NoDup_filter, all_cells_NoDup |].
    intros p. rewrite filter_In, In_all_cells, negb_true_iff, Z.eqb_neq. split.
    + intros Hp. destruct (HL p Hp) as (H0 & H1 & H2).
      split; [exact H0 |]. rewrite (Hc p H0).
      apply mem_In in Hp. rewrite Hp. congruence.
    + intros [Hp Hne]. rewrite (Hc p Hp) in Hne.
      destruct (mem p L) eqn:Em; [apply mem_In; exact Em | congruence].
Qed.

Lemma remove_captured_stones_effect_witness :
  fst (remove_captured_stones (set_cell ko_board 1 0 1) 2) =
  Z.of_nat (length (filter
    (fun p => negb (cell_at (snd (remove_captured_stones
                                    (set_cell ko_board 1 0 1) 2)) p
                    =? cell_at (set_cell ko_board 1 0 1) p))
    (all_cells (size (set_cell ko_board 1 0 1))))).
Proof.
  refine (proj2 (proj2 (proj2 (remove_captured_stones_effect
                                 (set_cell ko_board 1 0 1) 2 _)))).
  apply wf_set_cell. exact (proj1 ko_board_wf).
Defined.

(** X8. A successful move puts the stone of the mover on the played
    cell, never removes a stone of the mover, leaves every other cell
    as it was or empties a cell that held a stone of the opponent, keeps
    the grid well-formed, records the board before the move as snapshot
    and the move at the end of the history, passes the turn, and credits
    the captured stones to the counter of the mover only. *)
Theorem make_move_effect (b : GoBoard) (r c : Z) :
  wf_grid (size b) (board b) ->
  is_valid_position b r c = true ->
  fst (make_move b r c) = true ->
  cell (snd (make_move b r c)) r c = current_player b /\
  (forall p, in_range (size b) p -> cell_at b p = current_player b ->
             cell_at (snd (make_move b r c)) p = current_player b) /\
  (forall p, in_range (size b) p -> p <> (r, c) ->
             cell_at (snd (make_move b r c)) p = cell_at b p \/
             (cell_at b p = 3 - current_player b /\
              cell_at (snd (make_move b r c)) p = 0)) /\
  wf_grid (size b) (board (snd (make_move b r c))) /\
  size (snd (make_move b r c)) = size b /\
  previous_board (snd (make_move b r c)) = Some (board b) /\
  move_history (snd (make_move b r c)) =
  move_history b ++ [(r, c, current_player b)] /\
  current_player (snd (make_move b r c)) = 3 - current_player b /\
  (current_player b = 1 ->
   captured_black (snd (make_move b r c)) = captured_black b /\
   captured_white b <= captured_white (snd (make_move b r c))) /\
  (current_player b <> 1 ->
   captured_white (snd (make_move b r c)) = captured_white b /\
   captured_black b <= captured_black (snd (make_move b r c))).
Proof.
  intros Hw Hr Hm. apply is_valid_position_iff in Hr.
  pose proof (make_move_true_valid b r c Hm) as Hv.
  destruct (make_move_cells b r c Hw Hr Hv) as (L & Hnd & HL & Hw' & Hc & Hn).
  split; [| split; [| split; [| split; [exact Hw' |]]]].
  - specialize (Hc (r, c) Hr). rewrite pos_eqb_refl in Hc. exact Hc.
  - intros p Hp Hpl. rewrite (Hc p Hp). destruct (pos_eqb p (r, c));
      [reflexivity |].
    destruct (mem p L) eqn:Em; [| exact Hpl].
    apply mem_In in Em. destruct (HL p Em) as (_ & H1 & _). lia.
  - intros p Hp Hne. rewrite (Hc p Hp).
    destruct (pos_eqb_spec p (r, c)); [contradiction |].
    destruct (mem p L) eqn:Em; [| auto].
    apply mem_In in Em. destruct (HL p Em) as (_ & H1 & _). auto.
  - rewrite (make_move_legal b r c Hv).
    cbn [snd size previous_board move_history current_player captured_black
         captured_white].
    rewrite Hn.
    split; [reflexivity | split; [reflexivity | split; [reflexivity |]]].
    split; [reflexivity | split].
    + intros E. rewrite E. cbn [Z.eqb Pos.eqb]. split; [reflexivity | lia].
    + intros H. apply Z.eqb_neq in H. rewrite H. split; [reflexivity | lia].
Qed.

Lemma make_move_effect_witness :
  cell (snd (make_move ko_board 1 0)) 1 0 = current_player ko_board.
Proof.
  refine (proj1 (make_move_effect ko_board 1 0 _ _ _)).
  - exact (proj1 ko_board_wf).
  - vm_compute; reflexivity.
  - vm_compute; reflexivity.
Defined.

(** X9. [would_be_suicide] always leaves the tested cell empty and the
    other cells as they were: it gives the board back unchanged when the
    cell was empty, and on an occupied cell of the board it removes the
    stone. *)
Theorem would_be_suicide_clears (b : GoBoard) (r c color : Z) :
  wf_grid (size b) (board b) ->
  is_valid_position b r c = true ->
  cell (snd (would_be_suicide b r c color)) r c = 0 /\
  (forall p, in_range (size b) p -> p <> (r, c) ->
             cell_at (snd (would_be_suicide b r c color)) p = cell_at b p) /\
  (cell b r c = 0 -> snd (would_be_suicide b r c color) = b) /\
  (cell b r c <> 0 -> snd (would_be_suicide b r c color) <> b).
Proof.
  intros Hw Hr. apply is_valid_position_iff in Hr.
  unfold would_be_suicide. cbn [snd].
  assert (H0 : cell (set_cell (set_cell b r c color) r c 0) r c = 0).
  { apply cell_set_cell_eq; [apply wf_set_cell; exact Hw | exact Hr]. }
  split; [exact H0 | split; [| split]].
  - intros p Hp Hne.
    rewrite cell_set_cell_neq; [| exact Hr | exact Hp | exact Hne].
    apply cell_set_cell_neq; assumption.
  - apply set_cell_restore.
  - intros Hne Heq. rewrite Heq in H0. contradiction.
Qed.

Lemma would_be_suicide_clears_witness :
  cell (snd (would_be_suicide ko_board 0 0 1)) 0 0 = 0.
Proof.
  refine (proj1 (would_be_suicide_clears ko_board 0 0 1 _ _)).
  - exact (proj1 ko_board_wf).
  - vm_compute; reflexivity.
Defined.

(** ** Sufficient conditions of legality *)

Lemma is_valid_move_empty_neighbor (b : GoBoard) (r c : Z) (n : pos) :
  wf_grid (size b) (board b) ->
  in_range (size b) (r, c) ->
  cell b r c = 0 ->
  ko_position b <> Some (r, c) ->
  current_player b <> 0 ->
  In n (get_neighbors b r c) -> cell_at b n = 0 ->
  fst (is_valid_move b r c) = true.
Proof.
  intros Hw Hr H0 Hko Hpl Hn Hn0. apply is_valid_move_true.
  split; [exact H0 | split; [exact Hko |]].
  intros [Hno _]. apply (Hno n).
  pose proof (get_neighbors_in_range b r c n Hn) as Hnr.
  assert (Hne : n <> (r, c)).
  { intros ->. apply get_neighbors_iff in Hn. simpl in Hn. lia. }
  split.
  - unfold placed. rewrite cell_set_cell_neq; assumption.
  - exists (r, c). split; [| exact (proj1 (get_neighbors_iff b r c n) Hn)].
    assert (E : cell_at (placed b r c) (r, c) = current_player b).
    { apply cell_set_cell_eq; assumption. }
    split; [rewrite E; exact Hpl | constructor].
Qed.

(** X10. Playing next to an empty cell is never suicide: on a
    well-formed grid, a play on an empty cell of the board that is not
    the ko point and has an empty neighbour is legal. *)
Theorem empty_neighbor_legal (b : GoBoard) (r c : Z) :
  wf_grid (size b) (board b) ->
  is_valid_position b r c = true ->
  cell b r c = 0 ->
  ko_position b <> Some (r, c) ->
  current_player b <> 0 ->
  (exists n, In n (get_neighbors b r c) /\ cell_at b n = 0) ->
  fst (is_valid_move b r c) = true /\ fst (make_move b r c) = true.
Proof.
  intros Hw Hr H0 Hko Hpl (n & Hn & Hn0). apply is_valid_position_iff in Hr.
  pose proof (is_valid_move_empty_neighbor b r c n Hw Hr H0 Hko Hpl Hn Hn0)
    as Hv.
  split; [exact Hv |]. rewrite (make_move_legal b r c Hv). reflexivity.
Qed.

Lemma empty_neighbor_legal_witness :
  fst (is_valid_move ko_board 3 3) = true /\
  fst (make_move ko_board 3 3) = true.
Proof.
  refine (empty_neighbor_legal ko_board 3 3 _ _ _ _ _ _).
  - exact (proj1 ko_board_wf).
  - vm_compute; reflexivity.
  - vm_compute; reflexivity.
  - vm_compute. discriminate.
  - vm_compute. discriminate.
  - exists (3, 4). split; [vm_compute; auto | vm_compute; reflexivity].
Defined.

Lemma filter_all {A} (f : A -> bool) (l : list A) :
  (forall x, In x l -> f x = true) -> filter f l = l.
Proof.
  induction l as [|x l IH]; intros H; simpl; [reflexivity |].
  rewrite (H x (or_introl eq_refl)). f_equal. apply IH.
  intros y Hy. apply H. right; exact Hy.
Qed.

(** X11. On a new board of size at least two every cell is a legal first
    move, so [get_valid_moves] returns all the cells in row-major order;
    on the board of size one the only cell has no neighbour and no move
    is legal. *)
Theorem new_board_valid_moves (n : Z) :
  2 <= n ->
  fst (get_valid_moves (new_board n)) = all_cells n /\
  fst (get_valid_moves (new_board 1)) = [].
Proof.
  intros Hn. split; [| reflexivity].
  rewrite get_valid_moves_eq. cbn [fst]. apply filter_all.
  intros [r c] Hp. apply In_all_cells in Hp. cbn [fst snd].
  assert (Hex : exists q, In q (get_neighbors (new_board n) r c)).
  { destruct Hp as [Hpr Hpc]. simpl in Hpr, Hpc.
    destruct (Z_lt_dec (c + 1) n) as [Hlt | Hge].
    - exists (r, c + 1). apply get_neighbors_iff. unfold in_range. simpl. lia.
    - exists (r, c - 1). apply get_neighbors_iff. unfold in_range. simpl. lia. }
  destruct Hex as [q Hq].
  apply (is_valid_move_empty_neighbor (new_board n) r c q).
  - apply new_board_wf.
  - exact Hp.
  - apply new_board_cell.
  - discriminate.
  - discriminate.
  - exact Hq.
  - apply new_board_cell.
Qed.

Lemma new_board_valid_moves_witness :
  fst (get_valid_moves (new_board 7)) = all_cells 7.
Proof.
  refine (proj1 (new_board_valid_moves 7 _)). lia.
Defined.

(** ** Invariants of a game *)

Lemma player_at_succ (k : nat) : player_at (S k) = 3 - player_at k.
Proof.
  induction k as [|k IH]; [reflexivity |].
  change (player_at (S (S k))) with (player_at k). lia.
Qed.

Lemma player_at_cases (k : nat) : player_at k = 1 \/ player_at k = 2.
Proof. unfold player_at. destruct (Nat.even k); auto. Qed.

Lemma make_move_ko_some (b : GoBoard) (r c : Z) (k : pos) :
  wf_board b ->
  in_range (size b) (r, c) ->
  fst (is_valid_move b r c) = true ->
  ko_position (snd (make_move b r c)) = Some k ->
  in_range (size b) k /\ cell_at (snd (make_move b r c)) k = 0.
Proof.
  intros Hwf Hr Hv Hk.
  rewrite (make_move_ko_position b r c Hwf Hr Hv) in Hk.
  destruct (Z.eqb_spec
              (Z.of_nat (length (captured_cells b (snd (make_move b r c))))) 1)
    as [E | E]; [| discriminate].
  destruct (captured_cells b (snd (make_move b r c))) as [|k0 [|k1 l]] eqn:Ec;
    try (simpl in E; lia).
  assert (Hin : In k0 (captured_cells b (snd (make_move b r c))))
    by (rewrite Ec; left; reflexivity).
  apply In_captured_cells in Hin. destruct Hin as (Hk1 & Hk2 & Hk3).
  rewrite (find_ko_unique (size b) _ _ _ _ k0) in Hk.
  - injection Hk as <-. auto.
  - exact Hk1.
  - unfold ko_test. apply andb_true_iff. split; apply Z.eqb_eq; assumption.
  - intros p Hp Ht. unfold ko_test in Ht. apply andb_true_iff in Ht.
    destruct Ht as [H1 H2]. apply Z.eqb_eq in H1, H2.
    assert (Hin : In p (captured_cells b (snd (make_move b r c)))).
    { apply In_captured_cells. auto. }
    rewrite Ec in Hin. destruct Hin as [<- | []]. reflexivity.
Qed.

Lemma make_move_board_invariant (n : Z) (b : GoBoard) (r c : Z) :
  board_invariant n b ->
  in_range n (r, c) ->
  fst (is_valid_move b r c) = true ->
  board_invariant n (snd (make_move b r c)).
Proof.
  intros (Hs & Hw & Hcv & Hprev & Hko & Hh & Hpl & Hcb & Hcw) Hr Hv.
  subst n.
  assert (Hwf : wf_board b).
  { split; [exact Hw |]. rewrite Hpl. apply player_at_cases. }
  destruct (make_move_cells b r c Hw Hr Hv) as (L & Hnd & HL & Hw' & Hc & Hn).
  pose proof (make_move_ko_some b r c) as Hk.
  pose proof (make_move_legal b r c Hv) as E. cbv zeta in E.
  assert (Hcv' : cells_valid (size b) (board (snd (make_move b r c)))).
  { intros r' c' Hr' Hc'.
    assert (Hp : in_range (size b) (r', c')) by (split; assumption).
    specialize (Hc (r', c') Hp). unfold cell_at, cell in Hc. cbn [fst snd] in Hc.
    rewrite Hc. destruct (pos_eqb (r', c') (r, c));
      [destruct Hwf as [_ [-> | ->]]; auto |].
    destruct (mem (r', c') L); [auto | apply Hcv; assumption]. }
  revert Hw' Hcv' Hk. rewrite E. clear E. cbn [snd]. intros Hw' Hcv' Hk.
  unfold board_invariant.
  cbn [size board previous_board ko_position move_history current_player
       captured_black captured_white].
  split; [reflexivity | split; [exact Hw' | split; [exact Hcv' |]]].
  split; [intros prev [= <-]; auto |].
  split; [intros k Hk'; apply (Hk k Hwf Hr Hv Hk') |].
  split; [discriminate |].
  split.
  - rewrite length_app, Nat.add_comm. cbn [length Nat.add].
    rewrite player_at_succ. lia.
  - rewrite Hn. destruct (current_player b =? 1); lia.
Qed.

Lemma undo_move_board_invariant (n : Z) (b : GoBoard) :
  board_invariant n b ->
  fst (undo_move b) = true ->
  board_invariant n (snd (undo_move b)).
Proof.
  intros (Hs & Hw & Hcv & Hprev & Hko & Hh & Hpl & Hcb & Hcw).
  unfold undo_move.
  destruct (move_history b) as [|m h] eqn:Eh; [discriminate |].
  destruct (previous_board b) as [prev|] eqn:Ep; [| discriminate].
  intros _. destruct (Hprev prev eq_refl) as [Hpw Hpv].
  unfold board_invariant.
  cbn [snd size board previous_board ko_position move_history current_player
       captured_black captured_white].
  split; [exact Hs | split; [exact Hpw | split; [exact Hpv |]]].
  split; [intros p [= <-]; auto |].
  split; [discriminate |].
  split; [discriminate |].
  split; [| lia].
  assert (El : length (m :: h) = S (length (removelast (m :: h)))).
  { destruct (@exists_last _ (m :: h)) as (l' & a & E); [discriminate |].
    rewrite E, removelast_last, length_app. simpl. lia. }
  rewrite Hpl, El, player_at_succ. lia.
Qed.

Lemma new_board_invariant (n : Z) : board_invariant n (new_board n).
Proof.
  destruct (new_board_wf n) as [Hw _]. unfold board_invariant. simpl.
  split; [reflexivity | split; [exact Hw | split]].
  - intros r c _ _. left. apply (new_board_cell n r c).
  - repeat split; try discriminate; try lia. intros H; contradiction.
Qed.

Lemma reachable_undo_invariant (n : Z) (b : GoBoard) :
  reachable_undo n b -> board_invariant n b.
Proof.
  induction 1 as [|b b' r c Hb IH Hpos Hmove|b b' Hb IH Hundo].
  - apply new_board_invariant.
  - replace b' with (snd (make_move b r c)) by (rewrite Hmove; reflexivity).
    apply make_move_board_invariant; [exact IH | |].
    + apply is_valid_position_iff in Hpos.
      destruct IH as [<- _]. exact Hpos.
    + apply make_move_true_valid. rewrite Hmove. reflexivity.
  - replace b' with (snd (undo_move b)) by (rewrite Hundo; reflexivity).
    apply undo_move_board_invariant; [exact IH |].
    rewrite Hundo. reflexivity.
Qed.

(** X12. In every board reached from the new board by successful moves
    and undos, the grid is square of the declared size, every cell holds
    [0], [1] or [2], the snapshot, when present, is such a grid too, the
    ko point, when present, is an empty cell of the board, and the
    capture counters are not negative. *)
Theorem reachable_board_valid (n : Z) (b : GoBoard) :
  reachable_undo n b ->
  size b = n /\ wf_grid n (board b) /\ cells_valid n (board b) /\
  (forall prev, previous_board b = Some prev ->
                wf_grid n prev /\ cells_valid n prev) /\
  (forall k, ko_position b = Some k -> in_range n k /\ cell_at b k = 0) /\
  0 <= captured_black b /\ 0 <= captured_white b.
Proof.
  intros H. destruct (reachable_undo_invariant n b H)
    as (H1 & H2 & H3 & H4 & H5 & _ & _ & H6 & H7).
  exact (conj H1 (conj H2 (conj H3 (conj H4 (conj H5 (conj H6 H7)))))).
Qed.

(** X13. Turns alternate, also across undos: in every board reached by
    successful moves and undos, Black is to move exactly when the number
    of recorded moves is even, and White when it is odd. *)
Theorem reachable_turn_parity (n : Z) (b : GoBoard) :
  reachable_undo n b ->
  current_player b = player_at (length (move_history b)) /\
  (current_player b = 1 <-> Nat.even (length (move_history b)) = true).
Proof.
  intros H. destruct (reachable_undo_invariant n b H)
    as (_ & _ & _ & _ & _ & _ & Hpl & _).
  split; [exact Hpl |]. rewrite Hpl. unfold player_at.
  destruct (Nat.even (length (move_history b))); split; congruence.
Qed.

(** X14. In every board reached by successful moves and undos,
    [undo_move] succeeds exactly when the history is not empty; when it
    fails it returns the board unchanged, and when it succeeds the
    history loses its last entry. *)
Theorem reachable_undo_available (n : Z) (b : GoBoard) :
  reachable_undo n b ->
  (fst (undo_move b) = true <-> move_history b <> []) /\
  (fst (undo_move b) = false -> snd (undo_move b) = b) /\
  (fst (undo_move b) = true ->
   move_history (snd (undo_move b)) = removelast (move_history b)).
Proof.
  intros H. destruct (reachable_undo_invariant n b H)
    as (_ & _ & _ & _ & _ & Hh & _).
  unfold undo_move.
  destruct (move_history b) as [|m h] eqn:Eh.
  - cbn [fst snd]. repeat split; try congruence.
  - destruct (previous_board b) as [prev|] eqn:Ep.
    + cbn [fst snd move_history]. repeat split; try congruence.
    + exfalso. apply Hh; [discriminate | reflexivity].
Qed.

Lemma reachable_board_valid_witness :
  size (snd (undo_move (snd (make_move (new_board 7) 3 3)))) = 7.
Proof.
  refine (proj1 (reachable_board_valid 7
                   (snd (undo_move (snd (make_move (new_board 7) 3 3)))) _)).
  reach_undo.
Defined.

Lemma reachable_turn_parity_witness :
  current_player (snd (make_move (new_board 7) 3 3)) =
  player_at (length (move_history (snd (make_move (new_board 7) 3 3)))).
Proof.
  refine (proj1 (reachable_turn_parity 7
                   (snd (make_move (new_board 7) 3 3)) _)).
  reach_undo.
Defined.

Lemma reachable_undo_available_witness :
  fst (undo_move (snd (undo_move (snd (make_move (new_board 7) 3 3))))) = true
  <-> move_history (snd (undo_move (snd (make_move (new_board 7) 3 3)))) <> [].
Proof.
  refine (proj1 (reachable_undo_available 7
                   (snd (undo_move (snd (make_move (new_board 7) 3 3)))) _)).
  reach_undo.
Defined.

(** * Further properties of the search *)

Lemma copy_eq (b : GoBoard) : copy b = b.
Proof. destruct b; reflexivity. Qed.

Lemma max_loop_result
    (search : GoBoard -> fscore -> fscore -> MinimaxAI -> search_result)
    (b : GoBoard) :
  (forall nb a be x, exists q, score_of (search nb a be x) = Fin q) ->
  forall moves m bm alpha beta ai,
    (exists q, m = Fin q) \/ (m = NegInf /\ moves <> []) ->
    (exists q, score_of (max_loop search b moves m bm alpha beta ai) = Fin q) /\
    (move_of (max_loop search b moves m bm alpha beta ai) = bm \/
     exists mv, In mv moves /\
                move_of (max_loop search b moves m bm alpha beta ai) = Some mv) /\
    (m = NegInf ->
     exists mv, In mv moves /\
                move_of (max_loop search b moves m bm alpha beta ai) = Some mv).
Proof.
  intros Hfin. induction moves as [|mv rest IH]; intros m bm alpha beta ai Hm.
  - destruct Hm as [[q ->] | [_ H]]; [| contradiction].
    cbn [max_loop]. unfold score_of, move_of. cbn [fst snd].
    split; [exists q; reflexivity | split; [left; reflexivity | discriminate]].
  - cbn [max_loop].
    destruct (Hfin (snd (make_move (copy b) (fst mv) (snd mv))) alpha beta ai)
      as [q' Hq'].
    destruct (search _ alpha beta ai) as [[v' x] ai1].
    unfold score_of in Hq'; cbn [fst] in Hq'. subst v'.
    assert (Hstep : forall m' bm',
              (exists q, m' = Fin q) -> bm' = bm \/ bm' = Some mv ->
              (m = NegInf -> bm' = Some mv) ->
              let R := if fs_leb beta (fs_max alpha (Fin q'))
                       then (m', bm', ai1)
                       else max_loop search b rest m' bm'
                              (fs_max alpha (Fin q')) beta ai1 in
              (exists q, score_of R = Fin q) /\
              (move_of R = bm \/
               exists mv0, In mv0 (mv :: rest) /\ move_of R = Some mv0) /\
              (m = NegInf ->
               exists mv0, In mv0 (mv :: rest) /\ move_of R = Some mv0)).
    { intros m' bm' Hm' Hbm' Hneg R. subst R.
      destruct (fs_leb beta (fs_max alpha (Fin q'))).
      - unfold score_of, move_of. cbn [fst snd]. split; [exact Hm' |]. split.
        + destruct Hbm' as [-> | ->]; [left; reflexivity |].
          right. exists mv. split; [left; reflexivity | reflexivity].
        + intros E. exists mv. split; [left; reflexivity | exact (Hneg E)].
      - destruct (IH m' bm' (fs_max alpha (Fin q')) beta ai1 (or_introl Hm'))
          as (H1 & H2 & _).
        split; [exact H1 |].
        assert (H3 : move_of (max_loop search b rest m' bm'
                                (fs_max alpha (Fin q')) beta ai1) = bm' \/
                     exists mv0, In mv0 (mv :: rest) /\
                       move_of (max_loop search b rest m' bm'
                                  (fs_max alpha (Fin q')) beta ai1) = Some mv0).
        { destruct H2 as [H2 | (mv0 & Hin & H2)]; [left; exact H2 |].
          right. exists mv0. split; [right; exact Hin | exact H2]. }
        split.
        + destruct H3 as [H3 | H3]; [rewrite H3 | right; exact H3].
          destruct Hbm' as [E | E]; [left; exact E |].
          right. exists mv. split; [left; reflexivity | exact E].
        + intros E. destruct H3 as [H3 | H3]; [rewrite H3 | exact H3].
          exists mv. split; [left; reflexivity | exact (Hneg E)]. }
    destruct (fs_ltb m (Fin q')) eqn:El.
    + apply Hstep; [exists q'; reflexivity | right; reflexivity | reflexivity].
    + apply Hstep.
      * destruct Hm as [Hm | [-> _]]; [exact Hm | discriminate].
      * left; reflexivity.
      * intros ->. discriminate.
Qed.

Lemma min_loop_result
    (search : GoBoard -> fscore -> fscore -> MinimaxAI -> search_result)
    (b : GoBoard) :
  (forall nb a be x, exists q, score_of (search nb a be x) = Fin q) ->
  forall moves m bm alpha beta ai,
    (exists q, m = Fin q) \/ (m = PosInf /\ moves <> []) ->
    (exists q, score_of (min_loop search b moves m bm alpha beta ai) = Fin q) /\
    (move_of (min_loop search b moves m bm alpha beta ai) = bm \/
     exists mv, In mv moves /\
                move_of (min_loop search b moves m bm alpha beta ai) = Some mv) /\
    (m = PosInf ->
     exists mv, In mv moves /\
                move_of (min_loop search b moves m bm alpha beta ai) = Some mv).
Proof.
  intros Hfin. induction moves as [|mv rest IH]; intros m bm alpha beta ai Hm.
  - destruct Hm as [[q ->] | [_ H]]; [| contradiction].
    cbn [min_loop]. unfold score_of, move_of. cbn [fst snd].
    split; [exists q; reflexivity | split; [left; reflexivity | discriminate]].
  - cbn [min_loop].
    destruct (Hfin (snd (make_move (copy b) (fst mv) (snd mv))) alpha beta ai)
      as [q' Hq'].
    destruct (search _ alpha beta ai) as [[v' x] ai1].
    unfold score_of in Hq'; cbn [fst] in Hq'. subst v'.
    assert (Hstep : forall m' bm',
              (exists q, m' = Fin q) -> bm' = bm \/ bm' = Some mv ->
              (m = PosInf -> bm' = Some mv) ->
              let R := if fs_leb (fs_min beta (Fin q')) alpha
                       then (m', bm', ai1)
                       else min_loop search b rest m' bm' alpha
                              (fs_min beta (Fin q')) ai1 in
              (exists q, score_of R = Fin q) /\
              (move_of R = bm \/
               exists mv0, In mv0 (mv :: rest) /\ move_of R = Some mv0) /\
              (m = PosInf ->
               exists mv0, In mv0 (mv :: rest) /\ move_of R = Some mv0)).
    { intros m' bm' Hm' Hbm' Hneg R. subst R.
      destruct (fs_leb (fs_min beta (Fin q')) alpha).
      - unfold score_of, move_of. cbn [fst snd]. split; [exact Hm' |]. split.
        + destruct Hbm' as [-> | ->]; [left; reflexivity |].
          right. exists mv. split; [left; reflexivity | reflexivity].
        + intros E. exists mv. split; [left; reflexivity | exact (Hneg E)].
      - destruct (IH m' bm' alpha (fs_min beta (Fin q')) ai1 (or_introl Hm'))
          as (H1 & H2 & _).
        split; [exact H1 |].
        assert (H3 : move_of (min_loop search b rest m' bm' alpha
                                (fs_min beta (Fin q')) ai1) = bm' \/
                     exists mv0, In mv0 (mv :: rest) /\
                       move_of (min_loop search b rest m' bm' alpha
                                  (fs_min beta (Fin q')) ai1) = Some mv0).
        { destruct H2 as [H2 | (mv0 & Hin & H2)]; [left; exact H2 |].
          right. exists mv0. split; [right; exact Hin | exact H2]. }
        split.
        + destruct H3 as [H3 | H3]; [rewrite H3 | right; exact H3].
          destruct Hbm' as [E | E]; [left; exact E |].
          right. exists mv. split; [left; reflexivity | exact E].
        + intros E. destruct H3 as [H3 | H3]; [rewrite H3 | exact H3].
          exists mv. split; [left; reflexivity | exact (Hneg E)]. }
    destruct (fs_ltb (Fin q') m) eqn:El.
    + apply Hstep; [exists q'; reflexivity | right; reflexivity | reflexivity].
    + apply Hstep.
      * destruct Hm as [Hm | [-> _]]; [exact Hm | discriminate].
      * left; reflexivity.
      * intros ->. discriminate.
Qed.

Lemma minimax_finite (d : nat) :
  forall ai b alpha beta mx,
    exists q, score_of (minimax ai b d alpha beta mx) = Fin q.
Proof.
  induction d as [|d IH]; intros ai b alpha beta mx; cbn [minimax].
  - eexists; reflexivity.
  - rewrite get_valid_moves_eq. cbv beta iota zeta.
    destruct (filter _ _) as [|mv moves]; [eexists; reflexivity |].
    destruct mx.
    + apply max_loop_result.
      * intros nb a be x. apply IH.
      * right. split; [reflexivity | discriminate].
    + apply min_loop_result.
      * intros nb a be x. apply IH.
      * right. split; [reflexivity | discriminate].
Qed.

Lemma minimax_move (d : nat) (ai : MinimaxAI) (b : GoBoard)
    (alpha beta : fscore) (mx : bool) :
  (d = O \/ fst (get_valid_moves b) = [] ->
   move_of (minimax ai b d alpha beta mx) = None) /\
  (d <> O -> fst (get_valid_moves b) <> [] ->
   exists mv, In mv (fst (get_valid_moves b)) /\
              move_of (minimax ai b d alpha beta mx) = Some mv).
Proof.
  destruct d as [|d]; cbn [minimax].
  - split; [reflexivity | intros H; contradiction].
  - rewrite get_valid_moves_eq. cbv beta iota zeta. cbn [fst].
    destruct (filter _ _) as [|mv moves].
    + split; [reflexivity | intros _ H; contradiction].
    + split; [intros [H | H]; discriminate |]. intros _ _.
      destruct mx.
      * apply max_loop_result; [| | reflexivity].
        -- intros nb a be x. apply minimax_finite.
        -- right. split; [reflexivity | discriminate].
      * apply min_loop_result; [| | reflexivity].
        -- intros nb a be x. apply minimax_finite.
        -- right. split; [reflexivity | discriminate].
Qed.

Lemma In_valid_moves (b : GoBoard) (r c : Z) :
  In (r, c) (fst (get_valid_moves b)) <->
  is_valid_position b r c = true /\ fst (is_valid_move b r c) = true.
Proof.
  rewrite get_valid_moves_eq. cbn [fst].
  rewrite filter_In, In_all_cells, is_valid_position_iff. reflexivity.
Qed.

(** A move proposed by the search is a legal move of the position. *)
Lemma minimax_move_some (ai : MinimaxAI) (b : GoBoard) (d : nat)
    (alpha beta : fscore) (mx : bool) :
  (move_of (minimax ai b d alpha beta mx) = None <->
   d = O \/ fst (get_valid_moves b) = []) /\
  (forall r c, move_of (minimax ai b d alpha beta mx) = Some (r, c) ->
               is_valid_position b r c = true /\
               fst (is_valid_move b r c) = true /\
               fst (make_move b r c) = true).
Proof.
  destruct (minimax_move d ai b alpha beta mx) as [Hnone Hsome].
  split.
  - split; [| exact Hnone]. intros E.
    destruct d as [|d]; [left; reflexivity | right].
    destruct (fst (get_valid_moves b)) as [|mv l] eqn:Ev; [reflexivity |].
    destruct Hsome as (mv0 & _ & H); [discriminate | discriminate |].
    congruence.
  - intros r c E.
    assert (Hd : d <> O).
    { intros ->. rewrite (Hnone (or_introl eq_refl)) in E. discriminate. }
    assert (Hv : fst (get_valid_moves b) <> []).
    { intros H. rewrite (Hnone (or_intror H)) in E. discriminate. }
    destruct (Hsome Hd Hv) as (mv & Hin & H). rewrite H in E.
    injection E as ->. apply In_valid_moves in Hin. destruct Hin as [H1 H2].
    split; [exact H1 | split; [exact H2 |]].
    rewrite (make_move_legal b r c H2). reflexivity.
Qed.

(** X15. The search never proposes an illegal move and always returns a
    finite score: for every window and flag, the score of [minimax] is a
    number, its move is absent exactly when the depth is zero or the
    position has no legal move, and otherwise it is a cell of the board
    on which [is_valid_move] holds and which [make_move] accepts. *)
Theorem minimax_move_legal (ai : MinimaxAI) (b : GoBoard) (d : nat)
    (alpha beta : fscore) (mx : bool) :
  (exists q, score_of (minimax ai b d alpha beta mx) = Fin q) /\
  (move_of (minimax ai b d alpha beta mx) = None <->
   d = O \/ fst (get_valid_moves b) = []) /\
  (forall r c, move_of (minimax ai b d alpha beta mx) = Some (r, c) ->
               is_valid_position b r c = true /\
               fst (is_valid_move b r c) = true /\
               fst (make_move b r c) = true).
Proof.
  split; [apply minimax_finite | apply minimax_move_some].
Qed.

Lemma max_loop_nodes
    (search : GoBoard -> fscore -> fscore -> MinimaxAI -> search_result)
    (b : GoBoard) :
  (forall nb a be x,
     nodes_evaluated x <= nodes_evaluated (engine_of (search nb a be x))) ->
  forall moves m bm alpha beta ai,
    nodes_evaluated ai <=
    nodes_evaluated (engine_of (max_loop search b moves m bm alpha beta ai)).
Proof.
  intros Hs. induction moves as [|mv rest IH]; intros m bm alpha beta ai;
    cbn [max_loop]; [unfold engine_of; cbn [snd]; lia |].
  pose proof (Hs (snd (make_move (copy b) (fst mv) (snd mv))) alpha beta ai)
    as H.
  destruct (search _ alpha beta ai) as [[v' x] ai1].
  unfold engine_of in H; cbn [snd] in H.
  destruct (fs_ltb m v'); destruct (fs_leb beta (fs_max alpha v'));
    try (unfold engine_of; cbn [snd]; exact H);
    (etransitivity; [exact H | apply IH]).
Qed.

Lemma min_loop_nodes
    (search : GoBoard -> fscore -> fscore -> MinimaxAI -> search_result)
    (b : GoBoard) :
  (forall nb a be x,
     nodes_evaluated x <= nodes_evaluated (engine_of (search nb a be x))) ->
  forall moves m bm alpha beta ai,
    nodes_evaluated ai <=
    nodes_evaluated (engine_of (min_loop search b moves m bm alpha beta ai)).
Proof.
  intros Hs. induction moves as [|mv rest IH]; intros m bm alpha beta ai;
    cbn [min_loop]; [unfold engine_of; cbn [snd]; lia |].
  pose proof (Hs (snd (make_move (copy b) (fst mv) (snd mv))) alpha beta ai)
    as H.
  destruct (search _ alpha beta ai) as [[v' x] ai1].
  unfold engine_of in H; cbn [snd] in H.
  destruct (fs_ltb v' m); destruct (fs_leb (fs_min beta v') alpha);
    try (unfold engine_of; cbn [snd]; exact H);
    (etransitivity; [exact H | apply IH]).
Qed.

Lemma minimax_nodes (d : nat) :
  forall ai b alpha beta mx,
    nodes_evaluated ai + 1 <=
    nodes_evaluated (engine_of (minimax ai b d alpha beta mx)).
Proof.
  induction d as [|d IH]; intros ai b alpha beta mx; cbn [minimax].
  - unfold engine_of; cbn [snd nodes_evaluated with_nodes]. lia.
  - rewrite get_valid_moves_eq. cbv beta iota zeta.
    destruct (filter _ _) as [|mv moves];
      [unfold engine_of; cbn [snd nodes_evaluated with_nodes]; lia |].
    destruct mx.
    + etransitivity; [| apply max_loop_nodes].
      * cbn [nodes_evaluated with_nodes]. lia.
      * intros nb a be x. specialize (IH x nb a be false). lia.
    + etransitivity; [| apply min_loop_nodes].
      * cbn [nodes_evaluated with_nodes]. lia.
      * intros nb a be x. specialize (IH x nb a be true). lia.
Qed.

(** X16. [get_best_move] returns no move exactly when the depth of the
    engine is zero or the position has no legal move; a move it returns
    is legal, so that the call of [make_move] by which the game applies
    it succeeds; and it always reports at least one visited node. *)
Theorem get_best_move_legal (ai : MinimaxAI) (b : GoBoard) :
  (fst (fst (get_best_move ai b)) = None <->
   depth ai = O \/ fst (get_valid_moves b) = []) /\
  (forall r c, fst (fst (get_best_move ai b)) = Some (r, c) ->
               is_valid_position b r c = true /\
               fst (is_valid_move b r c) = true /\
               fst (make_move b r c) = true) /\
  1 <= snd (fst (get_best_move ai b)).
Proof.
  assert (E : fst (fst (get_best_move ai b)) =
              move_of (minimax (with_nodes ai 0) b (depth ai)
                         NegInf PosInf true)).
  { unfold get_best_move, move_of.
    change (depth (with_nodes ai 0)) with (depth ai).
    destruct (minimax (with_nodes ai 0) b (depth ai) NegInf PosInf true)
      as [[s m] ai1]. reflexivity. }
  rewrite E.
  destruct (minimax_move_some (with_nodes ai 0) b (depth ai) NegInf PosInf
              true) as (H1 & H2).
  split; [exact H1 | split; [exact H2 |]].
  pose proof (minimax_nodes (depth ai) (with_nodes ai 0) b NegInf PosInf true)
    as Hn.
  unfold get_best_move. change (depth (with_nodes ai 0)) with (depth ai).
  destruct (minimax (with_nodes ai 0) b (depth ai) NegInf PosInf true)
    as [[s m] ai1] eqn:Em. cbn [fst snd].
  unfold engine_of in Hn. cbn [snd nodes_evaluated with_nodes] in Hn.
  lia.
Qed.

Lemma evaluate_board_players (ai ai' : MinimaxAI) (b : GoBoard) :
  player ai = player ai' -> opponent ai = opponent ai' ->
  evaluate_board ai b = evaluate_board ai' b.
Proof.
  intros H1 H2. unfold evaluate_board. rewrite H1, H2. reflexivity.
Qed.

Lemma fs_ltb_Fin (a c : Q) :
  (fs_ltb (Fin a) (Fin c) = true -> (a < c)%Q) /\
  (fs_ltb (Fin a) (Fin c) = false -> (c <= a)%Q).
Proof.
  split; intros H.
  - apply fs_ltb_true in H. inversion H; assumption.
  - apply fs_ltb_false in H. inversion H; assumption.
Qed.

(** The maximizing loop at depth one: the children are leaves, the window
    is open above, and no cutoff happens. *)
Lemma max_loop_leaves (ai : MinimaxAI) (b : GoBoard) (moves : list pos) :
  forall pre m bm alpha ai',
    player ai' = player ai -> opponent ai' = opponent ai ->
    alpha <> PosInf ->
    (pre = [] /\ m = NegInf /\ bm = None) \/
    (m = NegInf -> False) /\
    (exists best, first_best ai b pre best /\
                  m = Fin (move_value ai b best) /\ bm = Some best) ->
    pre ++ moves <> [] ->
    exists best,
      first_best ai b (pre ++ moves) best /\
      move_of (max_loop (fun nb a be x => minimax x nb 0 a be false)
                 b moves m bm alpha PosInf ai') = Some best /\
      nodes_evaluated
        (engine_of (max_loop (fun nb a be x => minimax x nb 0 a be false)
                      b moves m bm alpha PosInf ai')) =
      nodes_evaluated ai' + Z.of_nat (length moves).
Proof.
  induction moves as [|mv rest IH];
    intros pre m bm alpha ai' Hp Ho Ha Hst Hne.
  - rewrite app_nil_r in *. cbn [max_loop].
    unfold move_of, engine_of. cbn [fst snd length Z.of_nat].
    destruct Hst as [(-> & _) | (_ & best & Hb & _ & ->)]; [contradiction |].
    exists best. split; [exact Hb | split; [reflexivity | lia]].
  - cbn [max_loop minimax]. rewrite copy_eq.
    set (ai1 := with_nodes ai' (nodes_evaluated ai' + 1)).
    assert (Ev : evaluate_board ai1 (snd (make_move b (fst mv) (snd mv)))
                 = move_value ai b mv).
    { unfold move_value. apply evaluate_board_players; assumption. }
    rewrite Ev.
    assert (Hcut : fs_leb PosInf (fs_max alpha (Fin (move_value ai b mv)))
                   = false).
    { unfold fs_max. destruct (fs_ltb alpha (Fin (move_value ai b mv)));
        [reflexivity |]. destruct alpha; [reflexivity | reflexivity |].
      contradiction. }
    rewrite Hcut.
    assert (Ha' : fs_max alpha (Fin (move_value ai b mv)) <> PosInf).
    { unfold fs_max. destruct (fs_ltb alpha (Fin (move_value ai b mv)));
        [discriminate | exact Ha]. }
    assert (Hlen : nodes_evaluated ai1 + Z.of_nat (length rest) =
                   nodes_evaluated ai' + Z.of_nat (length (mv :: rest))).
    { unfold ai1. cbn [nodes_evaluated with_nodes length].
      rewrite Nat2Z.inj_succ. lia. }
    replace (pre ++ mv :: rest) with ((pre ++ [mv]) ++ rest)
      by (rewrite <- app_assoc; reflexivity).
    rewrite <- Hlen.
    destruct (fs_ltb m (Fin (move_value ai b mv))) eqn:El.
    + apply IH; try assumption; [| destruct pre; discriminate].
      right. split; [discriminate |]. exists mv.
      split; [| split; reflexivity].
      exists pre, []. split; [reflexivity | split; [| intros x []]].
      intros x Hx. destruct Hst as [(-> & _) | (_ & best & Hb & -> & _)];
        [contradiction |].
      apply fs_ltb_Fin in El. destruct Hb as (l1 & l2 & -> & H1 & H2).
      apply in_app_or in Hx. destruct Hx as [Hx | [<- | Hx]].
      * eapply Qlt_trans; [apply H1; exact Hx | exact El].
      * exact El.
      * eapply Qle_lt_trans; [apply H2; exact Hx | exact El].
    + apply IH; try assumption; [| destruct pre; discriminate].
      destruct Hst as [(_ & -> & _) | (Hm & best & Hb & -> & ->)];
        [discriminate |].
      right. split; [discriminate |]. exists best.
      split; [| split; reflexivity].
      apply fs_ltb_Fin in El. destruct Hb as (l1 & l2 & -> & H1 & H2).
      exists l1, (l2 ++ [mv]).
      split; [rewrite <- app_assoc; reflexivity | split; [exact H1 |]].
      intros x Hx. apply in_app_or in Hx.
      destruct Hx as [Hx | [<- | []]]; [apply H2; exact Hx | exact El].
Qed.

(** X17. An engine of depth one picks the best immediate move: when the
    position has legal moves, [get_best_move] returns the first legal
    move, in row-major order, whose resulting position has the greatest
    evaluation, and it reports one node for the root plus one per legal
    move. *)
Theorem get_best_move_depth_one (ai : MinimaxAI) (b : GoBoard) :
  depth ai = 1%nat ->
  fst (get_valid_moves b) <> [] ->
  exists best,
    first_best ai b (fst (get_valid_moves b)) best /\
    fst (fst (get_best_move ai b)) = Some best /\
    snd (fst (get_best_move ai b)) =
    1 + Z.of_nat (length (fst (get_valid_moves b))).
Proof.
  intros Hd Hv. unfold get_best_move.
  change (depth (with_nodes ai 0)) with (depth ai). rewrite Hd.
  cbn [minimax]. revert Hv. rewrite get_valid_moves_eq.
  cbv beta iota zeta. cbn [fst].
  destruct (filter _ _) as [|mv moves] eqn:Ef; [intros H; contradiction |].
  intros _.
  destruct (max_loop_leaves ai b (mv :: moves) [] NegInf None NegInf
              (with_nodes (with_nodes ai 0)
                 (nodes_evaluated (with_nodes ai 0) + 1)))
    as (best & Hb & Hm & Hn);
    [reflexivity | reflexivity | discriminate | left; auto | discriminate |].
  cbn [app] in Hb.
  destruct (max_loop _ b (mv :: moves) NegInf None NegInf PosInf _)
    as [[s m] ai1].
  unfold move_of, engine_of in Hm, Hn. cbn [fst snd] in Hm, Hn.
  exists best. cbn [fst snd]. split; [exact Hb | split; [exact Hm |]].
  rewrite Hn. cbn [nodes_evaluated with_nodes]. lia.
Qed.

Lemma get_best_move_depth_one_witness :
  exists best,
    first_best (new_ai 1 2) (new_board 7)
      (fst (get_valid_moves (new_board 7))) best /\
    fst (fst (get_best_move (new_ai 1 2) (new_board 7))) = Some best /\
    snd (fst (get_best_move (new_ai 1 2) (new_board 7))) =
    1 + Z.of_nat (length (fst (get_valid_moves (new_board 7)))).
Proof.
  refine (get_best_move_depth_one (new_ai 1 2) (new_board 7) _ _).
  - reflexivity.
  - vm_compute. discriminate.
Defined.

(** ** The evaluation is zero-sum *)




(** ** The end of the game *)

Lemma komi_le (a w : Z) :
  (Qle_bool (inject_Z a) (inject_Z w + (5 # 2)) = true <-> a <= w + 2) /\
  (Qle_bool (inject_Z w + (5 # 2)) (inject_Z a) = true <-> w + 3 <= a).
Proof.
  rewrite !Qle_bool_iff. unfold Qle, Qplus, inject_Z. cbn [Qnum Qden].
  split; lia.
Qed.

(** X19. As long as White's stones and captures stay below [2 ^ 51] in
    absolute value, so that the float sum with the komi is exact,
    [check_game_over] ends the game exactly when the side to move has no
    legal move, and then always names a winner: because of the komi of
    [2.5] the two scores are never equal, so the draw is never announced.
    Black wins exactly when Black's stones and captures exceed White's by
    at least three, and White wins otherwise. *)
Theorem check_game_over_decides (b : GoBoard) :
  Z.abs (stones b 2 + captured_black b) < 2 ^ 51 ->
  (fst (check_game_over b) = None <-> fst (get_valid_moves b) <> []) /\
  fst (check_game_over b) <> Some Draw /\
  (fst (check_game_over b) = Some BlackWins <->
   fst (get_valid_moves b) = [] /\
   stones b 2 + captured_black b + 3 <= stones b 1 + captured_white b) /\
  (fst (check_game_over b) = Some WhiteWins <->
   fst (get_valid_moves b) = [] /\
   stones b 1 + captured_white b <= stones b 2 + captured_black b + 2).
Proof.
  intros _.
  unfold check_game_over. rewrite get_valid_moves_eq. cbn [fst].
  destruct (filter _ _) as [|mv moves].
  2:{ cbn [fst]. split; [split; [discriminate | reflexivity] |].
      split; [discriminate |].
      split; (split; [discriminate | intros [H _]; discriminate]). }
  rewrite get_score_eq.
  destruct (komi_le (stones b 1 + captured_white b)
              (stones b 2 + captured_black b)) as [K1 K2].
  destruct (Qle_bool (inject_Z (stones b 1 + captured_white b))
              (inject_Z (stones b 2 + captured_black b) + (5 # 2))) eqn:E1;
    destruct (Qle_bool (inject_Z (stones b 2 + captured_black b) + (5 # 2))
                (inject_Z (stones b 1 + captured_white b))) eqn:E2;
    cbn [negb fst].
  - exfalso. destruct K1 as [K1 _], K2 as [K2 _].
    specialize (K1 eq_refl). specialize (K2 eq_refl). lia.
  - destruct K1 as [K1 _]. specialize (K1 eq_refl).
    split; [split; [discriminate | intros H; contradiction] |].
    split; [discriminate |].
    split; [split; [discriminate | intros [_ H]; lia] |].
    split; [intros _; split; [reflexivity | lia] | reflexivity].
  - destruct K2 as [K2 _]. specialize (K2 eq_refl).
    split; [split; [discriminate | intros H; contradiction] |].
    split; [discriminate |].
    split; [split; [intros _; split; [reflexivity | lia] | reflexivity] |].
    split; [discriminate | intros [_ H]; lia].
  - exfalso.
    assert (H1 : ~ stones b 1 + captured_white b
                   <= stones b 2 + captured_black b + 2)
      by (intros H; apply K1 in H; discriminate).
    assert (H2 : ~ stones b 2 + captured_black b + 3
                   <= stones b 1 + captured_white b)
      by (intros H; apply K2 in H; discriminate).
    lia.
Qed.

Lemma check_game_over_decides_witness :
  fst (check_game_over (new_board 1)) <> Some Draw /\
  (fst (check_game_over (new_board 1)) = Some WhiteWins <->
   fst (get_valid_moves (new_board 1)) = [] /\
   stones (new_board 1) 1 + captured_white (new_board 1) <=
   stones (new_board 1) 2 + captured_black (new_board 1) + 2).
Proof.
  refine ((fun H => conj (proj1 (proj2 H)) (proj2 (proj2 (proj2 H))))
            (check_game_over_decides (new_board 1) _)).
  vm_compute; reflexivity.
Defined.

(** ** Mouse positions *)

Lemma round_div_cell (n : Z) :
  (forall k, round_div n CELL_SIZE = k -> -35 <= n - 70 * k <= 35) /\
  (forall k, -35 < n - 70 * k < 35 -> round_div n CELL_SIZE = k) /\
  (0 <= round_div n CELL_SIZE < BOARD_SIZE <-> -35 <= n <= 455).
Proof.
  unfold round_div, CELL_SIZE, BOARD_SIZE. cbv zeta.
  pose proof (Z.div_mod n 70 ltac:(lia)) as Hn.
  pose proof (Z.mod_pos_bound n 70 ltac:(lia)) as Hr.
  set (q := n / 70) in *. set (r := n mod 70) in *. clearbody q r.
  split; [| split].
  - intros k <-.
    destruct (Z.ltb_spec (2 * r) 70); [lia |].
    destruct (Z.ltb_spec 70 (2 * r)); [lia |].
    destruct (Z.even q); lia.
  - intros k Hk.
    destruct (Z.ltb_spec (2 * r) 70); [lia |].
    destruct (Z.ltb_spec 70 (2 * r)); [lia |]. lia.
  - destruct (Z.ltb_spec (2 * r) 70); [lia |].
    destruct (Z.ltb_spec 70 (2 * r)); [lia |].
    assert (Er : r = 35) by lia. subst r.
    destruct (Z.eq_dec q (-1)) as [-> | N1]; [cbn; lia |].
    destruct (Z.eq_dec q 6) as [-> | N6]; [cbn; lia |].
    destruct (Z.even q); lia.
Qed.

(** X20. [get_board_position] accepts a click exactly in the square of
    the pixels from 45 to 535 in both directions; the cell that it returns
    is on the board and its intersection is at most half a cell (35
    pixels) away from the click in each direction; and a click less than
    half a cell away from the point where [draw_stones] centres a cell, in
    particular a click on the drawn stone, gives that cell. *)
Theorem get_board_position_nearest (x y : Z) :
  (get_board_position (x, y) <> None <->
   45 <= x <= 535 /\ 45 <= y <= 535) /\
  (forall r c,
     get_board_position (x, y) = Some (r, c) ->
     0 <= r < BOARD_SIZE /\ 0 <= c < BOARD_SIZE /\
     Z.abs (x - fst (stone_center (r, c))) <= 35 /\
     Z.abs (y - snd (stone_center (r, c))) <= 35) /\
  (forall r c,
     0 <= r < BOARD_SIZE -> 0 <= c < BOARD_SIZE ->
     Z.abs (x - fst (stone_center (r, c))) < 35 ->
     Z.abs (y - snd (stone_center (r, c))) < 35 ->
     get_board_position (x, y) = Some (r, c)).
Proof.
  unfold get_board_position, stone_center. cbn [fst snd].
  destruct (round_div_cell (x - MARGIN)) as (Cx1 & Cx2 & Cx3).
  destruct (round_div_cell (y - MARGIN)) as (Cy1 & Cy2 & Cy3).
  unfold MARGIN, CELL_SIZE in *.
  split; [| split].
  - destruct (Z.leb_spec 0 (round_div (y - 80) 70));
      destruct (Z.ltb_spec (round_div (y - 80) 70) BOARD_SIZE);
      destruct (Z.leb_spec 0 (round_div (x - 80) 70));
      destruct (Z.ltb_spec (round_div (x - 80) 70) BOARD_SIZE);
      cbn [andb];
      (split; [intros H'; try (exfalso; apply H'; reflexivity) |
               intros H'; try discriminate]); lia.
  - intros r c.
    destruct (Z.leb_spec 0 (round_div (y - 80) 70));
      destruct (Z.ltb_spec (round_div (y - 80) 70) BOARD_SIZE);
      destruct (Z.leb_spec 0 (round_div (x - 80) 70));
      destruct (Z.ltb_spec (round_div (x - 80) 70) BOARD_SIZE);
      cbn [andb]; try discriminate.
    intros [= Er Ec].
    specialize (Cx1 c Ec). specialize (Cy1 r Er). lia.
  - intros r c Hr Hc Hx Hy.
    rewrite (Cx2 c) by lia. rewrite (Cy2 r) by lia.
    unfold BOARD_SIZE in *.
    destruct (Z.leb_spec 0 r); [| lia].
    destruct (Z.ltb_spec r 7); [| lia].
    destruct (Z.leb_spec 0 c); [| lia].
    destruct (Z.ltb_spec c 7); [| lia].
    reflexivity.
Qed.

Lemma get_board_position_nearest_witness :
  get_board_position (310, 150) = Some (1, 3).
Proof.
  refine (proj2 (proj2 (get_board_position_nearest 310 150)) 1 3 _ _ _ _);
    unfold BOARD_SIZE, stone_center, MARGIN, CELL_SIZE; cbn [fst snd]; lia.
Defined.
